(** * The persistent gateway RPC client of [monitoring/src/gateway.js]

    A shallow embedding of [buildDeviceAuthPayload] and of the
    [GatewayClient] class: the client object, the sockets and timers of the
    JavaScript runtime it talks to, and one transition function per method
    and per event handler.  Callbacks are defunctionalised: a timer holds a
    [timer_cb], a pending entry holds a [continuation].

    JavaScript runs one handler at a time, so a run of the client is a
    list of events, each handled to completion by [step].  What a handler
    reads from outside ([randomUUID()], [Date.now()], whether
    [new WebSocket] throws, the text of a message) comes with the event;
    what it does to the outside is appended to the [trace] of the state.
    The signature of [node:crypto] is a parameter. *)

From Stdlib Require Import ZArith List String Bool Lia DecimalString.
From stdpp Require Import gmap strings list fin_maps.

Local Open Scope Z_scope.
Local Open Scope string_scope.
Local Open Scope list_scope.

(** ** JavaScript values *)

(** What [JSON.parse] returns.  Numbers are the integer-valued ones (frame
    fields of this protocol are integers); [undefined] is the [None] of
    [option json]. *)
#[warnings="-register-all"]
Inductive json :=
| JNull
| JBool (b : bool)
| JNum (n : Z)
| JStr (s : string)
| JArr (items : list json)
| JObj (fields : list (string * json)).

Module Js.

(** [v ? a : b], [v || d], [if (v)]. *)
Definition truthy (v : option json) : bool :=
  match v with
  | None => false
  | Some JNull => false
  | Some (JBool b) => b
  | Some (JNum n) => negb (Z.eqb n 0)
  | Some (JStr s) => negb (String.eqb s "")
  | Some (JArr _) => true
  | Some (JObj _) => true
  end.

(** A key that occurs twice in a JSON text keeps its last value. *)
Fixpoint own (name : string) (fields : list (string * json)) : option json :=
  match fields with
  | [] => None
  | (k, v) :: rest =>
      match own name rest with
      | Some v' => Some v'
      | None => if String.eqb k name then Some v else None
      end
  end.

(** [v?.name] for the property names the client reads; none of them is
    defined on strings, numbers, booleans or arrays. *)
Definition prop (v : option json) (name : string) : option json :=
  match v with
  | Some (JObj fields) => own name fields
  | _ => None
  end.

(** [v === "s"]. *)
Definition is_str (v : option json) (s : string) : bool :=
  match v with
  | Some (JStr s') => String.eqb s' s
  | _ => false
  end.

(** [v === false]. *)
Definition is_false (v : option json) : bool :=
  match v with
  | Some (JBool false) => true
  | _ => false
  end.

(** [String(n)] for an integer: its decimal digits, as JavaScript prints
    an integer that a double holds exactly and that is below 10^21 (the
    integers of this protocol and [Date.now()] are far below both
    bounds). *)
Definition String_of_number (n : Z) : string :=
  NilZero.string_of_int (Z.to_int n).

(** All the strings, or [None] when one conversion has thrown. *)
Fixpoint all (l : list (option string)) : option (list string) :=
  match l with
  | [] => Some []
  | Some s :: rest =>
      match all rest with
      | Some ss => Some (s :: ss)
      | None => None
      end
  | None :: _ => None
  end.

(** [String(v)], the conversion a template literal, [new Error(v)] and
    [Array.prototype.join] apply to a value; [None] when it throws a
    [TypeError].  An object that [JSON.parse] made prints as
    [[object Object]] through [Object.prototype.toString], unless it has
    a key [toString] of its own: that value hides the inherited method,
    is not callable, and the conversion throws.  An array prints its
    elements joined by commas. *)
Fixpoint String (v : json) : option string :=
  match v with
  | JNull => Some "null"
  | JBool true => Some "true"
  | JBool false => Some "false"
  | JNum n => Some (String_of_number n)
  | JStr s => Some s
  | JArr items =>
      match all (map (fun x => match x with JNull => Some "" | _ => String x end) items) with
      | Some ss => Some (String.concat "," ss)
      | None => None
      end
  | JObj fields =>
      match own "toString" fields with
      | Some _ => None
      | None => Some "[object Object]"
      end
  end.

(** How [Array.prototype.join] prints one element. *)
Definition join_elem (v : option json) : option string :=
  match v with
  | None => Some ""
  | Some JNull => Some ""
  | Some x => String x
  end.

(** [`${v}`] in a template literal. *)
Definition template (v : option json) : option string :=
  match v with
  | None => Some "undefined"
  | Some x => String x
  end.

End Js.

(** ** An insertion-ordered [Map] with string keys

    [this._pending] is a JavaScript [Map]; [onclose] iterates it, so the
    order of insertion is kept. *)
Module JsMap.
Section WithValue.
Context {V : Type}.

Fixpoint get (id : string) (m : list (string * V)) : option V :=
  match m with
  | [] => None
  | (k, v) :: rest => if String.eqb k id then Some v else get id rest
  end.

Fixpoint set (id : string) (v : V) (m : list (string * V)) : list (string * V) :=
  match m with
  | [] => [(id, v)]
  | (k, v') :: rest =>
      if String.eqb k id then (k, v) :: rest else (k, v') :: set id v rest
  end.

Fixpoint delete (id : string) (m : list (string * V)) : list (string * V) :=
  match m with
  | [] => []
  | (k, v) :: rest =>
      if String.eqb k id then delete id rest else (k, v) :: delete id rest
  end.

Definition keys (m : list (string * V)) : list string := map fst m.

End WithValue.
End JsMap.

(** ** The device-auth payload *)

Record auth_fields := {
  deviceId : string;
  clientId : string;
  clientMode : string;
  role : string;
  scopes : list string;
  signedAtMs : Z;
  token : option string;
  nonce : option json
}.

(** [None] when [parts.join] throws: the nonce is the one part that is not
    a string or a number. *)
Definition buildDeviceAuthPayload (a : auth_fields) : option string :=
  let version := if Js.truthy (nonce a) then "v2" else "v1" in
  let parts :=
    [Some version; Some (deviceId a); Some (clientId a); Some (clientMode a);
     Some (role a); Some (String.concat "," (scopes a));
     Some (Js.String_of_number (signedAtMs a));
     Some (match token a with Some t => t | None => "" end)] in
  let parts :=
    if String.eqb version "v2" then parts ++ [Js.join_elem (nonce a)] else parts in
  match Js.all parts with
  | Some parts => Some (String.concat "|" parts)
  | None => None
  end.

Definition RECONNECT_BASE_MS : Z := 1000.
Definition RECONNECT_MAX_MS : Z := 30000.
Definition CALL_TIMEOUT_MS : Z := 15000.
Definition HANDSHAKE_TIMEOUT_MS : Z := 10000.

(** ** The client and the runtime around it *)

Inductive ready_state := CONNECTING | OPEN | CLOSING | CLOSED.

(** A [WebSocket] made by [_doConnect]: its [readyState], and the
    [handshakeTimer] its handlers close over. *)
Record socket := { readyState : ready_state; handshakeTimer : nat }.

(** The [resolve]/[reject] pair of a pending entry: those of the promise
    [call] returned (promise number [p]), or the logging pair that
    [_sendConnectRequest] installs. *)
Inductive continuation :=
| CallPromise (p : nat)
| ConnectRequest.

(** [{ resolve, reject, timer }]. *)
Record entry := { cont : continuation; timer : nat }.

(** The callbacks handed to [setTimeout]. *)
Inductive timer_cb :=
| CallTimeout (id method : string) (p : nat)
| ConnectTimeout (id : string)
| HandshakeTimeout
| ReconnectTimer.

(** [{ type: "req", id, method, params }]. *)
Record frame := { frame_id : string; frame_method : string; frame_params : json }.

Record js_error := { message : string; code : option json; details : option json }.

Definition Error (msg : string) : js_error :=
  {| message := msg; code := None; details := None |}.

(** What the client does to the outside, in the order it happens. *)
Inductive effect :=
| NewWebSocket (k : nat)
| Close (k : nat)
| Send (k : nat) (f : frame)
| SetTimeout (t : nat) (cb : timer_cb) (delay : Z)
| Emit (name : string) (arg : option json)
| Resolve (id : string) (c : continuation) (payload : option json)
| Reject (id : string) (c : continuation) (err : js_error).

(** The fields of [GatewayClient] under their own names ([None] is their
    [null]), then the runtime: the sockets made so far (a socket's handle
    is its index), the armed timers, the next timer handle and promise
    number, and the trace. *)
Record state := {
  _ws : option nat;
  _connected : bool;
  _handshakeComplete : bool;
  _pending : list (string * entry);
  _reconnectDelay : Z;
  _reconnectTimer : option nat;
  _connectedAt : option Z;
  _serverInfo : option json;
  sockets : list socket;
  timers : gmap nat timer_cb;
  next_timer : nat;
  next_promise : nat;
  trace : list effect
}.

Definition with_ws (v : option nat) (w : state) : state :=
  {| _ws := v; _connected := _connected w;
     _handshakeComplete := _handshakeComplete w; _pending := _pending w;
     _reconnectDelay := _reconnectDelay w; _reconnectTimer := _reconnectTimer w;
     _connectedAt := _connectedAt w; _serverInfo := _serverInfo w;
     sockets := sockets w; timers := timers w; next_timer := next_timer w;
     next_promise := next_promise w; trace := trace w |}.

Definition with_connected (v : bool) (w : state) : state :=
  {| _ws := _ws w; _connected := v; _handshakeComplete := _handshakeComplete w;
     _pending := _pending w; _reconnectDelay := _reconnectDelay w;
     _reconnectTimer := _reconnectTimer w; _connectedAt := _connectedAt w;
     _serverInfo := _serverInfo w; sockets := sockets w; timers := timers w;
     next_timer := next_timer w; next_promise := next_promise w;
     trace := trace w |}.

Definition with_handshakeComplete (v : bool) (w : state) : state :=
  {| _ws := _ws w; _connected := _connected w; _handshakeComplete := v;
     _pending := _pending w; _reconnectDelay := _reconnectDelay w;
     _reconnectTimer := _reconnectTimer w; _connectedAt := _connectedAt w;
     _serverInfo := _serverInfo w; sockets := sockets w; timers := timers w;
     next_timer := next_timer w; next_promise := next_promise w;
     trace := trace w |}.

Definition with_pending (v : list (string * entry)) (w : state) : state :=
  {| _ws := _ws w; _connected := _connected w;
     _handshakeComplete := _handshakeComplete w; _pending := v;
     _reconnectDelay := _reconnectDelay w; _reconnectTimer := _reconnectTimer w;
     _connectedAt := _connectedAt w; _serverInfo := _serverInfo w;
     sockets := sockets w; timers := timers w; next_timer := next_timer w;
     next_promise := next_promise w; trace := trace w |}.

Definition with_reconnectDelay (v : Z) (w : state) : state :=
  {| _ws := _ws w; _connected := _connected w;
     _handshakeComplete := _handshakeComplete w; _pending := _pending w;
     _reconnectDelay := v; _reconnectTimer := _reconnectTimer w;
     _connectedAt := _connectedAt w; _serverInfo := _serverInfo w;
     sockets := sockets w; timers := timers w; next_timer := next_timer w;
     next_promise := next_promise w; trace := trace w |}.

Definition with_reconnectTimer (v : option nat) (w : state) : state :=
  {| _ws := _ws w; _connected := _connected w;
     _handshakeComplete := _handshakeComplete w; _pending := _pending w;
     _reconnectDelay := _reconnectDelay w; _reconnectTimer := v;
     _connectedAt := _connectedAt w; _serverInfo := _serverInfo w;
     sockets := sockets w; timers := timers w; next_timer := next_timer w;
     next_promise := next_promise w; trace := trace w |}.

Definition with_connectedAt (v : option Z) (w : state) : state :=
  {| _ws := _ws w; _connected := _connected w;
     _handshakeComplete := _handshakeComplete w; _pending := _pending w;
     _reconnectDelay := _reconnectDelay w; _reconnectTimer := _reconnectTimer w;
     _connectedAt := v; _serverInfo := _serverInfo w; sockets := sockets w;
     timers := timers w; next_timer := next_timer w;
     next_promise := next_promise w; trace := trace w |}.

Definition with_serverInfo (v : option json) (w : state) : state :=
  {| _ws := _ws w; _connected := _connected w;
     _handshakeComplete := _handshakeComplete w; _pending := _pending w;
     _reconnectDelay := _reconnectDelay w; _reconnectTimer := _reconnectTimer w;
     _connectedAt := _connectedAt w; _serverInfo := v; sockets := sockets w;
     timers := timers w; next_timer := next_timer w;
     next_promise := next_promise w; trace := trace w |}.

Definition with_sockets (v : list socket) (w : state) : state :=
  {| _ws := _ws w; _connected := _connected w;
     _handshakeComplete := _handshakeComplete w; _pending := _pending w;
     _reconnectDelay := _reconnectDelay w; _reconnectTimer := _reconnectTimer w;
     _connectedAt := _connectedAt w; _serverInfo := _serverInfo w; sockets := v;
     timers := timers w; next_timer := next_timer w;
     next_promise := next_promise w; trace := trace w |}.

Definition with_timers (v : gmap nat timer_cb) (w : state) : state :=
  {| _ws := _ws w; _connected := _connected w;
     _handshakeComplete := _handshakeComplete w; _pending := _pending w;
     _reconnectDelay := _reconnectDelay w; _reconnectTimer := _reconnectTimer w;
     _connectedAt := _connectedAt w; _serverInfo := _serverInfo w;
     sockets := sockets w; timers := v; next_timer := next_timer w;
     next_promise := next_promise w; trace := trace w |}.

Definition with_next_timer (v : nat) (w : state) : state :=
  {| _ws := _ws w; _connected := _connected w;
     _handshakeComplete := _handshakeComplete w; _pending := _pending w;
     _reconnectDelay := _reconnectDelay w; _reconnectTimer := _reconnectTimer w;
     _connectedAt := _connectedAt w; _serverInfo := _serverInfo w;
     sockets := sockets w; timers := timers w; next_timer := v;
     next_promise := next_promise w; trace := trace w |}.

Definition with_next_promise (v : nat) (w : state) : state :=
  {| _ws := _ws w; _connected := _connected w;
     _handshakeComplete := _handshakeComplete w; _pending := _pending w;
     _reconnectDelay := _reconnectDelay w; _reconnectTimer := _reconnectTimer w;
     _connectedAt := _connectedAt w; _serverInfo := _serverInfo w;
     sockets := sockets w; timers := timers w; next_timer := next_timer w;
     next_promise := v; trace := trace w |}.

Definition with_trace (v : list effect) (w : state) : state :=
  {| _ws := _ws w; _connected := _connected w;
     _handshakeComplete := _handshakeComplete w; _pending := _pending w;
     _reconnectDelay := _reconnectDelay w; _reconnectTimer := _reconnectTimer w;
     _connectedAt := _connectedAt w; _serverInfo := _serverInfo w;
     sockets := sockets w; timers := timers w; next_timer := next_timer w;
     next_promise := next_promise w; trace := v |}.

(** [new GatewayClient()], before any socket or timer exists. *)
Definition init : state :=
  {| _ws := None; _connected := false; _handshakeComplete := false;
     _pending := []; _reconnectDelay := RECONNECT_BASE_MS;
     _reconnectTimer := None; _connectedAt := None; _serverInfo := None;
     sockets := []; timers := ∅; next_timer := 0; next_promise := 0;
     trace := [] |}.

(** ** Runtime primitives *)

Definition push (e : effect) (w : state) : state :=
  with_trace (trace w ++ [e]) w.

Definition setTimeout (cb : timer_cb) (delay : Z) (w : state) : nat * state :=
  let t := next_timer w in
  (t, push (SetTimeout t cb delay)
        (with_next_timer (S t) (with_timers (<[t:=cb]> (timers w)) w))).

Definition clearTimeout (t : nat) (w : state) : state :=
  with_timers (delete t (timers w)) w.

(** [ws.close()] on socket [k]: a socket that is connecting or open starts
    closing; its close event comes later.  Closing twice does nothing. *)
Definition ws_close (k : nat) (w : state) : state :=
  let w := push (Close k) w in
  match sockets w !! k with
  | Some s =>
      match readyState s with
      | CONNECTING | OPEN =>
          with_sockets
            (<[k:={| readyState := CLOSING; handshakeTimer := handshakeTimer s |}]>
               (sockets w)) w
      | CLOSING | CLOSED => w
      end
  | None => w
  end.

(** [this._ws?.close()]. *)
Definition close_current (w : state) : state :=
  match _ws w with
  | Some k => ws_close k w
  | None => w
  end.

Definition set_readyState (k : nat) (r : ready_state) (w : state) : state :=
  match sockets w !! k with
  | Some s =>
      with_sockets
        (<[k:={| readyState := r; handshakeTimer := handshakeTimer s |}]> (sockets w)) w
  | None => w
  end.

Definition readyState_of (k : nat) (w : state) : option ready_state :=
  readyState <$> (sockets w !! k).

(** ** The methods of [GatewayClient] *)

Definition isConnected (w : state) : bool :=
  _connected w && _handshakeComplete w.

Definition _send (f : frame) (w : state) : state :=
  match _ws w with
  | Some k =>
      match readyState_of k w with
      | Some OPEN => push (Send k f) w
      | _ => w
      end
  | None => w
  end.

Definition _scheduleReconnect (w : state) : state :=
  match _reconnectTimer w with
  | Some _ => w
  | None =>
      let delay := _reconnectDelay w in
      let w := with_reconnectDelay (Z.min (_reconnectDelay w * 2) RECONNECT_MAX_MS) w in
      let '(t, w) := setTimeout ReconnectTimer delay w in
      with_reconnectTimer (Some t) w
  end.

(** [_doConnect]; [ctor_ok] tells whether [new WebSocket(url)] returns
    ([true]) or throws. *)
Definition _doConnect (ctor_ok : bool) (w : state) : state :=
  let w :=
    match _ws w with
    | Some k => with_ws None (ws_close k w)
    | None => w
    end in
  if ctor_ok then
    let k := length (sockets w) in
    let w :=
      with_ws (Some k)
        (push (NewWebSocket k)
           (with_sockets
              (sockets w ++ [{| readyState := CONNECTING; handshakeTimer := next_timer w |}])
              w)) in
    snd (setTimeout HandshakeTimeout HANDSHAKE_TIMEOUT_MS w)
  else _scheduleReconnect w.

Definition connect (ctor_ok : bool) (w : state) : state :=
  _doConnect ctor_ok w.

Definition disconnect (w : state) : state :=
  let w :=
    match _reconnectTimer w with
    | Some t => with_reconnectTimer None (clearTimeout t w)
    | None => w
    end in
  let w :=
    match _ws w with
    | Some k => with_ws None (ws_close k w)
    | None => w
    end in
  with_handshakeComplete false (with_connected false w).

(** What [call] hands back: a promise already rejected, or promise [p]
    waiting in the table. *)
Inductive call_result :=
| Thrown (err : js_error)
| Promise (p : nat).

(** [call(method, params)]; [id] is what [randomUUID()] returns. *)
Definition call (method : string) (params : json) (id : string) (w : state)
  : call_result * state :=
  if negb (isConnected w) then
    (Thrown (Error ("Gateway not connected (calling " +:+ method +:+ ")")), w)
  else
    let p := next_promise w in
    let w := with_next_promise (S p) w in
    let '(t, w) := setTimeout (CallTimeout id method p) CALL_TIMEOUT_MS w in
    let w := with_pending (JsMap.set id {| cont := CallPromise p; timer := t |} (_pending w)) w in
    (Promise p, _send {| frame_id := id; frame_method := method; frame_params := params |} w).

(** The environment variables the module reads. *)
Record config := {
  GATEWAY_TOKEN : string;
  GATEWAY_DEVICE_ID : string;
  GATEWAY_DEVICE_TOKEN : string;
  GATEWAY_DEVICE_PUBKEY : string;
  GATEWAY_DEVICE_PRIVKEY : string
}.

(** The events the runtime and the callers of the client deliver.  An event
    carries what the handler reads from outside while it runs: [uuid] is
    the next result of [randomUUID()], [now] that of [Date.now()], [data]
    the parsed text of a message ([None] when [JSON.parse] throws). *)
Inductive event :=
| ApiConnect (ctor_ok : bool)
| ApiDisconnect
| ApiCall (method : string) (params : json) (uuid : string)
| WsOpen (k : nat)
| WsMessage (k : nat) (data : option json) (uuid : string) (now : Z)
| WsError (k : nat)
| WsClose (k : nat)
| TimerFires (t : nat) (ctor_ok : bool).

(** [this._pending.get(msg.id)]: only a string can be a key of the table. *)
Definition pending_get (id : option json) (w : state) : option (string * entry) :=
  match id with
  | Some (JStr s) =>
      match JsMap.get s (_pending w) with
      | Some e => Some (s, e)
      | None => None
      end
  | _ => None
  end.

(** [clearTimeout(pending.timer); this._pending.delete(msg.id);]. *)
Definition take (id : string) (e : entry) (w : state) : state :=
  with_pending (JsMap.delete id (_pending w)) (clearTimeout (timer e) w).

(** [clearTimeout(handshakeTimer)] inside a handler of socket [k]. *)
Definition clear_handshakeTimer (k : nat) (w : state) : state :=
  match sockets w !! k with
  | Some s => clearTimeout (handshakeTimer s) w
  | None => w
  end.

(** The message of [new Error(msg.error?.message || fallback)]; [None]
    when the constructor throws, converting the message to a string. *)
Definition error_message (msg : option json) (fallback : string) : option string :=
  match Js.prop (Js.prop msg "error") "message" with
  | Some m => if Js.truthy (Some m) then Js.String m else Some fallback
  | None => Some fallback
  end.

(** The line the [hello-ok] branch logs,
    [`[gateway] connected (protocol v${msg.payload.protocol}, server
    ${this._serverInfo?.version || "?"})`]; [None] when a conversion in the
    template throws. *)
Definition connected_log (payload serverInfo : option json) : option string :=
  match Js.template (Js.prop payload "protocol") with
  | Some protocol =>
      let version := Js.prop serverInfo "version" in
      match (if Js.truthy version then Js.template version else Some "?") with
      | Some version =>
          Some ("[gateway] connected (protocol v" +:+ protocol
                +:+ ", server " +:+ version +:+ ")")
      | None => None
      end
  | None => None
  end.

Definition connect_role : string := "operator".
Definition connect_scopes : list string :=
  ["operator.read"; "operator.write"; "operator.admin"].

(** A property whose value is [undefined] is left out by
    [JSON.stringify]. *)
Definition opt_field (name : string) (v : option json) : list (string * json) :=
  match v with
  | Some x => [(name, x)]
  | None => []
  end.

(** [v || undefined]. *)
Definition or_undefined (v : option json) : option json :=
  if Js.truthy v then v else None.

Definition nonempty (s : string) : bool := negb (String.eqb s "").

(** [msg.type === "event" && msg.event === "connect.challenge"]. *)
Definition is_challenge (m : json) : bool :=
  Js.is_str (Js.prop (Some m) "type") "event"
  && Js.is_str (Js.prop (Some m) "event") "connect.challenge".

(** [msg.type === "res"]. *)
Definition is_response (m : json) : bool :=
  Js.is_str (Js.prop (Some m) "type") "res".

Section Client.

Variable cfg : config.

(** [signPayload(privKey, payload)], the ED25519 signature in base64url;
    [None] when [node:crypto] throws. *)
Variable signPayload : string -> string -> option string.

Definition useDeviceAuth : bool :=
  nonempty (GATEWAY_DEVICE_ID cfg) && nonempty (GATEWAY_DEVICE_TOKEN cfg)
  && nonempty (GATEWAY_DEVICE_PRIVKEY cfg).

(** The string [_sendConnectRequest] signs; [None] when
    [buildDeviceAuthPayload] throws. *)
Definition signed_payload (nonce : option json) (now : Z) : option string :=
  buildDeviceAuthPayload
    {| deviceId := GATEWAY_DEVICE_ID cfg; clientId := "gateway-client";
       clientMode := "backend"; role := connect_role; scopes := connect_scopes;
       signedAtMs := now; token := Some (GATEWAY_DEVICE_TOKEN cfg);
       nonce := or_undefined nonce |}.

(** The [device] block of the connect request. *)
Definition device_block (signature : string) (nonce : option json) (now : Z) : json :=
  JObj ([("id", JStr (GATEWAY_DEVICE_ID cfg));
         ("publicKey", JStr (GATEWAY_DEVICE_PUBKEY cfg));
         ("signature", JStr signature);
         ("signedAt", JNum now)]
        ++ opt_field "nonce" (or_undefined nonce)).

(** [connectParams] as it is serialised; [None] when building the
    payload or signing it throws. *)
Definition connectParams (nonce : option json) (now : Z) : option json :=
  let base :=
    [("minProtocol", JNum 3); ("maxProtocol", JNum 3);
     ("client", JObj [("id", JStr "gateway-client");
                      ("displayName", JStr "xavier-monitor");
                      ("version", JStr "1.0.0");
                      ("platform", JStr "node");
                      ("mode", JStr "backend")]);
     ("auth", JObj (opt_field "token"
                      (if useDeviceAuth then Some (JStr (GATEWAY_DEVICE_TOKEN cfg))
                       else if nonempty (GATEWAY_TOKEN cfg)
                            then Some (JStr (GATEWAY_TOKEN cfg)) else None)))] in
  if useDeviceAuth then
    match signed_payload nonce now with
    | Some payload =>
        match signPayload (GATEWAY_DEVICE_PRIVKEY cfg) payload with
        | Some signature =>
            Some (JObj (base ++ [("device", device_block signature nonce now);
                                 ("role", JStr connect_role);
                                 ("scopes", JArr (map JStr connect_scopes))]))
        | None => None
        end
    | None => None
    end
  else Some (JObj base).

Definition _sendConnectRequest (nonce : option json) (id : string) (now : Z)
    (w : state) : state :=
  let '(t, w) := setTimeout (ConnectTimeout id) HANDSHAKE_TIMEOUT_MS w in
  let w := with_pending (JsMap.set id {| cont := ConnectRequest; timer := t |} (_pending w)) w in
  match connectParams nonce now with
  | Some params =>
      _send {| frame_id := id; frame_method := "connect"; frame_params := params |} w
  | None => w
  end.

(** ** The handlers installed on socket [k] *)

Definition onopen (w : state) : state :=
  with_reconnectDelay RECONNECT_BASE_MS (with_connected true w).

(** The body of [onmessage] once the text is parsed into [m].  An
    exception ends the handler where it is thrown, and what the handler
    did before stays done: the log line of the [hello-ok] branch is built
    after the fields are set and before [emit("connected")], and the
    [Error] of a rejection is built after the entry is deleted and its
    timer cleared.  The runtime reports the exception; the runs of the
    model go on after it, those of a process that ends on an uncaught
    exception are their prefixes. *)
Definition route (k : nat) (m : json) (uuid : string) (now : Z) (w : state) : state :=
  let msg := Some m in
  let payload := Js.prop msg "payload" in
  if is_challenge m then
    _sendConnectRequest (Js.prop payload "nonce") uuid now w
  else if is_response m then
    if negb (_handshakeComplete w) && Js.is_str (Js.prop payload "type") "hello-ok" then
      let w := clear_handshakeTimer k w in
      let w := with_handshakeComplete true w in
      let w := with_connectedAt (Some now) w in
      let w := with_serverInfo (or_undefined (Js.prop payload "server")) w in
      match connected_log payload (_serverInfo w) with
      | Some _ =>
          let w := push (Emit "connected" payload) w in
          match pending_get (Js.prop msg "id") w with
          | Some (id, e) => push (Resolve id (cont e) payload) (take id e w)
          | None => w
          end
      | None => w
      end
    else if negb (_handshakeComplete w) && Js.is_false (Js.prop msg "ok") then
      let w := clear_handshakeTimer k w in
      match pending_get (Js.prop msg "id") w with
      | Some (id, e) =>
          let w := take id e w in
          match error_message msg "Handshake failed" with
          | Some text => close_current (push (Reject id (cont e) (Error text)) w)
          | None => w
          end
      | None => close_current w
      end
    else
      match pending_get (Js.prop msg "id") w with
      | Some (id, e) =>
          let w := take id e w in
          if Js.truthy (Js.prop msg "ok") then push (Resolve id (cont e) payload) w
          else
            match error_message msg "RPC error" with
            | Some text =>
                push (Reject id (cont e)
                        {| message := text;
                           code := Js.prop (Js.prop msg "error") "code";
                           details := Js.prop (Js.prop msg "error") "details" |}) w
            | None => w
            end
      | None => w
      end
  else if Js.is_str (Js.prop msg "type") "event" then push (Emit "event" msg) w
  else w.

(** [onmessage]: text that does not parse is dropped ([data = None]);
    on the text [null] the first property access throws. *)
Definition onmessage (k : nat) (data : option json) (uuid : string) (now : Z)
    (w : state) : state :=
  match data with
  | None => w
  | Some JNull => w
  | Some m => route k m uuid now w
  end.

(** The loop of [onclose] over [this._pending]. *)
Definition reject_all (w : state) : state :=
  fold_left
    (fun w (ie : string * entry) =>
       push (Reject (fst ie) (cont (snd ie)) (Error "Gateway connection closed"))
         (clearTimeout (timer (snd ie)) w))
    (_pending w) w.

Definition onclose (k : nat) (w : state) : state :=
  let w := clear_handshakeTimer k w in
  let wasConnected := _handshakeComplete w in
  let w := with_serverInfo None
             (with_connectedAt None
                (with_handshakeComplete false (with_connected false w))) in
  let w := with_pending [] (reject_all w) in
  let w := if wasConnected then push (Emit "disconnected" None) w else w in
  _scheduleReconnect w.

(** ** The timer callbacks *)

Definition fire (cb : timer_cb) (ctor_ok : bool) (w : state) : state :=
  match cb with
  | CallTimeout id method p =>
      push (Reject id (CallPromise p)
              (Error ("Gateway RPC timeout: " +:+ method +:+ " ("
                      +:+ Js.String_of_number CALL_TIMEOUT_MS +:+ "ms)")))
        (with_pending (JsMap.delete id (_pending w)) w)
  | ConnectTimeout id =>
      close_current (with_pending (JsMap.delete id (_pending w)) w)
  | HandshakeTimeout =>
      if negb (_handshakeComplete w) then close_current w else w
  | ReconnectTimer =>
      _doConnect ctor_ok (with_reconnectTimer None w)
  end.

(** ** One event, and a run of events

    The runtime delivers [open] to a connecting socket only, [close] to a
    socket not yet closed, and a timer callback to an armed timer, which
    it disarms first.  Messages are let through while the socket is open
    or closing: a runtime that drops them once [close()] was called shows
    a subset of these runs. *)
Definition step (e : event) (w : state) : state :=
  match e with
  | ApiConnect ctor_ok => connect ctor_ok w
  | ApiDisconnect => disconnect w
  | ApiCall method params uuid => snd (call method params uuid w)
  | WsOpen k =>
      match readyState_of k w with
      | Some CONNECTING => onopen (set_readyState k OPEN w)
      | _ => w
      end
  | WsMessage k data uuid now =>
      match readyState_of k w with
      | Some OPEN | Some CLOSING => onmessage k data uuid now w
      | _ => w
      end
  | WsError _ => w
  | WsClose k =>
      match readyState_of k w with
      | Some CONNECTING | Some OPEN | Some CLOSING =>
          onclose k (set_readyState k CLOSED w)
      | _ => w
      end
  | TimerFires t ctor_ok =>
      match timers w !! t with
      | Some cb => fire cb ctor_ok (clearTimeout t w)
      | None => w
      end
  end.

Definition run (es : list event) (w : state) : state :=
  fold_left (fun w e => step e w) es w.

End Client.

(** ** Notions the statements use *)

(** The identifiers a run draws from [randomUUID()]. *)
Definition uuid_of (e : event) : list string :=
  match e with
  | ApiCall _ _ uuid => [uuid]
  | WsMessage _ _ uuid _ => [uuid]
  | _ => []
  end.

Definition uuids (es : list event) : list string := flat_map uuid_of es.

(** An invocation of a continuation stored (or captured) under [id]. *)
Definition settles (id : string) (e : effect) : bool :=
  match e with
  | Resolve i _ _ => String.eqb i id
  | Reject i _ _ => String.eqb i id
  | _ => false
  end.

(** How many times a continuation of [id] was invoked in a trace. *)
Fixpoint settled (id : string) (tr : list effect) : nat :=
  match tr with
  | [] => 0
  | e :: tr => ((if settles id e then 1 else 0) + settled id tr)%nat
  end.

Definition is_settlement (e : effect) : bool :=
  match e with
  | Resolve _ _ _ | Reject _ _ _ => true
  | _ => false
  end.

(** An effect that settles no entry and registers no call. *)
Definition neutral (e : effect) : bool :=
  match e with
  | Resolve _ _ _ | Reject _ _ _ => false
  | SetTimeout _ (CallTimeout _ _ _) _ => false
  | _ => true
  end.

(** An effect that resolves nothing. *)
Definition silent (e : effect) : bool :=
  match e with
  | Resolve _ _ _ => false
  | _ => true
  end.

(** A resolution is that of the response [m]: under the id of [m], with
    the payload of [m]. *)
Definition answers (m : json) (e : effect) : Prop :=
  match e with
  | Resolve id _ payload =>
      Js.prop (Some m) "id" = Some (JStr id) /\ Js.prop (Some m) "payload" = payload
  | _ => True
  end.

(** [w'] comes after [w]: its trace is that of [w] followed by effects
    that satisfy [P]. *)
Definition extends (P : effect -> Prop) (w w' : state) : Prop :=
  exists l, trace w' = trace w ++ l /\ Forall P l.

(** The delays of the reconnect timers a trace arms, in order. *)
Fixpoint reconnect_delays (tr : list effect) : list Z :=
  match tr with
  | [] => []
  | SetTimeout _ ReconnectTimer d :: tr => d :: reconnect_delays tr
  | _ :: tr => reconnect_delays tr
  end.

(** Doubling from the base, saturating at the cap. *)
Definition backoff (n : nat) : Z :=
  Z.min (RECONNECT_BASE_MS * 2 ^ Z.of_nat n) RECONNECT_MAX_MS.

(** [n] delays, doubling from [d] and saturating at the cap. *)
Fixpoint doubling (d : Z) (n : nat) : list Z :=
  match n with
  | O => []
  | S n => d :: doubling (Z.min (d * 2) RECONNECT_MAX_MS) n
  end.

(** The two ways a connection attempt fails before its socket opens. *)
Inductive failure :=
| CtorThrows
| ClosedBeforeOpen.

Section Attempts.

Variable cfg : config.
Variable signPayload : string -> string -> option string.

(** The attempt of [_doConnect], started by [start], fails. *)
Definition failing (start : bool -> event) (f : failure) (w : state) : state :=
  match f with
  | CtorThrows => step cfg signPayload (start false) w
  | ClosedBeforeOpen =>
      let w := step cfg signPayload (start true) w in
      match _ws w with
      | Some k => step cfg signPayload (WsClose k) w
      | None => w
      end
  end.

(** [connect()] is called and the attempt fails. *)
Definition first_attempt (f : failure) (w : state) : state :=
  failing ApiConnect f w.

(** The pending reconnect timer fires and the attempt it starts fails. *)
Definition next_attempt (f : failure) (w : state) : state :=
  match _reconnectTimer w with
  | Some t => failing (TimerFires t) f w
  | None => w
  end.

Definition next_attempts (fs : list failure) (w : state) : state :=
  fold_left (fun w f => next_attempt f w) fs w.

End Attempts.

(** A [CallTimeout] or [ConnectTimeout]: the timer of a pending entry. *)
Definition entry_timer (cb : timer_cb) : bool :=
  match cb with
  | CallTimeout _ _ _ | ConnectTimeout _ => true
  | HandshakeTimeout | ReconnectTimer => false
  end.

(** What every state of the client satisfies between two events: timer
    handles are below the next one, the reconnect timer the client
    remembers is the one armed reconnect timer, and the handles kept by
    sockets and pending entries belong to timers of their own kind. *)
Record wf (w : state) : Prop := {
  wf_handles : forall t cb, timers w !! t = Some cb -> (t < next_timer w)%nat;
  wf_reconnect_armed :
    forall t, _reconnectTimer w = Some t -> timers w !! t = Some ReconnectTimer;
  wf_reconnect_known :
    forall t, timers w !! t = Some ReconnectTimer -> _reconnectTimer w = Some t;
  wf_sockets :
    forall k s, sockets w !! k = Some s ->
      (handshakeTimer s < next_timer w)%nat /\
      (forall cb, timers w !! handshakeTimer s = Some cb -> cb = HandshakeTimeout);
  wf_pending :
    forall id e, In (id, e) (_pending w) ->
      (timer e < next_timer w)%nat /\
      (forall cb, timers w !! timer e = Some cb -> entry_timer cb = true);
  wf_keys : NoDup (JsMap.keys (_pending w))
}.

(** The pending entry of [id] and its timer, as [call] and
    [_sendConnectRequest] make them. *)
Definition timer_of (id : string) (e : entry) (cb : timer_cb) : Prop :=
  match cont e with
  | CallPromise p => exists method, cb = CallTimeout id method p
  | ConnectRequest => cb = ConnectTimeout id
  end.

(** The [Error] a response with a falsy [ok] is rejected with can be
    built. *)
Definition error_prints (m : json) : bool :=
  match error_message (Some m) "" with
  | Some _ => true
  | None => false
  end.

(** The event is no response whose rejection throws. *)
Definition rejects_cleanly (e : event) : bool :=
  match e with
  | WsMessage _ (Some m) _ _ =>
      negb (is_response m) || Js.truthy (Js.prop (Some m) "ok") || error_prints m
  | _ => true
  end.

(** The table and the timers agree when identifiers are never reused:
    [used] lists the identifiers drawn so far, and [Q] is what is known of
    the number of settlements of a call that has left the table. *)
Record correlated (Q : nat -> Prop) (used : list string) (w : state) : Prop := {
  co_call_timer :
    forall t id method p, timers w !! t = Some (CallTimeout id method p) ->
      JsMap.get id (_pending w) = Some {| cont := CallPromise p; timer := t |};
  co_connect_timer :
    forall t id, timers w !! t = Some (ConnectTimeout id) ->
      JsMap.get id (_pending w) = Some {| cont := ConnectRequest; timer := t |};
  co_pending :
    forall id e, JsMap.get id (_pending w) = Some e ->
      (exists cb, timers w !! timer e = Some cb /\ timer_of id e cb) /\
      settled id (trace w) = 0%nat;
  co_unused :
    forall id, ~ In id used ->
      JsMap.get id (_pending w) = None /\ settled id (trace w) = 0%nat /\
      (forall t method p d, ~ In (SetTimeout t (CallTimeout id method p) d) (trace w));
  co_registered :
    forall t id method p d, In (SetTimeout t (CallTimeout id method p) d) (trace w) ->
      match JsMap.get id (_pending w) with
      | Some e =>
          e = {| cont := CallPromise p; timer := t |}
          /\ timers w !! t = Some (CallTimeout id method p)
      | None => Q (settled id (trace w))
      end
}.

(** The rejection [onclose] hands to an entry of the table. *)
Definition closed_rejection (ie : string * entry) : effect :=
  Reject (fst ie) (cont (snd ie)) (Error "Gateway connection closed").

(** What [onclose] does after the table is cleared. *)
Definition after_close (w : state) : list effect :=
  (if _handshakeComplete w then [Emit "disconnected" None] else [])
  ++ match _reconnectTimer w with
     | Some _ => []
     | None => [SetTimeout (next_timer w) ReconnectTimer (_reconnectDelay w)]
     end.

(** The [readyState] of a socket once [close()] was called on it. *)
Definition closing (r : ready_state) : ready_state :=
  match r with
  | CONNECTING | OPEN => CLOSING
  | CLOSING => CLOSING
  | CLOSED => CLOSED
  end.

Definition close_socket (k : nat) (socks : list socket) : list socket :=
  match socks !! k with
  | Some s =>
      <[k:={| readyState := closing (readyState s); handshakeTimer := handshakeTimer s |}]> socks
  | None => socks
  end.

(** The sockets once [_doConnect] has closed the current one, and the
    effect of that. *)
Definition closed_current (w : state) : list socket :=
  match _ws w with
  | Some k => close_socket k (sockets w)
  | None => sockets w
  end.

Definition closes (w : state) : list effect :=
  match _ws w with
  | Some k => [Close k]
  | None => []
  end.

(** ** Sample inputs *)
Module Sample.

Definition token_cfg : config :=
  {| GATEWAY_TOKEN := "secret"; GATEWAY_DEVICE_ID := ""; GATEWAY_DEVICE_TOKEN := "";
     GATEWAY_DEVICE_PUBKEY := ""; GATEWAY_DEVICE_PRIVKEY := "" |}.

Definition device_cfg : config :=
  {| GATEWAY_TOKEN := "secret"; GATEWAY_DEVICE_ID := "d1"; GATEWAY_DEVICE_TOKEN := "tok";
     GATEWAY_DEVICE_PUBKEY := "pub"; GATEWAY_DEVICE_PRIVKEY := "priv" |}.

(** A stand-in for the signature: it shows the string that is signed. *)
Definition sign (key payload : string) : option string :=
  Some ("sig:" +:+ payload).

Definition challenge (payload : list (string * json)) : json :=
  JObj [("type", JStr "event"); ("event", JStr "connect.challenge");
        ("payload", JObj payload)].

Definition response (id : string) (ok : bool) (payload : list (string * json)) : json :=
  JObj [("type", JStr "res"); ("id", JStr id); ("ok", JBool ok);
        ("payload", JObj payload)].

Definition hello_ok : list (string * json) :=
  [("type", JStr "hello-ok"); ("protocol", JNum 3)].

(** [connect()], the socket opens, the challenge arrives, the gateway
    answers [hello-ok]: the client is ready on socket 0. *)
Definition handshake : list event :=
  [ApiConnect true; WsOpen 0;
   WsMessage 0 (Some (challenge [("nonce", JStr "n1")])) "h" 1000;
   WsMessage 0 (Some (response "h" true hello_ok)) "u1" 2000].

Definition ready : state := run token_cfg sign handshake init.

End Sample.

(** ** [status()] *)

(** What [status()] returns; [now] is [Date.now()]. *)
Record status_report := {
  connected : bool;
  connectedAt : option Z;
  uptime : Z;
  server : option json;
  pendingCalls : nat
}.

Definition status (now : Z) (w : state) : status_report :=
  {| connected := isConnected w;
     connectedAt := _connectedAt w;
     uptime := match _connectedAt w with
               | Some t => if Z.eqb t 0 then 0 else now - t
               | None => 0
               end;
     server := _serverInfo w;
     pendingCalls := length (_pending w) |}.

(** ** Notions the further statements use *)

Definition in_backoff_range (d : Z) : Prop :=
  RECONNECT_BASE_MS <= d <= RECONNECT_MAX_MS.

(** A socket that is connecting or open. *)
Definition live (r : ready_state) : bool :=
  match r with
  | CONNECTING | OPEN => true
  | CLOSING | CLOSED => false
  end.

(** The notifications of the connection lifecycle: [Some true] for
    [emit("connected", ...)], [Some false] for [emit("disconnected")]. *)
Definition lifecycle_event (e : effect) : option bool :=
  match e with
  | Emit name _ =>
      if String.eqb name "connected" then Some true
      else if String.eqb name "disconnected" then Some false
      else None
  | _ => None
  end.

(** Reads the lifecycle notifications of a trace from left to right,
    starting connected ([up = true]) or not: the result is [None] when a
    "disconnected" comes while not connected, and otherwise tells whether
    the last notification was "connected". *)
Fixpoint lifecycle (up : bool) (tr : list effect) : option bool :=
  match tr with
  | [] => Some up
  | e :: tr =>
      match lifecycle_event e with
      | Some true => lifecycle true tr
      | Some false => if up then lifecycle false tr else None
      | None => lifecycle up tr
      end
  end.

(** An effect that is neither a lifecycle notification nor the arming of a
    reconnect timer. *)
Definition plain (e : effect) : bool :=
  match e with
  | SetTimeout _ ReconnectTimer _ => false
  | _ => match lifecycle_event e with Some _ => false | None => true end
  end.

(** The log line of the [hello-ok] response [m] can be built. *)
Definition logs_cleanly (m : json) : bool :=
  let payload := Js.prop (Some m) "payload" in
  match connected_log payload (or_undefined (Js.prop payload "server")) with
  | Some _ => true
  | None => false
  end.

(** The event is no [hello-ok] response whose log line throws. *)
Definition announces_cleanly (e : event) : bool :=
  match e with
  | WsMessage _ (Some m) _ _ =>
      negb (is_response m
            && Js.is_str (Js.prop (Js.prop (Some m) "payload") "type") "hello-ok")
      || logs_cleanly m
  | _ => true
  end.

(** What every state of the client satisfies between two events, beside
    [wf]: the reconnect delay and the delays already scheduled are within
    the backoff range, the current socket exists and every other socket is
    closing or closed, and the flag [_handshakeComplete] goes with a
    [_connectedAt]; in a run whose [hello-ok] responses all log cleanly
    ([strict]), the flag agrees with the lifecycle notifications too. *)
Record steady (strict : bool) (w : state) : Prop := {
  st_delay : in_backoff_range (_reconnectDelay w);
  st_delays : Forall in_backoff_range (reconnect_delays (trace w));
  st_current : forall k, _ws w = Some k -> (k < length (sockets w))%nat;
  st_others :
    forall k s, sockets w !! k = Some s -> _ws w <> Some k -> live (readyState s) = false;
  st_lifecycle :
    strict = true ->
    exists up, lifecycle false (trace w) = Some up
               /\ (_handshakeComplete w = true -> up = true);
  st_connectedAt : _handshakeComplete w = true -> _connectedAt w <> None
}.

(** The settlement a response frame [m] brings to the entry it finds:
    [pending.resolve(msg.payload)] when [msg.ok] is truthy, and otherwise
    [pending.reject(err)] with the message, code and details of
    [msg.error]. *)
Definition response_effect (id : string) (c : continuation) (m : json) : option effect :=
  if Js.truthy (Js.prop (Some m) "ok") then Some (Resolve id c (Js.prop (Some m) "payload"))
  else
    match error_message (Some m) "RPC error" with
    | Some text =>
        Some (Reject id c
                {| message := text;
                   code := Js.prop (Js.prop (Some m) "error") "code";
                   details := Js.prop (Js.prop (Some m) "error") "details" |})
    | None => None
    end.

(** ** What a verifier reads back from a connect request *)

Definition as_string (v : option json) : string :=
  match v with
  | Some (JStr s) => s
  | _ => ""
  end.

Definition as_number (v : option json) : Z :=
  match v with
  | Some (JNum n) => n
  | _ => 0
  end.

Definition as_strings (v : option json) : list string :=
  match v with
  | Some (JArr items) => map (fun x => as_string (Some x)) items
  | _ => []
  end.

(** The fields of the device-auth payload as the connect request
    [params] spells them out: the device id, signing time and nonce of its
    [device] block, the id and mode of its [client] block, its [role] and
    [scopes], and the token of its [auth] block. *)
Definition signed_fields (params : json) : auth_fields :=
  let p := Some params in
  {| deviceId := as_string (Js.prop (Js.prop p "device") "id");
     clientId := as_string (Js.prop (Js.prop p "client") "id");
     clientMode := as_string (Js.prop (Js.prop p "client") "mode");
     role := as_string (Js.prop p "role");
     scopes := as_strings (Js.prop p "scopes");
     signedAtMs := as_number (Js.prop (Js.prop p "device") "signedAt");
     token := Some (as_string (Js.prop (Js.prop p "auth") "token"));
     nonce := Js.prop (Js.prop p "device") "nonce" |}.

(** * Properties *)

(** ** The insertion-ordered map *)
Module JsMapFacts.
Section WithValue.
Context {V : Type}.
Implicit Types (m : list (string * V)) (id : string) (v : V).

Lemma get_set_eq m id v : JsMap.get id (JsMap.set id v m) = Some v.
Proof.
  induction m as [|[k v'] m IH]; cbn.
  - now rewrite String.eqb_refl.
  - destruct (String.eqb k id) eqn:E; cbn; rewrite E; auto.
Qed.

Lemma get_set_ne m id id' v :
  id <> id' -> JsMap.get id' (JsMap.set id v m) = JsMap.get id' m.
Proof.
  intros Hne. induction m as [|[k v'] m IH]; cbn.
  - destruct (String.eqb id id') eqn:E; [apply String.eqb_eq in E; congruence | reflexivity].
  - destruct (String.eqb k id) eqn:E; cbn.
    + apply String.eqb_eq in E. subst k.
      destruct (String.eqb id id') eqn:E'; [apply String.eqb_eq in E'; congruence | reflexivity].
    + now rewrite IH.
Qed.

Lemma get_delete_eq m id : JsMap.get id (JsMap.delete id m) = None.
Proof.
  induction m as [|[k v'] m IH]; cbn; [reflexivity|].
  destruct (String.eqb k id) eqn:E; cbn; [assumption | now rewrite E].
Qed.

Lemma get_delete_ne m id id' :
  id <> id' -> JsMap.get id' (JsMap.delete id m) = JsMap.get id' m.
Proof.
  intros Hne. induction m as [|[k v'] m IH]; cbn; [reflexivity|].
  destruct (String.eqb k id) eqn:E; cbn.
  - apply String.eqb_eq in E. subst k.
    destruct (String.eqb id id') eqn:E'; [apply String.eqb_eq in E'; congruence | assumption].
  - now rewrite IH.
Qed.

Lemma get_In m id v : JsMap.get id m = Some v -> In (id, v) m.
Proof.
  induction m as [|[k v'] m IH]; cbn; [discriminate|].
  destruct (String.eqb k id) eqn:E.
  - apply String.eqb_eq in E. intros [= ->]. left. now subst.
  - intros H. right. auto.
Qed.

Lemma get_None m id : JsMap.get id m = None <-> ~ In id (JsMap.keys m).
Proof.
  induction m as [|[k v'] m IH]; cbn; [tauto|].
  destruct (String.eqb k id) eqn:E.
  - apply String.eqb_eq in E. split; [discriminate | intros H; exfalso; apply H; now left].
  - apply String.eqb_neq in E. rewrite IH. tauto.
Qed.

Lemma In_get m id v :
  NoDup (JsMap.keys m) -> In (id, v) m -> JsMap.get id m = Some v.
Proof.
  induction m as [|[k v'] m IH]; cbn; [tauto|].
  intros Hnd [H|H].
  - injection H as -> ->. now rewrite String.eqb_refl.
  - apply NoDup_cons in Hnd as [Hk Hnd].
    destruct (String.eqb k id) eqn:E; [|now apply IH].
    apply String.eqb_eq in E. subst k. exfalso. apply Hk.
    apply list_elem_of_In. change id with (fst (id, v)). now apply in_map.
Qed.

Lemma In_set m id v id' v' :
  In (id', v') (JsMap.set id v m) -> (id', v') = (id, v) \/ In (id', v') m.
Proof.
  induction m as [|[k w] m IH]; cbn.
  - intros [H|[]]. now left.
  - destruct (String.eqb k id) eqn:E; cbn.
    + apply String.eqb_eq in E. subst k. intros [H|H]; [now left | right; now right].
    + intros [H|H]; [right; now left|]. destruct (IH H); [now left | right; now right].
Qed.

Lemma In_delete m id id' v' :
  In (id', v') (JsMap.delete id m) -> In (id', v') m /\ id' <> id.
Proof.
  induction m as [|[k w] m IH]; cbn; [tauto|].
  destruct (String.eqb k id) eqn:E; cbn.
  - intros H. destruct (IH H). split; [now right | assumption].
  - apply String.eqb_neq in E. intros [H|H].
    + injection H as -> ->. split; [now left | assumption].
    + destruct (IH H). split; [now right | assumption].
Qed.

Lemma keys_set m id v :
  JsMap.keys (JsMap.set id v m)
  = match JsMap.get id m with
    | Some _ => JsMap.keys m
    | None => JsMap.keys m ++ [id]
    end.
Proof.
  induction m as [|[k w] m IH]; cbn; [reflexivity|].
  destruct (String.eqb k id) eqn:E; cbn; [reflexivity|].
  unfold JsMap.keys in IH. rewrite IH. now destruct (JsMap.get id m).
Qed.

Lemma NoDup_keys_set m id v :
  NoDup (JsMap.keys m) -> NoDup (JsMap.keys (JsMap.set id v m)).
Proof.
  intros H. rewrite keys_set. destruct (JsMap.get id m) eqn:E; [assumption|].
  apply get_None in E. apply NoDup_app. repeat split; auto.
  - intros x Hx [->|[]]%list_elem_of_In. apply E. now apply list_elem_of_In.
  - apply NoDup_singleton.
Qed.

Lemma NoDup_keys_delete m id :
  NoDup (JsMap.keys m) -> NoDup (JsMap.keys (JsMap.delete id m)).
Proof.
  induction m as [|[k w] m IH]; cbn; [auto|].
  intros [Hk Hnd]%NoDup_cons. destruct (String.eqb k id); cbn; [auto|].
  apply NoDup_cons. split; [|auto].
  intros Hin%list_elem_of_In. apply Hk. apply list_elem_of_In.
  unfold JsMap.keys in *. apply in_map_iff in Hin as [[k' v'] [Hfst Hin]].
  apply In_delete in Hin as [Hin _]. cbn in Hfst. subst k'.
  change k with (fst (k, v')). now apply in_map.
Qed.

End WithValue.
End JsMapFacts.

(** Reads a field through the setters, and nothing else. *)
Ltac fields :=
  cbn [_ws _connected _handshakeComplete _pending _reconnectDelay _reconnectTimer
       _connectedAt _serverInfo sockets timers next_timer next_promise trace
       with_ws with_connected with_handshakeComplete with_pending with_reconnectDelay
       with_reconnectTimer with_connectedAt with_serverInfo with_sockets with_timers
       with_next_timer with_next_promise with_trace push clearTimeout fst snd].

Tactic Notation "fields" "in" hyp(H) :=
  cbn [_ws _connected _handshakeComplete _pending _reconnectDelay _reconnectTimer
       _connectedAt _serverInfo sockets timers next_timer next_promise trace
       with_ws with_connected with_handshakeComplete with_pending with_reconnectDelay
       with_reconnectTimer with_connectedAt with_serverInfo with_sockets with_timers
       with_next_timer with_next_promise with_trace push clearTimeout fst snd] in H.

(** Two states with the same fields are the same state. *)
Lemma state_ext w w' :
  _ws w = _ws w' -> _connected w = _connected w' ->
  _handshakeComplete w = _handshakeComplete w' -> _pending w = _pending w' ->
  _reconnectDelay w = _reconnectDelay w' -> _reconnectTimer w = _reconnectTimer w' ->
  _connectedAt w = _connectedAt w' -> _serverInfo w = _serverInfo w' ->
  sockets w = sockets w' -> timers w = timers w' -> next_timer w = next_timer w' ->
  next_promise w = next_promise w' -> trace w = trace w' ->
  w = w'.
Proof. destruct w, w'; cbn; intros; subst; reflexivity. Qed.

(** Compares two states field by field. *)
Ltac records := apply state_ext; fields.

(** ** What the primitives change *)

Lemma with_trace_same w : with_trace (trace w) w = w.
Proof. now destruct w. Qed.

(** [_send] writes one frame to the current socket when it is open, and
    touches nothing else. *)
Lemma send_same f w :
  exists l, _send f w = with_trace (trace w ++ l) w
            /\ (l = [] \/ exists k, _ws w = Some k /\ l = [Send k f]).
Proof.
  unfold _send. destruct (_ws w) as [k|].
  - destruct (readyState_of k w) as [[]|];
      try (exists []; rewrite app_nil_r, with_trace_same; split; [reflexivity | now left]).
    exists [Send k f]. split; [reflexivity | right; now exists k].
  - exists []. rewrite app_nil_r, with_trace_same. split; [reflexivity | now left].
Qed.

Lemma ws_close_shape k w :
  ws_close k w = with_sockets (close_socket k (sockets w)) (push (Close k) w).
Proof.
  unfold ws_close, close_socket. fields.
  destruct (sockets w !! k) as [s|] eqn:E.
  - destruct s as [[] hs]; cbn; try reflexivity.
    + rewrite list_insert_id by assumption. now destruct w.
    + rewrite list_insert_id by assumption. now destruct w.
  - now destruct w.
Qed.

Lemma close_socket_length k socks : length (close_socket k socks) = length socks.
Proof. unfold close_socket. destruct (socks !! k); [apply length_insert | reflexivity]. Qed.

Lemma close_socket_lookup k socks j :
  close_socket k socks !! j
  = (fun s => if decide (j = k)
              then {| readyState := closing (readyState s); handshakeTimer := handshakeTimer s |}
              else s) <$> socks !! j.
Proof.
  unfold close_socket. destruct (socks !! k) as [s|] eqn:E.
  - destruct (decide (j = k)) as [->|Hne].
    + rewrite list_lookup_insert_eq by (eapply lookup_lt_Some; eauto). now rewrite E.
    + rewrite list_lookup_insert_ne by congruence. now destruct (socks !! j).
  - destruct (decide (j = k)) as [->|Hne].
    + now rewrite E.
    + now destruct (socks !! j).
Qed.

Lemma closed_current_length w : length (closed_current w) = length (sockets w).
Proof. unfold closed_current. destruct (_ws w); [apply close_socket_length | reflexivity]. Qed.

Lemma doConnect_true_shape w :
  _doConnect true w
  = with_ws (Some (length (sockets w)))
      (with_sockets
         (closed_current w ++ [{| readyState := CONNECTING; handshakeTimer := next_timer w |}])
         (with_timers (<[next_timer w:=HandshakeTimeout]> (timers w))
            (with_next_timer (S (next_timer w))
               (with_trace
                  (trace w ++ closes w
                   ++ [NewWebSocket (length (sockets w));
                       SetTimeout (next_timer w) HandshakeTimeout HANDSHAKE_TIMEOUT_MS])
                  w)))).
Proof.
  unfold _doConnect, closed_current, closes, setTimeout.
  destruct (_ws w) as [k|] eqn:E.
  - rewrite ws_close_shape. records; rewrite ?close_socket_length, <- ?app_assoc; reflexivity.
  - records; rewrite ?app_nil_l, <- ?app_assoc; reflexivity.
Qed.

Lemma scheduleReconnect_shape w :
  _scheduleReconnect w
  = match _reconnectTimer w with
    | Some _ => w
    | None =>
        with_reconnectTimer (Some (next_timer w))
          (with_reconnectDelay (Z.min (_reconnectDelay w * 2) RECONNECT_MAX_MS)
             (with_timers (<[next_timer w:=ReconnectTimer]> (timers w))
                (with_next_timer (S (next_timer w))
                   (with_trace
                      (trace w ++ [SetTimeout (next_timer w) ReconnectTimer (_reconnectDelay w)])
                      w))))
    end.
Proof. unfold _scheduleReconnect, setTimeout. now destruct (_reconnectTimer w). Qed.

Lemma doConnect_false_shape w :
  _doConnect false w
  = _scheduleReconnect
      (with_ws None (with_sockets (closed_current w) (with_trace (trace w ++ closes w) w))).
Proof.
  unfold _doConnect, closed_current, closes.
  destruct (_ws w) as [k|] eqn:E.
  - now rewrite ws_close_shape.
  - rewrite app_nil_r. f_equal. destruct w; cbn in *. now subst.
Qed.

Lemma reconnect_delays_app a b :
  reconnect_delays (a ++ b) = reconnect_delays a ++ reconnect_delays b.
Proof.
  induction a as [|e a IH]; cbn; [reflexivity|].
  destruct e; try assumption. destruct cb; try assumption. cbn. now rewrite IH.
Qed.

Lemma settled_app id a b : settled id (a ++ b) = (settled id a + settled id b)%nat.
Proof. induction a as [|e a IH]; cbn; [reflexivity | rewrite IH; lia]. Qed.

Lemma send_only_trace f w : _send f w = with_trace (trace (_send f w)) w.
Proof.
  destruct (send_same f w) as (l & E & _). rewrite E. now destruct w.
Qed.

Lemma close_current_shape w :
  close_current w
  = match _ws w with
    | Some k => with_sockets (close_socket k (sockets w)) (push (Close k) w)
    | None => w
    end.
Proof. unfold close_current. destruct (_ws w); [apply ws_close_shape | reflexivity]. Qed.

Lemma send_pending f w : _pending (_send f w) = _pending w.
Proof. now rewrite send_only_trace. Qed.

(** ** The device-auth payload (C4, C10) *)

Lemma or_undefined_truthy v n : or_undefined v = Some n -> Js.truthy (Some n) = true.
Proof.
  unfold or_undefined. destruct (Js.truthy v) eqn:E; [|discriminate]. now intros ->.
Qed.

(** C4.  The payload is made of the fields joined by [|], with the scopes
    joined by commas in the given order.  [_sendConnectRequest], the one
    caller, passes [nonce || undefined]: without a nonce the tag is [v1]
    and there are eight fields; with a nonce the tag is [v2] and the
    nonce, converted to a string, is the ninth and last field (no payload
    is built when that conversion throws).  The two payloads of the
    specification are instances. *)
Theorem buildDeviceAuthPayload_wire_format :
  (forall d c m r sc t (token : option string) (v : option json),
     let tok := match token with Some tok => tok | None => "" end in
     let fields (rest : string) :=
       d +:+ "|" +:+ c +:+ "|" +:+ m +:+ "|" +:+ r +:+ "|"
         +:+ String.concat "," sc +:+ "|" +:+ Js.String_of_number t +:+ "|" +:+ rest in
     buildDeviceAuthPayload
       {| deviceId := d; clientId := c; clientMode := m; role := r; scopes := sc;
          signedAtMs := t; token := token; nonce := or_undefined v |}
     = match or_undefined v with
       | None => Some ("v1|" +:+ fields tok)
       | Some n =>
           match Js.String n with
           | Some s => Some ("v2|" +:+ fields (tok +:+ "|" +:+ s))
           | None => None
           end
       end)
  /\ buildDeviceAuthPayload
       {| deviceId := "d1"; clientId := "gateway-client"; clientMode := "backend";
          role := "operator"; scopes := ["a"; "b"]; signedAtMs := 1000;
          token := Some "tok"; nonce := None |}
     = Some "v1|d1|gateway-client|backend|operator|a,b|1000|tok"
  /\ buildDeviceAuthPayload
       {| deviceId := "d1"; clientId := "gateway-client"; clientMode := "backend";
          role := "operator"; scopes := ["a"; "b"]; signedAtMs := 1000;
          token := Some "tok"; nonce := Some (JStr "n1") |}
     = Some "v2|d1|gateway-client|backend|operator|a,b|1000|tok|n1".
Proof.
  split; [| split; reflexivity].
  intros d c m r sc t tok v. cbv zeta. unfold buildDeviceAuthPayload.
  cbn [nonce token deviceId clientId clientMode role scopes signedAtMs].
  destruct (or_undefined v) as [n|] eqn:E.
  - rewrite (or_undefined_truthy v n E). cbn [String.eqb Ascii.eqb Bool.eqb andb app].
    assert (Hj : Js.join_elem (Some n) = Js.String n).
    { apply or_undefined_truthy in E. now destruct n. }
    rewrite Hj. destruct (Js.String n) as [s|]; cbn; reflexivity.
  - cbn. reflexivity.
Qed.



(** ** Transport close (C7) *)

Lemma reject_each_trace (l : list (string * entry)) w :
  let w' :=
    fold_left
      (fun w (ie : string * entry) =>
         push (Reject (fst ie) (cont (snd ie)) (Error "Gateway connection closed"))
           (clearTimeout (timer (snd ie)) w)) l w in
  trace w' = trace w ++ map closed_rejection l
  /\ _pending w' = _pending w /\ _reconnectTimer w' = _reconnectTimer w
  /\ _reconnectDelay w' = _reconnectDelay w /\ next_timer w' = next_timer w
  /\ sockets w' = sockets w /\ _ws w' = _ws w.
Proof.
  revert w. induction l as [|ie l IH]; intros w; cbn.
  - rewrite app_nil_r. tauto.
  - destruct (IH (push (Reject (fst ie) (cont (snd ie)) (Error "Gateway connection closed"))
                    (clearTimeout (timer (snd ie)) w))) as (Ht & Hp & Hr & Hd & Hn & Hs & Hw).
    cbn in *. rewrite Ht, <- app_assoc. tauto.
Qed.

Lemma reject_all_fields w :
  trace (reject_all w) = trace w ++ map closed_rejection (_pending w)
  /\ _pending (reject_all w) = _pending w
  /\ _reconnectTimer (reject_all w) = _reconnectTimer w
  /\ _reconnectDelay (reject_all w) = _reconnectDelay w
  /\ next_timer (reject_all w) = next_timer w
  /\ sockets (reject_all w) = sockets w /\ _ws (reject_all w) = _ws w.
Proof. apply (reject_each_trace (_pending w) w). Qed.

Lemma scheduleReconnect_trace w :
  trace (_scheduleReconnect w)
  = trace w ++ match _reconnectTimer w with
               | Some _ => []
               | None => [SetTimeout (next_timer w) ReconnectTimer (_reconnectDelay w)]
               end.
Proof.
  unfold _scheduleReconnect. destruct (_reconnectTimer w); cbn.
  - now rewrite app_nil_r.
  - reflexivity.
Qed.

Lemma clear_handshakeTimer_fields k w :
  let w' := clear_handshakeTimer k w in
  trace w' = trace w /\ _pending w' = _pending w
  /\ _handshakeComplete w' = _handshakeComplete w
  /\ _reconnectTimer w' = _reconnectTimer w
  /\ _reconnectDelay w' = _reconnectDelay w
  /\ next_timer w' = next_timer w /\ sockets w' = sockets w /\ _ws w' = _ws w.
Proof. unfold clear_handshakeTimer. destruct (sockets w !! k); cbn; tauto. Qed.

Lemma onclose_trace k w :
  trace (onclose k w)
  = trace w ++ map closed_rejection (_pending w) ++ after_close w.
Proof.
  unfold onclose, after_close.
  destruct (clear_handshakeTimer_fields k w) as (Ht & Hp & Hh & Hr & Hd & Hn & _).
  rewrite scheduleReconnect_trace, Hh.
  set (w1 := with_serverInfo _ _).
  destruct (reject_all_fields w1) as (Ht1 & Hp1 & Hr1 & Hd1 & Hn1 & _).
  destruct (_handshakeComplete w); fields;
    rewrite Ht1, Hr1, Hd1, Hn1; unfold w1; fields; rewrite Ht, Hp, Hr, Hd, Hn;
    rewrite <- ?app_assoc; reflexivity.
Qed.

(** C7.  The close handler rejects every entry of the table, in order,
    with the one error "Gateway connection closed", and leaves the table
    empty; what it does afterwards settles nothing.  With an empty table it
    rejects nothing. *)
Theorem onclose_rejects_all_pending k w :
  _pending (onclose k w) = []
  /\ trace (onclose k w)
     = trace w ++ map closed_rejection (_pending w) ++ after_close w
  /\ (forall id e, In (id, e) (_pending w) ->
        In (Reject id (cont e) (Error "Gateway connection closed")) (trace (onclose k w)))
  /\ Forall (fun e => is_settlement e = false) (after_close w)
  /\ (_pending w = [] -> trace (onclose k w) = trace w ++ after_close w).
Proof.
  split; [|split; [|split; [|split]]].
  - unfold onclose, _scheduleReconnect.
    repeat match goal with
           | |- context [match ?x with _ => _ end] => destruct x; cbn
           end; reflexivity.
  - apply onclose_trace.
  - intros id e Hin. rewrite onclose_trace. apply in_or_app. right.
    apply in_or_app. left. apply (in_map closed_rejection) in Hin. exact Hin.
  - unfold after_close.
    destruct (_handshakeComplete w), (_reconnectTimer w); cbn; repeat constructor.
  - intros He. rewrite onclose_trace, He. reflexivity.
Qed.

(** A ready client with one pending call; a fresh client with none. *)
Lemma onclose_rejects_all_pending_witness :
  let w := run Sample.token_cfg Sample.sign
             [ApiCall "sessions.list" (JObj []) "c1"] Sample.ready in
  In (Reject "c1" (cont {| cont := CallPromise 0; timer := 2 |})
        (Error "Gateway connection closed")) (trace (onclose 0 w))
  /\ trace (onclose 0 init) = trace init ++ after_close init.
Proof.
  intros w. split.
  - apply (proj1 (proj2 (proj2 (onclose_rejects_all_pending 0 w)))
             "c1" {| cont := CallPromise 0; timer := 2 |}).
    vm_compute. left. reflexivity.
  - apply (proj2 (proj2 (proj2 (proj2 (onclose_rejects_all_pending 0 init))))).
    reflexivity.
Defined.

(** ** Call deadline (C8) *)

Lemma call_arms_timer method params id w :
  isConnected w = true ->
  let w' := snd (call method params id w) in
  timers w' !! next_timer w = Some (CallTimeout id method (next_promise w))
  /\ JsMap.get id (_pending w')
     = Some {| cont := CallPromise (next_promise w); timer := next_timer w |}
  /\ In (SetTimeout (next_timer w) (CallTimeout id method (next_promise w)) CALL_TIMEOUT_MS)
       (trace w').
Proof.
  intros Hc w'. subst w'. unfold call, setTimeout. rewrite Hc.
  cbn [negb]. fields.
  match goal with |- context [_send ?f ?x] =>
    destruct (send_same f x) as (l & -> & _)
  end.
  fields.
  split; [apply lookup_insert_eq|]. split; [apply JsMapFacts.get_set_eq|].
  apply in_or_app. left. apply in_or_app. right. now left.
Qed.

Lemma call_timer_fires cfg signPayload t id method p ctor_ok w :
  timers w !! t = Some (CallTimeout id method p) ->
  let w' := step cfg signPayload (TimerFires t ctor_ok) w in
  trace w'
  = trace w ++ [Reject id (CallPromise p)
                  (Error ("Gateway RPC timeout: " +:+ method +:+ " (15000ms)"))]
  /\ JsMap.get id (_pending w') = None
  /\ _pending w' = JsMap.delete id (_pending w)
  /\ (forall id', id' <> id ->
        JsMap.get id' (_pending w') = JsMap.get id' (_pending w))
  /\ timers w' !! t = None
  /\ (forall t', t' <> t -> timers w' !! t' = timers w !! t')
  /\ sockets w' = sockets w /\ _ws w' = _ws w
  /\ isConnected w' = isConnected w.
Proof.
  intros Ht w'. subst w'. unfold step. rewrite Ht.
  unfold fire, isConnected. fields.
  repeat split.
  - apply JsMapFacts.get_delete_eq.
  - intros id' Hne. apply JsMapFacts.get_delete_ne. congruence.
  - apply lookup_delete_eq.
  - intros t' Hne. apply lookup_delete_ne. congruence.
Qed.

(** C8.  [call] arms a timer of [CALL_TIMEOUT_MS] for the entry it stores.
    When that timer fires, the one effect is the rejection of the call's
    promise with "Gateway RPC timeout: <method> (15000ms)"; the id is gone
    from the table, every other entry is as it was, in the same order, and
    every other timer stays armed. *)
Theorem call_timeout_rejects_only_that_call cfg signPayload :
  (forall method params id w,
      isConnected w = true ->
      let w' := snd (call method params id w) in
      timers w' !! next_timer w = Some (CallTimeout id method (next_promise w))
      /\ JsMap.get id (_pending w')
         = Some {| cont := CallPromise (next_promise w); timer := next_timer w |}
      /\ In (SetTimeout (next_timer w) (CallTimeout id method (next_promise w)) 15000)
           (trace w'))
  /\ (forall t id method p ctor_ok w,
        timers w !! t = Some (CallTimeout id method p) ->
        let w' := step cfg signPayload (TimerFires t ctor_ok) w in
        trace w'
        = trace w ++ [Reject id (CallPromise p)
                        (Error ("Gateway RPC timeout: " +:+ method +:+ " (15000ms)"))]
        /\ JsMap.get id (_pending w') = None
        /\ _pending w' = JsMap.delete id (_pending w)
        /\ (forall id', id' <> id ->
              JsMap.get id' (_pending w') = JsMap.get id' (_pending w))
        /\ timers w' !! t = None
        /\ (forall t', t' <> t -> timers w' !! t' = timers w !! t')
        /\ sockets w' = sockets w /\ _ws w' = _ws w
        /\ isConnected w' = isConnected w).
Proof.
  split.
  - apply call_arms_timer.
  - apply call_timer_fires.
Qed.

(** Two calls are pending on a ready client; the timer of the first
    fires. *)
Lemma call_timeout_rejects_only_that_call_witness :
  let w := run Sample.token_cfg Sample.sign
             [ApiCall "sessions.list" (JObj []) "c1"; ApiCall "config.get" (JObj []) "c2"]
             Sample.ready in
  let w' := step Sample.token_cfg Sample.sign (TimerFires 2 true) w in
  trace w'
  = trace w ++ [Reject "c1" (CallPromise 0)
                  (Error ("Gateway RPC timeout: " +:+ "sessions.list" +:+ " (15000ms)"))]
  /\ JsMap.get "c1" (_pending w') = None
  /\ _pending w' = JsMap.delete "c1" (_pending w)
  /\ (forall id', id' <> "c1" ->
        JsMap.get id' (_pending w') = JsMap.get id' (_pending w))
  /\ timers w' !! 2%nat = None
  /\ (forall t', t' <> 2%nat -> timers w' !! t' = timers w !! t')
  /\ sockets w' = sockets w /\ _ws w' = _ws w
  /\ isConnected w' = isConnected w.
Proof.
  intros w.
  apply (proj2 (call_timeout_rejects_only_that_call Sample.token_cfg Sample.sign)
           2%nat "c1" "sessions.list" 0%nat true w).
  vm_compute. reflexivity.
Defined.

(** ** Reconnect backoff (C3) *)

Lemma reconnect_delays_rejections l : reconnect_delays (map closed_rejection l) = [].
Proof. induction l; cbn; auto. Qed.

Lemma reconnect_delays_closes w : reconnect_delays (closes w) = [].
Proof. unfold closes. now destruct (_ws w). Qed.

(** The state in which [onclose] calls [_scheduleReconnect]. *)
Lemma onclose_reconnect k w :
  _reconnectTimer w = None ->
  _reconnectTimer (onclose k w) = Some (next_timer w)
  /\ timers (onclose k w) !! next_timer w = Some ReconnectTimer
  /\ _reconnectDelay (onclose k w) = Z.min (_reconnectDelay w * 2) RECONNECT_MAX_MS
  /\ next_timer (onclose k w) = S (next_timer w).
Proof.
  intros Hnone. unfold onclose.
  destruct (clear_handshakeTimer_fields k w) as (Ht & Hp & Hh & Hr & Hd & Hn & _).
  set (w1 := with_serverInfo _ _).
  destruct (reject_all_fields w1) as (Ht1 & Hp1 & Hr1 & Hd1 & Hn1 & _).
  rewrite scheduleReconnect_shape.
  destruct (_handshakeComplete (clear_handshakeTimer k w)); fields;
    rewrite Hr1, ?Hd1, ?Hn1; unfold w1; fields; rewrite Hr, ?Hd, ?Hn, Hnone; fields;
    (repeat split; [apply lookup_insert_eq]).
Qed.

Lemma onclose_reconnect_pending k w t :
  _reconnectTimer w = Some t ->
  _reconnectTimer (onclose k w) = Some t
  /\ _reconnectDelay (onclose k w) = _reconnectDelay w
  /\ next_timer (onclose k w) = next_timer w.
Proof.
  intros Hsome. unfold onclose.
  destruct (clear_handshakeTimer_fields k w) as (Ht & Hp & Hh & Hr & Hd & Hn & _).
  set (w1 := with_serverInfo _ _).
  destruct (reject_all_fields w1) as (Ht1 & Hp1 & Hr1 & Hd1 & Hn1 & _).
  assert (Hw1 : _reconnectTimer w1 = Some t /\ _reconnectDelay w1 = _reconnectDelay w
                /\ next_timer w1 = next_timer w).
  { unfold w1. fields. now rewrite Hr, Hd, Hn. }
  destruct Hw1 as (Hr' & Hd' & Hn').
  rewrite scheduleReconnect_shape.
  destruct (_handshakeComplete (clear_handshakeTimer k w)); fields;
    rewrite Hr1, Hr'; fields; rewrite Hr1, Hd1, Hn1, Hr', Hd', Hn'; auto.
Qed.

Lemma set_readyState_fields k r w :
  let w' := set_readyState k r w in
  trace w' = trace w /\ _pending w' = _pending w
  /\ _handshakeComplete w' = _handshakeComplete w
  /\ _reconnectTimer w' = _reconnectTimer w
  /\ _reconnectDelay w' = _reconnectDelay w
  /\ next_timer w' = next_timer w /\ timers w' = timers w /\ _ws w' = _ws w
  /\ _connected w' = _connected w.
Proof. unfold set_readyState. destruct (sockets w !! k); cbn; tauto. Qed.

Section Backoff.

Variable cfg : config.
Variable signPayload : string -> string -> option string.

(** An attempt that fails before its socket opens arms the reconnect
    timer with the current delay and doubles the delay up to the cap. *)
Lemma failing_arms_reconnect start f w w0 :
  (forall ok, step cfg signPayload (start ok) w = _doConnect ok w0) ->
  _reconnectTimer w0 = None ->
  let w' := failing cfg signPayload start f w in
  reconnect_delays (trace w') = reconnect_delays (trace w0) ++ [_reconnectDelay w0]
  /\ _reconnectDelay w' = Z.min (_reconnectDelay w0 * 2) RECONNECT_MAX_MS
  /\ exists t, _reconnectTimer w' = Some t /\ timers w' !! t = Some ReconnectTimer.
Proof.
  intros Hstart Hnone. unfold failing. destruct f; rewrite Hstart.
  - rewrite doConnect_false_shape, scheduleReconnect_shape. fields. rewrite Hnone. fields.
    rewrite !reconnect_delays_app, reconnect_delays_closes, app_nil_r.
    repeat split. exists (next_timer w0). split; [reflexivity | apply lookup_insert_eq].
  - rewrite doConnect_true_shape. fields. unfold step, readyState_of. fields.
    rewrite list_lookup_middle by (symmetry; apply closed_current_length).
    cbn [fmap option_fmap option_map readyState].
    match goal with |- context [onclose ?k ?x] =>
      destruct (set_readyState_fields (length (sockets w0)) CLOSED
                  (with_ws (Some (length (sockets w0)))
                     (with_sockets (closed_current w0 ++
                         [{| readyState := CONNECTING; handshakeTimer := next_timer w0 |}])
                        (with_timers (<[next_timer w0:=HandshakeTimeout]> (timers w0))
                           (with_next_timer (S (next_timer w0))
                              (with_trace
                                 (trace w0 ++ closes w0 ++
                                  [NewWebSocket (length (sockets w0));
                                   SetTimeout (next_timer w0) HandshakeTimeout
                                     HANDSHAKE_TIMEOUT_MS]) w0))))))
        as (Ht & Hp & Hh & Hr & Hd & Hn & Htm & Hw & Hc);
      fields in Ht; fields in Hr; fields in Hd; fields in Hn;
      destruct (onclose_reconnect k x) as (R1 & R2 & R3 & R4);
        [rewrite Hr; exact Hnone|]
    end.
    rewrite onclose_trace. unfold after_close. rewrite Hr, Hnone, Ht, Hd, Hn.
    rewrite !reconnect_delays_app, reconnect_delays_rejections, reconnect_delays_closes.
    split.
    { destruct (_handshakeComplete _); cbn; now rewrite ?app_nil_r. }
    split; [now rewrite R3, Hd|].
    eexists. split; [exact R1 | exact R2].
Qed.

End Backoff.

Lemma backoff_S n : Z.min (backoff n * 2) RECONNECT_MAX_MS = backoff (S n).
Proof.
  unfold backoff, RECONNECT_BASE_MS, RECONNECT_MAX_MS.
  rewrite Nat2Z.inj_succ, Z.pow_succ_r by lia.
  assert (0 < 2 ^ Z.of_nat n) by (apply Z.pow_pos_nonneg; lia). lia.
Qed.

Lemma close_current_reconnectDelay w : _reconnectDelay (close_current w) = _reconnectDelay w.
Proof. rewrite close_current_shape. now destruct (_ws w). Qed.

Lemma send_reconnectDelay f w : _reconnectDelay (_send f w) = _reconnectDelay w.
Proof. now rewrite send_only_trace. Qed.

Lemma clear_handshakeTimer_reconnectDelay k w :
  _reconnectDelay (clear_handshakeTimer k w) = _reconnectDelay w.
Proof. apply (clear_handshakeTimer_fields k w). Qed.

(** No message changes the reconnect delay. *)
Lemma onmessage_reconnectDelay cfg signPayload k data uuid now w :
  _reconnectDelay (onmessage cfg signPayload k data uuid now w) = _reconnectDelay w.
Proof.
  assert (Hroute : forall m,
             _reconnectDelay (route cfg signPayload k m uuid now w) = _reconnectDelay w).
  { intros m. unfold route. cbv zeta.
    destruct (is_challenge m).
    { unfold _sendConnectRequest, setTimeout. cbv beta iota zeta.
      destruct (connectParams _ _ _ _); rewrite ?send_reconnectDelay; reflexivity. }
    destruct (is_response m).
    - destruct (negb (_handshakeComplete w) && _).
      + destruct (connected_log _ _);
          [destruct (pending_get _ _) as [[id e]|]|]; unfold take; fields;
          apply clear_handshakeTimer_reconnectDelay.
      + destruct (negb (_handshakeComplete w) && _).
        * destruct (pending_get _ _) as [[id e]|]; [destruct (error_message _ _)|];
            rewrite ?close_current_reconnectDelay; unfold take; fields;
            apply clear_handshakeTimer_reconnectDelay.
        * destruct (pending_get _ _) as [[id e]|]; [|reflexivity].
          cbv zeta. destruct (Js.truthy _); [reflexivity|].
          destruct (error_message _ _); reflexivity.
    - destruct (Js.is_str _ _); reflexivity. }
  unfold onmessage. destruct data as [[]|]; auto.
Qed.

Lemma doubling_backoff n : forall k, doubling (backoff k) n = map backoff (seq k n).
Proof.
  induction n as [|n IH]; intros k; [reflexivity|].
  cbn [doubling seq map]. now rewrite backoff_S, IH.
Qed.

Lemma doubling_bound n : forall d,
  d <= RECONNECT_MAX_MS -> Forall (fun x => x <= RECONNECT_MAX_MS) (doubling d n).
Proof.
  induction n as [|n IH]; intros d Hd; cbn [doubling]; constructor; [assumption|].
  apply IH. lia.
Qed.

(** The close of a socket that is not yet closed, with no reconnect timer
    armed, arms one with the current delay and doubles the delay. *)
Lemma close_arms_reconnect cfg signPayload k r w :
  readyState_of k w = Some r -> r <> CLOSED -> _reconnectTimer w = None ->
  let w' := step cfg signPayload (WsClose k) w in
  reconnect_delays (trace w') = reconnect_delays (trace w) ++ [_reconnectDelay w]
  /\ _reconnectDelay w' = Z.min (_reconnectDelay w * 2) RECONNECT_MAX_MS
  /\ exists t, _reconnectTimer w' = Some t /\ timers w' !! t = Some ReconnectTimer.
Proof.
  intros Hr Hne Hnone w'.
  assert (E : w' = onclose k (set_readyState k CLOSED w))
    by (subst w'; cbn [step]; rewrite Hr; now destruct r).
  rewrite E. clear E w'.
  destruct (set_readyState_fields k CLOSED w) as (Ht & Hp & Hh & Hrt & Hd & Hn & _).
  destruct (onclose_reconnect k (set_readyState k CLOSED w)) as (R1 & R2 & R3 & _);
    [now rewrite Hrt|].
  rewrite onclose_trace. unfold after_close. rewrite Hrt, Hnone, Ht, Hd.
  rewrite !reconnect_delays_app, reconnect_delays_rejections.
  split; [destruct (_handshakeComplete _); cbn; now rewrite ?app_nil_r|].
  split; [now rewrite R3, Hd|]. eexists. split; [exact R1 | exact R2].
Qed.

Section BackoffRuns.

Variable cfg : config.
Variable signPayload : string -> string -> option string.

Lemma next_attempts_doubling fs : forall w,
  (exists t, _reconnectTimer w = Some t /\ timers w !! t = Some ReconnectTimer) ->
  reconnect_delays (trace (next_attempts cfg signPayload fs w))
  = reconnect_delays (trace w) ++ doubling (_reconnectDelay w) (length fs).
Proof.
  induction fs as [|f fs IH]; intros w (t & Ht & Harmed).
  - cbn. now rewrite app_nil_r.
  - change (next_attempts cfg signPayload (f :: fs) w)
      with (next_attempts cfg signPayload fs (next_attempt cfg signPayload f w)).
    destruct (failing_arms_reconnect cfg signPayload (TimerFires t) f w
                (with_reconnectTimer None (clearTimeout t w))) as (D & R & A).
    { intros ok. unfold step. now rewrite Harmed. }
    { reflexivity. }
    fields in D. fields in R.
    assert (E : next_attempt cfg signPayload f w
                = failing cfg signPayload (TimerFires t) f w)
      by (unfold next_attempt; now rewrite Ht).
    rewrite E, (IH _ A), D, R, <- app_assoc. reflexivity.
Qed.

(** C3, as amended.  [_scheduleReconnect] arms a reconnect timer with
    the delay the client keeps, and the delay kept then doubles, up to
    30000 ms; it does nothing while a reconnect timer is pending.  So a
    run of attempts that fail before their socket opens (the constructor
    throws, or the socket closes while connecting) arms the delays [d],
    [2d], [4d], ... capped at 30000 ms, where [d] is the delay kept when
    the run begins, and so does such a run counted from the close of a
    socket.  [d] is 1000 ms for a new client and after a socket has
    opened, which gives 1000, 2000, 4000, 8000, 16000, 30000, 30000, ...
    The delay is set back to 1000 ms by the open handler of the socket,
    whatever the state of the handshake, and no message, [hello-ok]
    included, changes it. *)
Theorem reconnect_backoff_and_reset :
  (forall w,
      match _reconnectTimer w with
      | None =>
          reconnect_delays (trace (_scheduleReconnect w))
          = reconnect_delays (trace w) ++ [_reconnectDelay w]
          /\ _reconnectDelay (_scheduleReconnect w)
             = Z.min (_reconnectDelay w * 2) RECONNECT_MAX_MS
      | Some _ => _scheduleReconnect w = w
      end)
  /\ (forall w fs,
      (exists t, _reconnectTimer w = Some t /\ timers w !! t = Some ReconnectTimer) ->
      reconnect_delays (trace (next_attempts cfg signPayload fs w))
      = reconnect_delays (trace w) ++ doubling (_reconnectDelay w) (length fs))
  /\ (forall k r w fs,
        readyState_of k w = Some r -> r <> CLOSED -> _reconnectTimer w = None ->
        reconnect_delays
          (trace (next_attempts cfg signPayload fs (step cfg signPayload (WsClose k) w)))
        = reconnect_delays (trace w) ++ doubling (_reconnectDelay w) (S (length fs)))
  /\ (forall f fs,
        reconnect_delays
          (trace (next_attempts cfg signPayload fs (first_attempt cfg signPayload f init)))
        = doubling RECONNECT_BASE_MS (S (length fs)))
  /\ (forall n, doubling RECONNECT_BASE_MS n = map backoff (seq 0 n))
  /\ map backoff (seq 0 8) = [1000; 2000; 4000; 8000; 16000; 30000; 30000; 30000]
  /\ (forall d n,
        d <= RECONNECT_MAX_MS -> Forall (fun x => x <= RECONNECT_MAX_MS) (doubling d n))
  /\ (forall k w,
        readyState_of k w = Some CONNECTING ->
        let w' := step cfg signPayload (WsOpen k) w in
        _reconnectDelay w' = RECONNECT_BASE_MS
        /\ _handshakeComplete w' = _handshakeComplete w)
  /\ (forall k data uuid now w,
        _reconnectDelay (onmessage cfg signPayload k data uuid now w) = _reconnectDelay w).
Proof.
  split; [|split; [|split; [|split; [|split; [|split; [|split; [|split]]]]]]].
  - intros w. rewrite scheduleReconnect_shape.
    destruct (_reconnectTimer w); [reflexivity|]. fields.
    rewrite reconnect_delays_app. split; reflexivity.
  - intros w fs. apply next_attempts_doubling.
  - intros k r w fs Hr Hne Hnone.
    destruct (close_arms_reconnect cfg signPayload k r w Hr Hne Hnone) as (D & R & A).
    rewrite (next_attempts_doubling fs _ A), D, R, <- app_assoc. reflexivity.
  - intros f fs.
    destruct (failing_arms_reconnect cfg signPayload ApiConnect f init init) as (D & R & A);
      [reflexivity | reflexivity |].
    fold (first_attempt cfg signPayload f init) in D, R, A.
    rewrite (next_attempts_doubling fs _ A), D, R. reflexivity.
  - intros n. apply (doubling_backoff n 0%nat).
  - reflexivity.
  - intros d n. apply doubling_bound.
  - intros k w Hk w'. subst w'. unfold step. rewrite Hk. unfold onopen. fields.
    split; [reflexivity|]. apply (set_readyState_fields k OPEN w).
  - apply onmessage_reconnectDelay.
Qed.

End BackoffRuns.

(** The socket of a first attempt opens and then closes: the close and
    the three attempts after it, which fail, arm 1000, 2000, 4000 and
    8000 ms. *)
Lemma reconnect_backoff_and_reset_witness :
  let w := run Sample.token_cfg Sample.sign [ApiConnect true; WsOpen 0] init in
  reconnect_delays
    (trace (next_attempts Sample.token_cfg Sample.sign
              [CtorThrows; ClosedBeforeOpen; CtorThrows]
              (step Sample.token_cfg Sample.sign (WsClose 0) w)))
  = reconnect_delays (trace w) ++ doubling (_reconnectDelay w) 4.
Proof.
  intros w.
  apply (proj1 (proj2 (proj2 (reconnect_backoff_and_reset Sample.token_cfg Sample.sign)))
           0%nat OPEN w [CtorThrows; ClosedBeforeOpen; CtorThrows]);
    [vm_compute; reflexivity | discriminate | vm_compute; reflexivity].
Defined.

(** Two attempts in a row fail after their socket opened and before any
    handshake: the open handler has put the delay back to 1000 ms although
    the client was never ready, and both reconnects are armed with
    1000 ms. *)
Lemma backoff_resets_before_ready :
  let run := run Sample.token_cfg Sample.sign in
  let w := run [ApiConnect true; WsClose 0; TimerFires 1 true] init in
  _reconnectDelay w = 2000
  /\ _reconnectDelay (run [WsOpen 1] w) = 1000
  /\ isConnected (run [WsOpen 1] w) = false
  /\ reconnect_delays
       (trace (run [ApiConnect true; WsOpen 0; WsClose 0;
                    TimerFires 1 true; WsOpen 1; WsClose 1;
                    TimerFires 3 true; WsOpen 2; WsClose 2] init))
     = [1000; 1000; 1000]
  /\ [1000; 1000; 1000] <> map backoff (seq 0 3)
  /\ forallb (fun n =>
        negb (_handshakeComplete
                (run (firstn n [ApiConnect true; WsOpen 0; WsClose 0;
                                TimerFires 1 true; WsOpen 1; WsClose 1;
                                TimerFires 3 true; WsOpen 2; WsClose 2]) init)))
       (seq 0 10) = true.
Proof. vm_compute. repeat split; discriminate. Qed.

(** ** [connect()] (C6) *)

(** C6, as amended.  [connect()] starts a new attempt each time: the
    current socket, if there is one, is told to close, and a socket made
    on the spot becomes the current one, with its own handshake timer.
    [connect()] itself leaves the flags and the table of pending calls as
    they are. *)
Theorem connect_opens_a_new_socket w :
  let w' := connect true w in
  _ws w' = Some (length (sockets w))
  /\ readyState_of (length (sockets w)) w' = Some CONNECTING
  /\ sockets w !! length (sockets w) = None
  /\ trace w'
     = trace w ++ closes w
       ++ [NewWebSocket (length (sockets w));
           SetTimeout (next_timer w) HandshakeTimeout HANDSHAKE_TIMEOUT_MS]
  /\ (forall k r, _ws w = Some k -> readyState_of k w = Some r ->
        readyState_of k w' = Some (closing r))
  /\ _connected w' = _connected w
  /\ _handshakeComplete w' = _handshakeComplete w
  /\ _pending w' = _pending w.
Proof.
  intros w'. subst w'. unfold connect. rewrite doConnect_true_shape.
  unfold readyState_of. fields.
  split; [reflexivity|]. split.
  { rewrite list_lookup_middle by (symmetry; apply closed_current_length). reflexivity. }
  split; [apply lookup_ge_None; lia|].
  split; [reflexivity|]. split; [|auto].
  intros k r Hk Hr. unfold closed_current. rewrite Hk.
  destruct (sockets w !! k) as [s|] eqn:E; [|discriminate]. cbn in Hr. injection Hr as <-.
  rewrite lookup_app_l by (rewrite close_socket_length; eapply lookup_lt_Some; eauto).
  rewrite close_socket_lookup, E. cbn. now rewrite decide_True.
Qed.

Lemma connect_opens_a_new_socket_witness :
  readyState_of 0 (connect true Sample.ready) = Some (closing OPEN).
Proof.
  apply (proj1 (proj2 (proj2 (proj2 (proj2 (connect_opens_a_new_socket Sample.ready)))))
           0%nat OPEN); reflexivity.
Defined.

(** [connect()] on a client that is ready replaces socket 0, which is
    open, by a new socket 1 and starts closing socket 0; when the close
    event of socket 0 arrives, the call that was pending is rejected. *)
Lemma connect_while_ready_is_not_a_noop :
  let run := run Sample.token_cfg Sample.sign in
  let w := run [ApiCall "sessions.list" (JObj []) "c1"] Sample.ready in
  isConnected w = true
  /\ _ws w = Some 0%nat /\ readyState_of 0 w = Some OPEN
  /\ _ws (connect true w) = Some 1%nat
  /\ readyState_of 0 (connect true w) = Some CLOSING
  /\ connect true w <> w
  /\ JsMap.get "c1" (_pending w) = Some {| cont := CallPromise 0; timer := 2 |}
  /\ _pending (run [ApiConnect true; WsClose 0] w) = []
  /\ In (Reject "c1" (CallPromise 0) (Error "Gateway connection closed"))
       (trace (run [ApiConnect true; WsClose 0] w)).
Proof.
  vm_compute. repeat split; try discriminate. right. tauto.
Qed.

(** ** Registration in the table (C9) *)

(** C9, as amended.  Neither insertion checks whether the id is in the
    table.  [call] on a ready client returns a new promise and
    [_sendConnectRequest] returns normally; afterwards the entry under the
    id is the new one, whatever was there, and the entries under other ids
    are as before. *)
Theorem registration_overwrites cfg signPayload :
  (forall method params id w,
      isConnected w = true ->
      let r := call method params id w in
      fst r = Promise (next_promise w)
      /\ JsMap.get id (_pending (snd r))
         = Some {| cont := CallPromise (next_promise w); timer := next_timer w |}
      /\ (forall id', id' <> id ->
            JsMap.get id' (_pending (snd r)) = JsMap.get id' (_pending w)))
  /\ (forall nonce id now w,
        let w' := _sendConnectRequest cfg signPayload nonce id now w in
        JsMap.get id (_pending w')
        = Some {| cont := ConnectRequest; timer := next_timer w |}
        /\ (forall id', id' <> id ->
              JsMap.get id' (_pending w') = JsMap.get id' (_pending w))).
Proof.
  split.
  - intros method params id w Hc r. subst r. unfold call, setTimeout. rewrite Hc.
    cbn [negb]. fields. rewrite send_pending. fields.
    split; [reflexivity|]. split; [apply JsMapFacts.get_set_eq|].
    intros id' Hne. apply JsMapFacts.get_set_ne. congruence.
  - intros nonce id now w w'. subst w'. unfold _sendConnectRequest, setTimeout. fields.
    destruct (connectParams cfg signPayload nonce now);
      rewrite ?send_pending; fields;
      (split; [apply JsMapFacts.get_set_eq|]);
      intros id' Hne; apply JsMapFacts.get_set_ne; congruence.
Qed.

Lemma registration_overwrites_witness :
  fst (call "sessions.list" (JObj []) "c1" Sample.ready) = Promise 0.
Proof.
  apply (proj1 (registration_overwrites Sample.token_cfg Sample.sign)
           "sessions.list" (JObj []) "c1" Sample.ready).
  reflexivity.
Defined.

(** Two calls draw the same id.  The second does not fail: it returns
    promise 1, and the entry of promise 0 is replaced; a response for the
    id then resolves promise 1 only. *)
Lemma second_registration_replaces_the_first :
  let w1 := snd (call "sessions.list" (JObj []) "dup" Sample.ready) in
  let r2 := call "config.get" (JObj []) "dup" w1 in
  JsMap.get "dup" (_pending w1) = Some {| cont := CallPromise 0; timer := 2 |}
  /\ fst r2 = Promise 1
  /\ JsMap.get "dup" (_pending (snd r2)) = Some {| cont := CallPromise 1; timer := 3 |}
  /\ _pending (snd r2) = [("dup", {| cont := CallPromise 1; timer := 3 |})]
  /\ trace (step Sample.token_cfg Sample.sign
              (WsMessage 0 (Some (Sample.response "dup" true [])) "u2" 3000) (snd r2))
     = trace (snd r2) ++ [Resolve "dup" (CallPromise 1) (Some (JObj []))].
Proof. vm_compute. repeat split. Qed.

(** ** [disconnect()] (C2) *)

(** C2, where the code departs from it.  [disconnect()] on a ready client
    leaves no reconnect timer, tells socket 0 to close, forgets it and
    clears both flags.  The close event of socket 0 then runs [onclose],
    which arms a reconnect timer of 1000 ms; when that timer fires,
    socket 1 is opened.  No [connect()] was called in between. *)
Theorem disconnect_then_close_event_reconnects :
  let run := run Sample.token_cfg Sample.sign in
  let w := run [ApiDisconnect] Sample.ready in
  (_ws w = None /\ _reconnectTimer w = None /\ isConnected w = false
   /\ readyState_of 0 w = Some CLOSING /\ timers w = ∅)
  /\ (let w1 := run [WsClose 0] w in
      _reconnectTimer w1 = Some 2%nat
      /\ timers w1 !! 2%nat = Some ReconnectTimer
      /\ trace w1 = trace w ++ [SetTimeout 2 ReconnectTimer 1000])
  /\ (let w2 := run [WsClose 0; TimerFires 2 true] w in
      _ws w2 = Some 1%nat
      /\ readyState_of 1 w2 = Some CONNECTING
      /\ trace w2
         = trace w ++ [SetTimeout 2 ReconnectTimer 1000; NewWebSocket 1;
                       SetTimeout 3 HandshakeTimeout 10000]).
Proof. vm_compute. repeat split. Qed.

(** ** The invariant [wf] *)

Lemma wf_init : wf init.
Proof.
  constructor; unfold init; fields.
  - intros t cb. now rewrite lookup_empty.
  - discriminate.
  - intros t. now rewrite lookup_empty.
  - intros k s. now rewrite lookup_nil.
  - intros id e [].
  - apply NoDup_nil_2.
Qed.

(** [wf] reads the timers, the reconnect timer, the table, and the
    handshake timers of the sockets; a change elsewhere keeps it. *)
Lemma wf_ext w w' :
  timers w' = timers w -> next_timer w' = next_timer w ->
  _reconnectTimer w' = _reconnectTimer w ->
  handshakeTimer <$> sockets w' = handshakeTimer <$> sockets w ->
  _pending w' = _pending w ->
  wf w -> wf w'.
Proof.
  intros Ht Hn Hr Hs Hp [H1 H2 H3 H4 H5 H6].
  constructor; rewrite ?Ht, ?Hn, ?Hr, ?Hp; auto.
  intros k s Hk.
  assert (Hk' : (handshakeTimer <$> sockets w') !! k = Some (handshakeTimer s))
    by (rewrite list_lookup_fmap, Hk; reflexivity).
  rewrite Hs, list_lookup_fmap in Hk'.
  destruct (sockets w !! k) as [s0|] eqn:E; [|discriminate]. cbn in Hk'.
  injection Hk' as Hk'. rewrite <- Hk'. eauto.
Qed.

Lemma close_socket_timers k socks :
  handshakeTimer <$> close_socket k socks = handshakeTimer <$> socks.
Proof.
  apply list_eq. intros j. rewrite !list_lookup_fmap, close_socket_lookup.
  destruct (socks !! j); cbn; [|reflexivity]. now destruct (decide (j = k)).
Qed.

Lemma set_readyState_timers k r w :
  handshakeTimer <$> sockets (set_readyState k r w) = handshakeTimer <$> sockets w.
Proof.
  unfold set_readyState. destruct (sockets w !! k) as [s|] eqn:E; [|reflexivity]. fields.
  apply list_eq. intros j. rewrite !list_lookup_fmap.
  destruct (decide (j = k)) as [->|Hne].
  - rewrite list_lookup_insert_eq by (eapply lookup_lt_Some; eauto). now rewrite E.
  - now rewrite list_lookup_insert_ne by congruence.
Qed.

Lemma wf_push e w : wf w -> wf (push e w).
Proof. now apply wf_ext. Qed.

Lemma wf_with_trace tr w : wf w -> wf (with_trace tr w).
Proof. now apply wf_ext. Qed.

Lemma wf_with_connected b w : wf w -> wf (with_connected b w).
Proof. now apply wf_ext. Qed.

Lemma wf_with_handshakeComplete b w : wf w -> wf (with_handshakeComplete b w).
Proof. now apply wf_ext. Qed.

Lemma wf_with_connectedAt v w : wf w -> wf (with_connectedAt v w).
Proof. now apply wf_ext. Qed.

Lemma wf_with_serverInfo v w : wf w -> wf (with_serverInfo v w).
Proof. now apply wf_ext. Qed.

Lemma wf_with_reconnectDelay v w : wf w -> wf (with_reconnectDelay v w).
Proof. now apply wf_ext. Qed.

Lemma wf_with_next_promise v w : wf w -> wf (with_next_promise v w).
Proof. now apply wf_ext. Qed.

Lemma wf_with_ws v w : wf w -> wf (with_ws v w).
Proof. now apply wf_ext. Qed.

Lemma wf_set_readyState k r w : wf w -> wf (set_readyState k r w).
Proof.
  apply wf_ext; try apply set_readyState_timers;
    unfold set_readyState; now destruct (sockets w !! k).
Qed.

Lemma wf_ws_close k w : wf w -> wf (ws_close k w).
Proof.
  rewrite ws_close_shape. apply wf_ext; try reflexivity. fields. apply close_socket_timers.
Qed.

Lemma wf_close_current w : wf w -> wf (close_current w).
Proof. unfold close_current. destruct (_ws w); [apply wf_ws_close | auto]. Qed.

Lemma wf_send f w : wf w -> wf (_send f w).
Proof. rewrite send_only_trace. apply wf_with_trace. Qed.

Lemma wf_clearTimeout t w :
  wf w -> _reconnectTimer w <> Some t -> wf (clearTimeout t w).
Proof.
  intros [H1 H2 H3 H4 H5 H6] Hne. constructor; fields; auto.
  - intros t' cb [_ H]%lookup_delete_Some. eauto.
  - intros t' Hr. rewrite lookup_delete_ne by congruence. auto.
  - intros t' [_ H]%lookup_delete_Some. auto.
  - intros k s Hk. destruct (H4 k s Hk) as [Ha Hb]. split; [assumption|].
    intros cb [_ H]%lookup_delete_Some. auto.
  - intros id e Hin. destruct (H5 id e Hin) as [Ha Hb]. split; [assumption|].
    intros cb [_ H]%lookup_delete_Some. auto.
Qed.

(** The reconnect timer is cancelled, or has fired, and is forgotten. *)
Lemma wf_drop_reconnect t w :
  wf w -> timers w !! t = Some ReconnectTimer ->
  wf (with_reconnectTimer None (clearTimeout t w)).
Proof.
  intros [H1 H2 H3 H4 H5 H6] Ht. constructor; fields; auto.
  - intros t' cb [_ H]%lookup_delete_Some. eauto.
  - discriminate.
  - intros t' [Hne H]%lookup_delete_Some. apply H3 in H. apply H3 in Ht. congruence.
  - intros k s Hk. destruct (H4 k s Hk) as [Ha Hb]. split; [assumption|].
    intros cb [_ H]%lookup_delete_Some. auto.
  - intros id e Hin. destruct (H5 id e Hin) as [Ha Hb]. split; [assumption|].
    intros cb [_ H]%lookup_delete_Some. auto.
Qed.

Lemma wf_clear_handshakeTimer k w : wf w -> wf (clear_handshakeTimer k w).
Proof.
  intros H. unfold clear_handshakeTimer. destruct (sockets w !! k) as [s|] eqn:E; [|assumption].
  apply wf_clearTimeout; [assumption|]. intros Hr.
  apply (wf_reconnect_armed w H) in Hr. apply (wf_sockets w H k s E) in Hr. discriminate.
Qed.

Lemma wf_pending_delete id w : wf w -> wf (with_pending (JsMap.delete id (_pending w)) w).
Proof.
  intros [H1 H2 H3 H4 H5 H6]. constructor; fields; auto.
  - intros id' e [Hin _]%JsMapFacts.In_delete. eauto.
  - now apply JsMapFacts.NoDup_keys_delete.
Qed.

Lemma wf_take id e w : wf w -> In (id, e) (_pending w) -> wf (take id e w).
Proof.
  intros H Hin. unfold take.
  apply (wf_pending_delete id (clearTimeout (timer e) w)).
  apply wf_clearTimeout; [assumption|]. intros Hr.
  apply (wf_reconnect_armed w H) in Hr. apply (wf_pending w H id e Hin) in Hr. discriminate.
Qed.

Lemma pending_get_In id w s e :
  pending_get id w = Some (s, e) -> id = Some (JStr s) /\ In (s, e) (_pending w)
                                    /\ JsMap.get s (_pending w) = Some e.
Proof.
  unfold pending_get. destruct id as [[]|]; try discriminate.
  destruct (JsMap.get s0 (_pending w)) eqn:E; [|discriminate].
  intros [= -> ->]. auto using JsMapFacts.get_In.
Qed.

(** [setTimeout] for a new entry, then [this._pending.set]. *)
Lemma wf_register cb d id c w :
  wf w -> entry_timer cb = true ->
  wf (with_pending (JsMap.set id {| cont := c; timer := next_timer w |} (_pending w))
        (push (SetTimeout (next_timer w) cb d)
           (with_next_timer (S (next_timer w))
              (with_timers (<[next_timer w:=cb]> (timers w)) w)))).
Proof.
  intros [H1 H2 H3 H4 H5 H6] Hcb. constructor; fields.
  - intros t cb' [[-> _]|[_ H]]%lookup_insert_Some; [lia | apply H1 in H; lia].
  - intros t Hr. specialize (H2 t Hr). rewrite lookup_insert_ne; [assumption|].
    apply H1 in H2. lia.
  - intros t [[_ ->]|[_ H]]%lookup_insert_Some; [discriminate | auto].
  - intros k s Hk. destruct (H4 k s Hk) as [Ha Hb]. split; [lia|].
    intros cb'. rewrite lookup_insert_ne by lia. auto.
  - intros id' e [[= -> ->]|Hin]%JsMapFacts.In_set; cbn [timer].
    + split; [lia|]. intros cb'. rewrite lookup_insert_eq. now intros [= <-].
    + destruct (H5 id' e Hin) as [Ha Hb]. split; [lia|].
      intros cb'. rewrite lookup_insert_ne by lia. auto.
  - now apply JsMapFacts.NoDup_keys_set.
Qed.

Lemma wf_scheduleReconnect w : wf w -> wf (_scheduleReconnect w).
Proof.
  intros H. rewrite scheduleReconnect_shape.
  destruct (_reconnectTimer w) eqn:Hr; [assumption|].
  destruct H as [H1 H2 H3 H4 H5 H6]. constructor; fields; auto.
  - intros t cb [[-> _]|[_ H]]%lookup_insert_Some; [lia | apply H1 in H; lia].
  - intros t [= <-]. apply lookup_insert_eq.
  - intros t [[-> _]|[_ H]]%lookup_insert_Some; [reflexivity|].
    apply H3 in H. congruence.
  - intros k s Hk. destruct (H4 k s Hk) as [Ha Hb]. split; [lia|].
    intros cb. rewrite lookup_insert_ne by lia. auto.
  - intros id e Hin. destruct (H5 id e Hin) as [Ha Hb]. split; [lia|].
    intros cb. rewrite lookup_insert_ne by lia. auto.
Qed.

Lemma closed_current_timers w :
  handshakeTimer <$> closed_current w = handshakeTimer <$> sockets w.
Proof. unfold closed_current. destruct (_ws w); [apply close_socket_timers | reflexivity]. Qed.

Lemma wf_doConnect ok w : wf w -> wf (_doConnect ok w).
Proof.
  intros H. destruct ok.
  - rewrite doConnect_true_shape.
    destruct H as [H1 H2 H3 H4 H5 H6]. constructor; fields; auto.
    + intros t cb [[-> _]|[_ H]]%lookup_insert_Some; [lia | apply H1 in H; lia].
    + intros t Hr. specialize (H2 t Hr). rewrite lookup_insert_ne; [assumption|].
      apply H1 in H2. lia.
    + intros t [[_ [=]]|[_ H]]%lookup_insert_Some. auto.
    + intros k s [[Hlt Hk]|[_ <-]]%lookup_snoc_Some.
      * assert (Hk' : (handshakeTimer <$> closed_current w) !! k = Some (handshakeTimer s))
          by (rewrite list_lookup_fmap, Hk; reflexivity).
        rewrite closed_current_timers, list_lookup_fmap in Hk'.
        destruct (sockets w !! k) as [s0|] eqn:E; [|discriminate]. cbn in Hk'.
        injection Hk' as Hk'. rewrite <- Hk'.
        destruct (H4 k s0 E) as [Ha Hb]. split; [lia|].
        intros cb. rewrite lookup_insert_ne by lia. auto.
      * cbn [handshakeTimer]. split; [lia|]. intros cb. rewrite lookup_insert_eq.
        now intros [= <-].
    + intros id e Hin. destruct (H5 id e Hin) as [Ha Hb]. split; [lia|].
      intros cb. rewrite lookup_insert_ne by lia. auto.
  - rewrite doConnect_false_shape. apply wf_scheduleReconnect.
    revert H. apply wf_ext; try reflexivity. fields. apply closed_current_timers.
Qed.

Create HintDb gateway.

#[local] Hint Resolve wf_push wf_with_trace wf_with_connected wf_with_handshakeComplete
  wf_with_connectedAt wf_with_serverInfo wf_with_reconnectDelay wf_with_next_promise
  wf_with_ws wf_set_readyState wf_ws_close wf_close_current wf_send
  wf_clear_handshakeTimer wf_pending_delete wf_scheduleReconnect wf_doConnect : gateway.

Lemma wf_with_pending_nil w : wf w -> wf (with_pending [] w).
Proof.
  intros [H1 H2 H3 H4 H5 H6]. constructor; fields; auto.
  - intros id e [].
  - apply NoDup_nil_2.
Qed.

Lemma wf_reject_each l : forall w,
  wf w -> (forall ie, In ie l -> In ie (_pending w)) ->
  wf (fold_left
        (fun w (ie : string * entry) =>
           push (Reject (fst ie) (cont (snd ie)) (Error "Gateway connection closed"))
             (clearTimeout (timer (snd ie)) w)) l w).
Proof.
  induction l as [|[id e] l IH]; intros w H Hin; cbn [fold_left]; [assumption|].
  apply IH.
  - apply wf_push, wf_clearTimeout; [assumption|]. cbn [snd]. intros Hr.
    apply (wf_reconnect_armed w H) in Hr.
    apply (wf_pending w H id e (Hin _ (or_introl eq_refl))) in Hr. discriminate.
  - intros ie Hie. fields. apply Hin. now right.
Qed.

Lemma wf_reject_all w : wf w -> wf (reject_all w).
Proof. intros H. apply wf_reject_each; auto. Qed.

#[local] Hint Resolve wf_with_pending_nil wf_reject_all : gateway.

Lemma wf_onopen w : wf w -> wf (onopen w).
Proof. unfold onopen. auto with gateway. Qed.

Lemma wf_onclose k w : wf w -> wf (onclose k w).
Proof.
  intros H. unfold onclose. apply wf_scheduleReconnect.
  assert (wf (with_pending []
                (reject_all
                   (with_serverInfo None
                      (with_connectedAt None
                         (with_handshakeComplete false
                            (with_connected false (clear_handshakeTimer k w)))))))).
  { auto 10 with gateway. }
  destruct (_handshakeComplete (clear_handshakeTimer k w)); auto with gateway.
Qed.

Lemma wf_take_get x id e w : pending_get x w = Some (id, e) -> wf w -> wf (take id e w).
Proof. intros (_ & Hin & _)%pending_get_In H. now apply wf_take. Qed.

Lemma wf_disconnect w : wf w -> wf (disconnect w).
Proof.
  intros H. unfold disconnect.
  apply wf_with_handshakeComplete, wf_with_connected.
  assert (H' : wf match _reconnectTimer w with
                  | Some t => with_reconnectTimer None (clearTimeout t w)
                  | None => w
                  end).
  { destruct (_reconnectTimer w) as [t|] eqn:E; [|assumption].
    apply wf_drop_reconnect; [assumption|]. now apply (wf_reconnect_armed w H). }
  revert H'. generalize (match _reconnectTimer w with
                         | Some t => with_reconnectTimer None (clearTimeout t w)
                         | None => w
                         end). intros w1 H1.
  destruct (_ws w1); [apply wf_with_ws, wf_ws_close|]; assumption.
Qed.

Lemma wf_call method params id w : wf w -> wf (snd (call method params id w)).
Proof.
  intros H. unfold call, setTimeout. destruct (negb (isConnected w)); [assumption|].
  cbv beta iota zeta. cbn [snd]. apply wf_send.
  apply (wf_register (CallTimeout id method (next_promise w)) CALL_TIMEOUT_MS id
           (CallPromise (next_promise w)) (with_next_promise (S (next_promise w)) w));
    [now apply wf_with_next_promise | reflexivity].
Qed.

Lemma wf_sendConnectRequest cfg signPayload nonce id now w :
  wf w -> wf (_sendConnectRequest cfg signPayload nonce id now w).
Proof.
  intros H. unfold _sendConnectRequest, setTimeout. cbv beta iota zeta.
  pose proof (wf_register (ConnectTimeout id) HANDSHAKE_TIMEOUT_MS id ConnectRequest w H eq_refl).
  destruct (connectParams cfg signPayload nonce now); [apply wf_send|]; assumption.
Qed.

Lemma wf_route cfg signPayload k m uuid now w :
  wf w -> wf (route cfg signPayload k m uuid now w).
Proof.
  intros H. unfold route. cbv zeta.
  destruct (is_challenge m); [now apply wf_sendConnectRequest|].
  destruct (is_response m).
  - destruct (negb (_handshakeComplete w) && _).
    + match goal with |- wf match connected_log _ _ with _ => _ end =>
        assert (Hs0 : wf (with_serverInfo
                            (or_undefined (Js.prop (Js.prop (Some m) "payload") "server"))
                            (with_connectedAt (Some now)
                               (with_handshakeComplete true (clear_handshakeTimer k w)))))
          by auto 10 with gateway
      end.
      destruct (connected_log _ _); [|assumption].
      match goal with |- wf match pending_get ?x ?s with _ => _ end =>
        assert (Hs : wf s) by (apply wf_push; assumption);
        destruct (pending_get x s) as [[id e]|] eqn:E; [|assumption]
      end.
      eapply wf_push, wf_take_get; eassumption.
    + destruct (negb (_handshakeComplete w) && _).
      * pose proof (wf_clear_handshakeTimer k w H) as Hs.
        destruct (pending_get _ _) as [[id e]|] eqn:E; [|now apply wf_close_current].
        pose proof (wf_take_get _ _ _ _ E Hs) as Ht.
        destruct (error_message _ _); [|assumption].
        now apply wf_close_current, wf_push.
      * destruct (pending_get _ _) as [[id e]|] eqn:E; [|assumption].
        pose proof (wf_take_get _ _ _ _ E H) as Ht. cbv zeta.
        destruct (Js.truthy _); [now apply wf_push|].
        destruct (error_message _ _); [now apply wf_push | assumption].
  - destruct (Js.is_str _ _); [apply wf_push|]; assumption.
Qed.

Lemma wf_onmessage cfg signPayload k data uuid now w :
  wf w -> wf (onmessage cfg signPayload k data uuid now w).
Proof.
  intros H. unfold onmessage. destruct data as [[]|]; try assumption; now apply wf_route.
Qed.

Lemma wf_step cfg signPayload e w : wf w -> wf (step cfg signPayload e w).
Proof.
  intros H. destruct e; cbn [step].
  - now apply wf_doConnect.
  - now apply wf_disconnect.
  - now apply wf_call.
  - destruct (readyState_of k w) as [[]|]; try assumption.
    apply wf_onopen. auto with gateway.
  - destruct (readyState_of k w) as [[]|]; try assumption; now apply wf_onmessage.
  - assumption.
  - destruct (readyState_of k w) as [[]|]; try assumption;
      now apply wf_onclose, wf_set_readyState.
  - destruct (timers w !! t) as [cb|] eqn:E; [|assumption].
    destruct cb; cbn [fire].
    + apply wf_push.
      apply (wf_pending_delete id (clearTimeout t w)).
      apply wf_clearTimeout; [assumption|]. intros Hr.
      apply (wf_reconnect_armed w H) in Hr. congruence.
    + apply wf_close_current.
      apply (wf_pending_delete id (clearTimeout t w)).
      apply wf_clearTimeout; [assumption|]. intros Hr.
      apply (wf_reconnect_armed w H) in Hr. congruence.
    + assert (wf (clearTimeout t w)).
      { apply wf_clearTimeout; [assumption|]. intros Hr.
        apply (wf_reconnect_armed w H) in Hr. congruence. }
      destruct (negb _); [apply wf_close_current|]; assumption.
    + apply wf_doConnect. now apply wf_drop_reconnect.
Qed.

Lemma wf_run cfg signPayload es : forall w, wf w -> wf (run cfg signPayload es w).
Proof.
  induction es as [|e es IH]; intros w H; cbn; [assumption|].
  apply IH. now apply wf_step.
Qed.

(** ** Handshake failure (C5) *)

Lemma response_is_not_challenge m : is_response m = true -> is_challenge m = false.
Proof.
  unfold is_response, is_challenge.
  destruct (Js.prop (Some m) "type") as [[]|]; cbn; try discriminate.
  intros ->%String.eqb_eq. reflexivity.
Qed.

Lemma response_is_not_null m : is_response m = true -> m <> JNull.
Proof. intros H ->. discriminate H. Qed.

Lemma onmessage_route cfg signPayload k m uuid now w :
  m <> JNull ->
  onmessage cfg signPayload k (Some m) uuid now w = route cfg signPayload k m uuid now w.
Proof. intros H. unfold onmessage. destruct m; congruence. Qed.

Lemma error_prints_message m fallback :
  error_prints m = true -> exists text, error_message (Some m) fallback = Some text.
Proof.
  unfold error_prints, error_message.
  destruct (Js.prop (Js.prop (Some m) "error") "message") as [v|]; [|now eexists].
  destruct (Js.truthy (Some v)); [|now eexists].
  destruct (Js.String v) as [text|]; [now eexists | discriminate].
Qed.




Section HandshakeFailure.

Variable cfg : config.
Variable signPayload : string -> string -> option string.


End HandshakeFailure.



(** ** The invariant [correlated] *)

Lemma settled_snoc id tr e :
  settled id (tr ++ [e]) = (settled id tr + (if settles id e then 1 else 0))%nat.
Proof. rewrite settled_app. cbn. lia. Qed.

Lemma settled_neutral id e : neutral e = true -> settles id e = false.
Proof. now destruct e. Qed.

Lemma timer_of_inj id id' e e' cb : timer_of id e cb -> timer_of id' e' cb -> id = id'.
Proof.
  unfold timer_of. destruct (cont e), (cont e').
  - intros [m ->] [m' [=]]. assumption.
  - intros [m ->] [=].
  - intros -> [m' [=]].
  - intros -> [=]. assumption.
Qed.

Lemma co_init {Q} : correlated Q [] init.
Proof.
  constructor; unfold init; fields.
  - intros t id method p. now rewrite lookup_empty.
  - intros t id. now rewrite lookup_empty.
  - discriminate.
  - intros id _. repeat split. intros t method p d [].
  - intros t id method p d [].
Qed.

(** [correlated] reads the timers, the table and the trace. *)
Lemma co_ext {Q} used w w' :
  timers w' = timers w -> _pending w' = _pending w -> trace w' = trace w ->
  correlated Q used w -> correlated Q used w'.
Proof.
  intros Ht Hp Htr [H1 H2 H3 H4 H5]. constructor; rewrite ?Ht, ?Hp, ?Htr; eauto.
Qed.

Lemma co_weaken {Q} used used' w :
  (forall id, In id used -> In id used') -> correlated Q used w -> correlated Q used' w.
Proof. intros Hsub [H1 H2 H3 H4 H5]. constructor; eauto. Qed.

(** An effect that neither settles nor registers anything. *)
Lemma co_push {Q} used e w : neutral e = true -> correlated Q used w -> correlated Q used (push e w).
Proof.
  intros He [H1 H2 H3 H4 H5].
  assert (Hs : forall id, settled id (trace w ++ [e]) = settled id (trace w)).
  { intros id. rewrite settled_snoc, (settled_neutral id e He). lia. }
  assert (Hin : forall t id method p d,
             In (SetTimeout t (CallTimeout id method p) d) (trace w ++ [e]) ->
             In (SetTimeout t (CallTimeout id method p) d) (trace w)).
  { intros t id method p d [H|[->|[]]]%in_app_or; [assumption | discriminate He]. }
  constructor; fields; eauto.
  - intros id e' Hg. rewrite Hs. eauto.
  - intros id Hid. destruct (H4 id Hid) as (Ha & Hb & Hc). rewrite Hs.
    repeat split; eauto. intros t method p d Hi%Hin. now apply (Hc t method p d).
  - intros t id method p d Hi%Hin. specialize (H5 t id method p d Hi). now rewrite Hs.
Qed.

(** A timer that belongs to no entry is cancelled or has fired. *)
Lemma co_clear {Q} used t w :
  (forall cb, timers w !! t = Some cb -> entry_timer cb = false) ->
  correlated Q used w -> correlated Q used (clearTimeout t w).
Proof.
  intros Ht [H1 H2 H3 H4 H5]. constructor; fields; eauto.
  - intros t' id method p [_ H]%lookup_delete_Some. eauto.
  - intros t' id [_ H]%lookup_delete_Some. eauto.
  - intros id e Hg. destruct (H3 id e Hg) as [(cb & Hcb & Hof) Hs]. split; [|assumption].
    exists cb. split; [|assumption]. rewrite lookup_delete_ne; [assumption|].
    intros Heq. rewrite Heq in Ht. specialize (Ht cb Hcb). unfold timer_of in Hof.
    destruct (cont e); [destruct Hof as [m ->] | subst cb]; discriminate.
  - intros t' id method p d Hi. specialize (H5 t' id method p d Hi).
    destruct (JsMap.get id (_pending w)); [|assumption].
    destruct H5 as [He Hcb]. split; [assumption|].
    rewrite lookup_delete_ne; [assumption|]. intros Heq. rewrite Heq in Ht.
    specialize (Ht _ Hcb). discriminate.
Qed.

(** [setTimeout] for the handshake or the reconnect. *)
Lemma co_arm {Q} used cb d w :
  entry_timer cb = false -> wf w -> correlated Q used w ->
  correlated Q used
    (push (SetTimeout (next_timer w) cb d)
       (with_next_timer (S (next_timer w))
          (with_timers (<[next_timer w:=cb]> (timers w)) w))).
Proof.
  intros Hcb Hwf H. apply co_push; [now destruct cb|].
  destruct H as [H1 H2 H3 H4 H5]. constructor; fields; eauto.
  - intros t id method p [[_ ->]|[_ H]]%lookup_insert_Some; [discriminate | eauto].
  - intros t id [[_ ->]|[_ H]]%lookup_insert_Some; [discriminate | eauto].
  - intros id e Hg. destruct (H3 id e Hg) as [(cb' & Hcb' & Hof) Hs]. split; [|assumption].
    exists cb'. split; [|assumption]. rewrite lookup_insert_ne; [assumption|].
    apply (wf_handles w Hwf) in Hcb'. lia.
  - intros t id method p d' Hi. specialize (H5 t id method p d' Hi).
    destruct (JsMap.get id (_pending w)); [|assumption].
    destruct H5 as [He Ht]. split; [assumption|].
    rewrite lookup_insert_ne; [assumption|]. apply (wf_handles w Hwf) in Ht. lia.
Qed.

(** An entry leaves the table with its timer; [effs] is what the handler
    adds to the trace: the settlement of the entry, or nothing when the
    entry is that of a connect request. *)
Lemma co_take {Q} used id e effs w :
  JsMap.get id (_pending w) = Some e ->
  (forall t cb d, ~ In (SetTimeout t cb d) effs) ->
  (forall id', id' <> id -> settled id' effs = 0%nat) ->
  cont e = ConnectRequest \/ Q (settled id effs) ->
  correlated Q used w ->
  correlated Q used (with_trace (trace w ++ effs) (take id e w)).
Proof.
  intros Hg Hno Hother Hown [H1 H2 H3 H4 H5].
  destruct (H3 id e Hg) as [(cb0 & Hcb0 & Hof0) Hs0].
  assert (Hin : forall t id' method p d,
             In (SetTimeout t (CallTimeout id' method p) d) (trace w ++ effs) ->
             In (SetTimeout t (CallTimeout id' method p) d) (trace w)).
  { intros t id' method p d [H|H]%in_app_or; [assumption | now apply Hno in H]. }
  constructor; unfold take; fields.
  - intros t id' method p [Hne H]%lookup_delete_Some. specialize (H1 _ _ _ _ H).
    rewrite JsMapFacts.get_delete_ne; [assumption|].
    intros ->. rewrite Hg in H1. injection H1 as ->. now cbn in Hne.
  - intros t id' [Hne H]%lookup_delete_Some. specialize (H2 _ _ H).
    rewrite JsMapFacts.get_delete_ne; [assumption|].
    intros ->. rewrite Hg in H2. injection H2 as ->. now cbn in Hne.
  - intros id' e' Hg'.
    assert (Hne : id' <> id) by (intros ->; now rewrite JsMapFacts.get_delete_eq in Hg').
    rewrite JsMapFacts.get_delete_ne in Hg' by congruence.
    destruct (H3 id' e' Hg') as [(cb & Hcb & Hof) Hs]. split.
    + exists cb. split; [|assumption]. rewrite lookup_delete_ne; [assumption|].
      intros Heq. rewrite Heq, Hcb in Hcb0. injection Hcb0 as <-.
      apply Hne. symmetry. eapply timer_of_inj; eauto.
    + rewrite settled_app, Hs, (Hother id' Hne). reflexivity.
  - intros id' Hid. destruct (H4 id' Hid) as (Ha & Hb & Hc).
    assert (Hne : id' <> id) by (intros ->; congruence).
    rewrite JsMapFacts.get_delete_ne by congruence.
    rewrite settled_app, Hb, (Hother id' Hne). repeat split; eauto.
    intros t method p d Hi%Hin. now apply (Hc t method p d).
  - intros t id' method p d Hi%Hin. specialize (H5 t id' method p d Hi).
    destruct (String.eqb id' id) eqn:E.
    + apply String.eqb_eq in E. subst id'. rewrite JsMapFacts.get_delete_eq.
      rewrite Hg in H5. destruct H5 as [-> _]. cbn in Hown.
      destruct Hown as [Hc|Hc]; [discriminate|].
      rewrite settled_app, Hs0. exact Hc.
    + apply String.eqb_neq in E. rewrite JsMapFacts.get_delete_ne by congruence.
      destruct (JsMap.get id' (_pending w)) as [e'|] eqn:Hg'.
      * destruct H5 as [He Ht]. split; [assumption|].
        rewrite lookup_delete_ne; [assumption|].
        intros Heq. rewrite Heq, Ht in Hcb0. injection Hcb0 as <-.
        unfold timer_of in Hof0.
        destruct (cont e); [destruct Hof0 as [m [=]]; congruence | discriminate].
      * rewrite settled_app, (Hother id' E), Nat.add_0_r. exact H5.
Qed.

(** [setTimeout] for a new entry, then [this._pending.set], under an
    identifier that was never drawn. *)
Lemma co_register {Q} used cb d id c w :
  ~ In id used ->
  timer_of id {| cont := c; timer := next_timer w |} cb ->
  wf w -> correlated Q used w ->
  correlated Q (id :: used)
    (with_pending (JsMap.set id {| cont := c; timer := next_timer w |} (_pending w))
       (push (SetTimeout (next_timer w) cb d)
          (with_next_timer (S (next_timer w))
             (with_timers (<[next_timer w:=cb]> (timers w)) w)))).
Proof.
  intros Hfresh Hof Hwf [H1 H2 H3 H4 H5].
  destruct (H4 id Hfresh) as (Hnone & Hzero & Hnoreg).
  assert (Hlt : forall t cb', timers w !! t = Some cb' -> t <> next_timer w).
  { intros t cb' H%(wf_handles w Hwf). lia. }
  assert (Hs : forall id',
             settled id' (trace w ++ [SetTimeout (next_timer w) cb d]) = settled id' (trace w)).
  { intros id'. rewrite settled_snoc. cbn. lia. }
  assert (Hpend : forall id' e', JsMap.get id' (_pending w) = Some e' -> id <> id').
  { intros id' e' Hg ->. congruence. }
  constructor; fields.
  - intros t id' method p [[<- ->]|[Hne H]]%lookup_insert_Some.
    + unfold timer_of in Hof. cbn in Hof. destruct c; [|discriminate].
      destruct Hof as [m [= <- _ <-]]. apply JsMapFacts.get_set_eq.
    + specialize (H1 _ _ _ _ H). rewrite JsMapFacts.get_set_ne; eauto.
  - intros t id' [[<- ->]|[Hne H]]%lookup_insert_Some.
    + unfold timer_of in Hof. cbn in Hof. destruct c; [destruct Hof as [m [=]]|].
      injection Hof as <-. apply JsMapFacts.get_set_eq.
    + specialize (H2 _ _ H). rewrite JsMapFacts.get_set_ne; eauto.
  - intros id' e' Hg'. rewrite Hs.
    destruct (String.eqb id id') eqn:E.
    + apply String.eqb_eq in E. subst id'. rewrite JsMapFacts.get_set_eq in Hg'.
      injection Hg' as <-. split; [|assumption].
      exists cb. split; [apply lookup_insert_eq | assumption].
    + apply String.eqb_neq in E. rewrite JsMapFacts.get_set_ne in Hg' by assumption.
      destruct (H3 id' e' Hg') as [(cb' & Hcb' & Hof') Hs']. split; [|assumption].
      exists cb'. split; [|assumption]. rewrite lookup_insert_ne; eauto.
      intros Heq. apply (Hlt _ _ Hcb'). eauto.
  - intros id' Hid.
    assert (Hne : id <> id') by (intros ->; apply Hid; now left).
    destruct (H4 id') as (Ha & Hb & Hc); [intros Hi; apply Hid; now right|].
    rewrite JsMapFacts.get_set_ne by assumption. rewrite Hs. repeat split; eauto.
    intros t method p d' [Hi|[Hi|[]]]%in_app_or; [now apply (Hc t method p d')|].
    injection Hi as _ -> _. unfold timer_of in Hof. cbn in Hof.
    destruct c; [destruct Hof as [m [=]]; congruence | discriminate].
  - intros t id' method p d' [Hi|[Hi|[]]]%in_app_or.
    + assert (Hne : id <> id') by (intros <-; now apply (Hnoreg t method p d')).
      specialize (H5 t id' method p d' Hi).
      rewrite JsMapFacts.get_set_ne by assumption. rewrite Hs.
      destruct (JsMap.get id' (_pending w)); [|assumption].
      destruct H5 as [He Ht]. split; [assumption|]. rewrite lookup_insert_ne; eauto.
      intros Heq. apply (Hlt _ _ Ht). eauto.
    + injection Hi as <- -> _. unfold timer_of in Hof. cbn in Hof.
      destruct c; [|discriminate]. destruct Hof as [m [= <- _ <-]].
      rewrite JsMapFacts.get_set_eq. split; [reflexivity | apply lookup_insert_eq].
Qed.

Lemma co_with_connected {Q} used b w : correlated Q used w -> correlated Q used (with_connected b w).
Proof. now apply co_ext. Qed.

Lemma co_with_handshakeComplete {Q} used b w :
  correlated Q used w -> correlated Q used (with_handshakeComplete b w).
Proof. now apply co_ext. Qed.

Lemma co_with_connectedAt {Q} used v w : correlated Q used w -> correlated Q used (with_connectedAt v w).
Proof. now apply co_ext. Qed.

Lemma co_with_serverInfo {Q} used v w : correlated Q used w -> correlated Q used (with_serverInfo v w).
Proof. now apply co_ext. Qed.

Lemma co_with_reconnectDelay {Q} used v w :
  correlated Q used w -> correlated Q used (with_reconnectDelay v w).
Proof. now apply co_ext. Qed.

Lemma co_with_reconnectTimer {Q} used v w :
  correlated Q used w -> correlated Q used (with_reconnectTimer v w).
Proof. now apply co_ext. Qed.

Lemma co_with_next_promise {Q} used v w :
  correlated Q used w -> correlated Q used (with_next_promise v w).
Proof. now apply co_ext. Qed.

Lemma co_with_ws {Q} used v w : correlated Q used w -> correlated Q used (with_ws v w).
Proof. now apply co_ext. Qed.

Lemma co_with_sockets {Q} used v w : correlated Q used w -> correlated Q used (with_sockets v w).
Proof. now apply co_ext. Qed.

Lemma co_set_readyState {Q} used k r w :
  correlated Q used w -> correlated Q used (set_readyState k r w).
Proof. unfold set_readyState. destruct (sockets w !! k); [apply co_with_sockets | auto]. Qed.

Lemma co_ws_close {Q} used k w : correlated Q used w -> correlated Q used (ws_close k w).
Proof. intros H. rewrite ws_close_shape. now apply co_with_sockets, co_push. Qed.

Lemma co_close_current {Q} used w : correlated Q used w -> correlated Q used (close_current w).
Proof. unfold close_current. destruct (_ws w); [apply co_ws_close | auto]. Qed.

Lemma co_send {Q} used f w : correlated Q used w -> correlated Q used (_send f w).
Proof.
  intros H. destruct (send_same f w) as (l & -> & [->|(k & _ & ->)]).
  - rewrite app_nil_r, with_trace_same. assumption.
  - now apply (co_push used (Send k f) w).
Qed.

#[local] Hint Resolve co_push co_with_connected co_with_handshakeComplete co_with_connectedAt
  co_with_serverInfo co_with_reconnectDelay co_with_reconnectTimer co_with_next_promise
  co_with_ws co_with_sockets co_set_readyState co_ws_close co_close_current co_send
  : gateway.

Lemma co_clear_handshakeTimer {Q} used k w :
  wf w -> correlated Q used w -> correlated Q used (clear_handshakeTimer k w).
Proof.
  intros Hwf H. unfold clear_handshakeTimer.
  destruct (sockets w !! k) as [s|] eqn:E; [|assumption].
  apply co_clear; [|assumption]. intros cb Hcb.
  now rewrite (proj2 (wf_sockets w Hwf k s E) cb Hcb).
Qed.

Lemma co_scheduleReconnect {Q} used w :
  wf w -> correlated Q used w -> correlated Q used (_scheduleReconnect w).
Proof.
  intros Hwf H. rewrite scheduleReconnect_shape. destruct (_reconnectTimer w); [assumption|].
  apply co_with_reconnectTimer, co_with_reconnectDelay.
  generalize (co_arm used ReconnectTimer (_reconnectDelay w) w eq_refl Hwf H).
  now apply co_ext.
Qed.

Lemma co_doConnect {Q} used ok w :
  wf w -> correlated Q used w -> correlated Q used (_doConnect ok w).
Proof.
  intros Hwf H.
  assert (Hc : correlated Q used (with_trace (trace w ++ closes w) w)).
  { unfold closes. destruct (_ws w) as [k|].
    - now apply (co_push used (Close k) w).
    - rewrite app_nil_r, with_trace_same. assumption. }
  assert (Hwfc : wf (with_trace (trace w ++ closes w) w)) by now apply wf_with_trace.
  destruct ok.
  - rewrite doConnect_true_shape. apply co_with_ws, co_with_sockets.
    generalize (co_push used (NewWebSocket (length (sockets w))) _ eq_refl Hc). intros Hn.
    generalize (co_arm used HandshakeTimeout HANDSHAKE_TIMEOUT_MS _ eq_refl
                  (wf_push (NewWebSocket (length (sockets w))) _ Hwfc) Hn).
    apply co_ext; fields; rewrite <- ?app_assoc; reflexivity.
  - rewrite doConnect_false_shape. apply co_scheduleReconnect.
    + revert Hwfc. apply wf_ext; try reflexivity. fields. apply closed_current_timers.
    + now apply co_with_ws, co_with_sockets.
Qed.

Lemma co_take_settle {Q} used id e eff w :
  Q 1%nat ->
  (exists v, eff = Resolve id (cont e) v) \/ (exists err, eff = Reject id (cont e) err) ->
  JsMap.get id (_pending w) = Some e ->
  correlated Q used w -> correlated Q used (push eff (take id e w)).
Proof.
  intros HQ Heff Hg H.
  apply (co_take used id e [eff] w Hg).
  - intros t cb d [Hi|[]]. destruct Heff as [[v ->]|[err ->]]; discriminate.
  - intros id' Hne. apply not_eq_sym, String.eqb_neq in Hne.
    destruct Heff as [[v ->]|[err ->]]; cbn; now rewrite Hne.
  - right. destruct Heff as [[v ->]|[err ->]]; cbn; now rewrite String.eqb_refl.
  - assumption.
Qed.

Lemma co_take_silent {Q} used id e w :
  cont e = ConnectRequest -> JsMap.get id (_pending w) = Some e ->
  correlated Q used w -> correlated Q used (take id e w).
Proof.
  intros Hc Hg H.
  generalize (co_take used id e [] w Hg (fun _ _ _ H => H) (fun _ _ => eq_refl)
                (or_introl Hc) H).
  apply co_ext; fields; rewrite ?app_nil_r; reflexivity.
Qed.

(** The entry leaves the table with its timer and no continuation is
    invoked: the [Error] of its rejection could not be built. *)
Lemma co_take_dropped {Q} used id e w :
  Q 0%nat -> JsMap.get id (_pending w) = Some e ->
  correlated Q used w -> correlated Q used (take id e w).
Proof.
  intros HQ Hg H.
  generalize (co_take used id e [] w Hg (fun _ _ _ H => H) (fun _ _ => eq_refl)
                (or_intror HQ) H).
  apply co_ext; fields; rewrite ?app_nil_r; reflexivity.
Qed.

(** *** The loop of [onclose] *)

Lemma reject_each_timers l : forall w t cb,
  timers
    (fold_left
       (fun w (ie : string * entry) =>
          push (Reject (fst ie) (cont (snd ie)) (Error "Gateway connection closed"))
            (clearTimeout (timer (snd ie)) w)) l w) !! t = Some cb ->
  timers w !! t = Some cb /\ forall ie, In ie l -> timer (snd ie) <> t.
Proof.
  induction l as [|ie l IH]; intros w t cb; cbn [fold_left].
  - intros H. split; [assumption | intros ie []].
  - intros [H Hl]%IH. fields in H. apply lookup_delete_Some in H as [Hne H].
    split; [assumption|]. intros ie' [<-|Hin]; auto.
Qed.

Lemma settled_rejections id l :
  NoDup (JsMap.keys l) ->
  settled id (map closed_rejection l)
  = match JsMap.get id l with Some _ => 1%nat | None => 0%nat end.
Proof.
  induction l as [|[k v] l IH]; [reflexivity|].
  intros [Hk Hnd]%NoDup_cons. cbn. destruct (String.eqb k id) eqn:E.
  - apply String.eqb_eq in E. subst k. rewrite (IH Hnd).
    assert (Hnone : JsMap.get id l = None).
    { apply JsMapFacts.get_None. intros Hin. apply Hk. now apply list_elem_of_In. }
    now rewrite Hnone.
  - apply (IH Hnd).
Qed.

Lemma co_reject_all {Q} used w :
  Q 1%nat ->
  wf w -> correlated Q used w -> correlated Q used (with_pending [] (reject_all w)).
Proof.
  intros HQ Hwf [H1 H2 H3 H4 H5].
  destruct (reject_all_fields w) as (Htr & _).
  assert (Htimers : forall t cb, timers (reject_all w) !! t = Some cb ->
                      timers w !! t = Some cb
                      /\ forall id e, JsMap.get id (_pending w) = Some e -> timer e <> t).
  { intros t cb [H Hl]%reject_each_timers. split; [assumption|].
    intros id e Hg%JsMapFacts.get_In. apply (Hl (id, e) Hg). }
  assert (Hin : forall t id method p d,
             In (SetTimeout t (CallTimeout id method p) d)
               (trace w ++ map closed_rejection (_pending w)) ->
             In (SetTimeout t (CallTimeout id method p) d) (trace w)).
  { intros t id method p d [H|H]%in_app_or; [assumption|].
    apply in_map_iff in H as (ie & [=] & _). }
  constructor; fields; rewrite ?Htr.
  - intros t id method p [H Hl]%Htimers. specialize (H1 _ _ _ _ H).
    now apply Hl in H1.
  - intros t id [H Hl]%Htimers. specialize (H2 _ _ H). now apply Hl in H2.
  - discriminate.
  - intros id Hid. destruct (H4 id Hid) as (Ha & Hb & Hc).
    rewrite settled_app, Hb, (settled_rejections id _ (wf_keys w Hwf)), Ha.
    repeat split. intros t method p d Hi%Hin. now apply (Hc t method p d).
  - intros t id method p d Hi%Hin. specialize (H5 t id method p d Hi).
    rewrite settled_app, (settled_rejections id _ (wf_keys w Hwf)).
    destruct (JsMap.get id (_pending w)) as [e|] eqn:Hg.
    + destruct (H3 id e Hg) as [_ ->]. exact HQ.
    + now rewrite Nat.add_0_r.
Qed.

Lemma co_onopen {Q} used w : correlated Q used w -> correlated Q used (onopen w).
Proof. unfold onopen. auto with gateway. Qed.

Lemma co_onclose {Q} used k w :
  Q 1%nat ->
  wf w -> correlated Q used w -> correlated Q used (onclose k w).
Proof.
  intros HQ Hwf H. unfold onclose.
  set (w1 := with_serverInfo None
               (with_connectedAt None
                  (with_handshakeComplete false
                     (with_connected false (clear_handshakeTimer k w))))).
  assert (Hwf1 : wf w1) by (unfold w1; auto 10 with gateway).
  assert (H1 : correlated Q used w1)
    by (unfold w1; auto 10 using co_clear_handshakeTimer with gateway).
  assert (Hwf2 : wf (with_pending [] (reject_all w1))) by auto with gateway.
  assert (H2 : correlated Q used (with_pending [] (reject_all w1)))
    by (apply co_reject_all; assumption).
  destruct (_handshakeComplete (clear_handshakeTimer k w)).
  - apply co_scheduleReconnect; [now apply wf_push | now apply co_push].
  - now apply co_scheduleReconnect.
Qed.

Lemma co_disconnect {Q} used w : wf w -> correlated Q used w -> correlated Q used (disconnect w).
Proof.
  intros Hwf H. unfold disconnect.
  apply co_with_handshakeComplete, co_with_connected.
  assert (H' : correlated Q used match _reconnectTimer w with
                               | Some t => with_reconnectTimer None (clearTimeout t w)
                               | None => w
                               end).
  { destruct (_reconnectTimer w) as [t|] eqn:E; [|assumption].
    apply co_with_reconnectTimer, co_clear; [|assumption].
    intros cb Hcb. rewrite (wf_reconnect_armed w Hwf t E) in Hcb. now injection Hcb as <-. }
  revert H'. generalize (match _reconnectTimer w with
                         | Some t => with_reconnectTimer None (clearTimeout t w)
                         | None => w
                         end). intros w1 H1.
  destruct (_ws w1); [apply co_with_ws, co_ws_close|]; assumption.
Qed.

(** ** Traces only grow *)

Section Extends.

Variable P : effect -> Prop.

Lemma ext_refl w : extends P w w.
Proof. exists []. now rewrite app_nil_r. Qed.

Lemma ext_keep w w1 w2 : trace w2 = trace w1 -> extends P w w1 -> extends P w w2.
Proof. intros E (l & H & Hl). exists l. now rewrite E. Qed.

Lemma ext_push w w1 e : P e -> extends P w w1 -> extends P w (push e w1).
Proof.
  intros He (l & H & Hl). exists (l ++ [e]). fields. rewrite H, <- app_assoc.
  split; [reflexivity|]. apply Forall_app; split; [assumption | now constructor].
Qed.

Lemma ext_with_trace w w1 l :
  Forall P l -> extends P w w1 -> extends P w (with_trace (trace w1 ++ l) w1).
Proof.
  intros Hl (l0 & H & Hl0). exists (l0 ++ l). fields. rewrite H, <- app_assoc.
  split; [reflexivity|]. now apply Forall_app.
Qed.

End Extends.

(** Steps over a setter that leaves the trace alone. *)
Ltac peel :=
  match goal with
  | |- extends _ _ (with_ws _ ?x) => apply (ext_keep _ _ x); [reflexivity|]
  | |- extends _ _ (with_connected _ ?x) => apply (ext_keep _ _ x); [reflexivity|]
  | |- extends _ _ (with_handshakeComplete _ ?x) => apply (ext_keep _ _ x); [reflexivity|]
  | |- extends _ _ (with_pending _ ?x) => apply (ext_keep _ _ x); [reflexivity|]
  | |- extends _ _ (with_reconnectDelay _ ?x) => apply (ext_keep _ _ x); [reflexivity|]
  | |- extends _ _ (with_reconnectTimer _ ?x) => apply (ext_keep _ _ x); [reflexivity|]
  | |- extends _ _ (with_connectedAt _ ?x) => apply (ext_keep _ _ x); [reflexivity|]
  | |- extends _ _ (with_serverInfo _ ?x) => apply (ext_keep _ _ x); [reflexivity|]
  | |- extends _ _ (with_sockets _ ?x) => apply (ext_keep _ _ x); [reflexivity|]
  | |- extends _ _ (with_timers _ ?x) => apply (ext_keep _ _ x); [reflexivity|]
  | |- extends _ _ (with_next_timer _ ?x) => apply (ext_keep _ _ x); [reflexivity|]
  | |- extends _ _ (with_next_promise _ ?x) => apply (ext_keep _ _ x); [reflexivity|]
  | |- extends _ _ (clearTimeout _ ?x) => apply (ext_keep _ _ x); [reflexivity|]
  | |- extends _ _ (take _ _ ?x) => apply (ext_keep _ _ x); [reflexivity|]
  end.

Section ExtendsSilent.

Variable P : effect -> Prop.
Hypothesis silent_P : forall e, silent e = true -> P e.

Lemma ext_close_current w w1 : extends P w w1 -> extends P w (close_current w1).
Proof.
  intros H. rewrite close_current_shape. destruct (_ws w1) as [k|]; [|assumption].
  peel. apply ext_push; auto.
Qed.

Lemma ext_send w w1 f : extends P w w1 -> extends P w (_send f w1).
Proof.
  intros H. destruct (send_same f w1) as (l & -> & [->|(k & _ & ->)]).
  - rewrite app_nil_r, with_trace_same. assumption.
  - apply (ext_push P w w1 (Send k f)); auto.
Qed.

Lemma ext_clear_handshakeTimer w w1 k :
  extends P w w1 -> extends P w (clear_handshakeTimer k w1).
Proof. apply ext_keep. apply (clear_handshakeTimer_fields k w1). Qed.

Lemma ext_set_readyState w w1 k r :
  extends P w w1 -> extends P w (set_readyState k r w1).
Proof. apply ext_keep. unfold set_readyState. now destruct (sockets w1 !! k). Qed.

Lemma ext_scheduleReconnect w w1 : extends P w w1 -> extends P w (_scheduleReconnect w1).
Proof.
  intros H. rewrite scheduleReconnect_shape. destruct (_reconnectTimer w1); [assumption|].
  pose proof (ext_push P w w1 (SetTimeout (next_timer w1) ReconnectTimer (_reconnectDelay w1))
                (silent_P (SetTimeout (next_timer w1) ReconnectTimer (_reconnectDelay w1))
                   eq_refl) H) as H1.
  revert H1. apply ext_keep. reflexivity.
Qed.

Lemma ext_doConnect w w1 ok : extends P w w1 -> extends P w (_doConnect ok w1).
Proof.
  intros H.
  assert (Hc : extends P w (with_trace (trace w1 ++ closes w1) w1)).
  { apply ext_with_trace; [|assumption]. unfold closes.
    destruct (_ws w1); repeat constructor. auto. }
  destruct ok.
  - rewrite doConnect_true_shape.
    pose proof (ext_push P w _ (NewWebSocket (length (sockets w1)))
                  (silent_P (NewWebSocket (length (sockets w1))) eq_refl) Hc) as H1.
    pose proof (ext_push P w _ (SetTimeout (next_timer w1) HandshakeTimeout
                                HANDSHAKE_TIMEOUT_MS)
                  (silent_P (SetTimeout (next_timer w1) HandshakeTimeout
                               HANDSHAKE_TIMEOUT_MS) eq_refl) H1) as H2.
    revert H2. apply ext_keep. fields. rewrite <- !app_assoc. reflexivity.
  - rewrite doConnect_false_shape. apply ext_scheduleReconnect.
    do 2 peel. exact Hc.
Qed.

Lemma ext_disconnect w w1 : extends P w w1 -> extends P w (disconnect w1).
Proof.
  intros H. unfold disconnect.
  do 2 peel.
  assert (H' : extends P w match _reconnectTimer w1 with
                           | Some t => with_reconnectTimer None (clearTimeout t w1)
                           | None => w1
                           end).
  { destruct (_reconnectTimer w1); [|assumption]. do 2 peel. exact H. }
  revert H'. generalize (match _reconnectTimer w1 with
                         | Some t => with_reconnectTimer None (clearTimeout t w1)
                         | None => w1
                         end). intros w2 H2.
  destruct (_ws w2) as [k|]; [|assumption].
  peel. rewrite ws_close_shape. peel. apply ext_push; auto.
Qed.

Lemma ext_call w w1 method params id :
  extends P w w1 -> extends P w (snd (call method params id w1)).
Proof.
  intros H. unfold call, setTimeout. destruct (negb (isConnected w1)); [assumption|].
  cbv beta iota zeta. cbn [snd]. apply ext_send.
  peel. apply ext_push; [now apply silent_P|]. do 3 peel. exact H.
Qed.

Lemma ext_sendConnectRequest cfg signPayload w w1 nonce id now :
  extends P w w1 -> extends P w (_sendConnectRequest cfg signPayload nonce id now w1).
Proof.
  intros H. unfold _sendConnectRequest, setTimeout. cbv beta iota zeta.
  assert (H' : extends P w
                 (with_pending
                    (JsMap.set id {| cont := ConnectRequest; timer := next_timer w1 |}
                       (_pending w1))
                    (push (SetTimeout (next_timer w1) (ConnectTimeout id) HANDSHAKE_TIMEOUT_MS)
                       (with_next_timer (S (next_timer w1))
                          (with_timers (<[next_timer w1:=ConnectTimeout id]> (timers w1)) w1))))).
  { peel. apply ext_push; [now apply silent_P|]. do 2 peel. exact H. }
  destruct (connectParams cfg signPayload nonce now); [apply ext_send|]; exact H'.
Qed.

Lemma ext_onclose w w1 k : extends P w w1 -> extends P w (onclose k w1).
Proof.
  intros H. unfold onclose. apply ext_scheduleReconnect.
  set (w2 := with_serverInfo _ _).
  assert (H2 : extends P w w2).
  { unfold w2. do 4 peel. now apply ext_clear_handshakeTimer. }
  assert (H3 : extends P w (with_pending [] (reject_all w2))).
  { destruct (reject_all_fields w2) as (Htr & _).
    peel. apply (ext_keep P w (with_trace (trace w2 ++ map closed_rejection (_pending w2)) w2)).
    - exact Htr.
    - apply ext_with_trace; [|exact H2].
      apply List.Forall_forall. intros e (ie & <- & _)%in_map_iff. now apply silent_P. }
  destruct (_handshakeComplete _); [apply ext_push; auto|]; exact H3.
Qed.

Lemma ext_fire w w1 cb ok : extends P w w1 -> extends P w (fire cb ok w1).
Proof.
  intros H. destruct cb; cbn [fire].
  - apply ext_push; [now apply silent_P|]. peel. exact H.
  - apply ext_close_current. peel. exact H.
  - destruct (negb _); [apply ext_close_current|]; exact H.
  - apply ext_doConnect. peel. exact H.
Qed.

End ExtendsSilent.

Lemma silent_answers m e : silent e = true -> answers m e.
Proof. now destruct e. Qed.

(** A message resolves only the entry under its own [id], with its own
    [payload]. *)
Lemma ext_route cfg signPayload k m uuid now w :
  extends (answers m) w (route cfg signPayload k m uuid now w).
Proof.
  pose proof (silent_answers m) as HP.
  unfold route. cbv zeta.
  destruct (is_challenge m); [apply ext_sendConnectRequest; [assumption | apply ext_refl]|].
  destruct (is_response m).
  - destruct (negb (_handshakeComplete w) && _).
    + assert (Hs0 : extends (answers m) w
                      (with_serverInfo
                         (or_undefined (Js.prop (Js.prop (Some m) "payload") "server"))
                         (with_connectedAt (Some now)
                            (with_handshakeComplete true (clear_handshakeTimer k w)))))
        by (do 3 peel; apply ext_clear_handshakeTimer, ext_refl).
      destruct (connected_log _ _); [|exact Hs0].
      match goal with |- extends _ _ match pending_get ?x ?s with _ => _ end =>
        assert (Hs : extends (answers m) w s) by (apply ext_push; [exact I | exact Hs0]);
        destruct (pending_get x s) as [[id e]|] eqn:E; [|exact Hs]
      end.
      apply pending_get_In in E as (E & _). apply ext_push; [now split|].
      peel. exact Hs.
    + destruct (negb (_handshakeComplete w) && _).
      * destruct (pending_get _ _) as [[id e]|].
        -- destruct (error_message _ _).
           ++ apply ext_close_current; [assumption|]. apply ext_push; [exact I|]. peel.
              apply ext_clear_handshakeTimer, ext_refl.
           ++ peel. apply ext_clear_handshakeTimer, ext_refl.
        -- apply ext_close_current; [assumption|].
           apply ext_clear_handshakeTimer, ext_refl.
      * destruct (pending_get _ _) as [[id e]|] eqn:E; [|apply ext_refl].
        apply pending_get_In in E as (E & _). cbv zeta.
        destruct (Js.truthy _).
        -- apply ext_push; [now split|]. peel. apply ext_refl.
        -- destruct (error_message _ _); [apply ext_push; [exact I|]|]; peel; apply ext_refl.
  - destruct (Js.is_str _ _); [apply ext_push; [exact I|]|]; apply ext_refl.
Qed.

Lemma ext_step_silent cfg signPayload e w :
  (forall k m uuid now, e <> WsMessage k (Some m) uuid now) ->
  extends (fun e => silent e = true) w (step cfg signPayload e w).
Proof.
  intros Hne. destruct e as [ok| |method params uuid|k|k data uuid now|k|k|t ok]; cbn [step].
  - now apply ext_doConnect, ext_refl.
  - now apply ext_disconnect, ext_refl.
  - now apply ext_call, ext_refl.
  - destruct (readyState_of k w) as [[]|]; try apply ext_refl.
    unfold onopen. do 2 peel. apply ext_set_readyState, ext_refl.
  - destruct data as [m|]; [now destruct (Hne k m uuid now)|].
    destruct (readyState_of k w) as [[]|]; apply ext_refl.
  - apply ext_refl.
  - destruct (readyState_of k w) as [[]|]; try apply ext_refl;
      (apply ext_onclose; [auto|]; apply ext_set_readyState, ext_refl).
  - destruct (timers w !! t); [|apply ext_refl].
    apply ext_fire; [auto|]. peel. apply ext_refl.
Qed.

Lemma ext_step cfg signPayload e w :
  exists l, trace (step cfg signPayload e w) = trace w ++ l
            /\ forall id c payload, In (Resolve id c payload) l ->
                 exists k m uuid now,
                   e = WsMessage k (Some m) uuid now
                   /\ Js.prop (Some m) "id" = Some (JStr id)
                   /\ Js.prop (Some m) "payload" = payload.
Proof.
  assert (Hsilent : (forall k m uuid now, e <> WsMessage k (Some m) uuid now) ->
            exists l, trace (step cfg signPayload e w) = trace w ++ l
              /\ forall id c payload, In (Resolve id c payload) l ->
                   exists k m uuid now,
                     e = WsMessage k (Some m) uuid now
                     /\ Js.prop (Some m) "id" = Some (JStr id)
                     /\ Js.prop (Some m) "payload" = payload).
  { intros Hne. destruct (ext_step_silent cfg signPayload e w Hne) as (l & H & Hl).
    exists l. split; [exact H|]. intros id c payload Hin.
    rewrite List.Forall_forall in Hl. apply Hl in Hin. discriminate Hin. }
  destruct e as [ok| |method params uuid|k|k [m|] uuid now|k|k|t ok];
    try (apply Hsilent; intros; discriminate).
  assert (H : extends (answers m) w (step cfg signPayload (WsMessage k (Some m) uuid now) w)).
  { cbn [step]. destruct (readyState_of k w) as [[]|]; try apply ext_refl;
      unfold onmessage; destruct m; try apply ext_refl; apply ext_route. }
  destruct H as (l & H & Hl). exists l. split; [exact H|].
  intros id c payload Hin. rewrite List.Forall_forall in Hl. apply Hl in Hin.
  destruct Hin as [Hid Hp]. now exists k, m, uuid, now.
Qed.

(** ** Correlation by id (C1) *)

Lemma co_call {Q} used method params id w :
  wf w -> correlated Q used w -> ~ In id used ->
  correlated Q (id :: used) (snd (call method params id w)).
Proof.
  intros Hwf H Hfresh. unfold call, setTimeout.
  destruct (negb (isConnected w)).
  { revert H. apply co_weaken. intros x Hx. now right. }
  cbv beta iota zeta. cbn [snd]. apply co_send.
  apply (co_register used (CallTimeout id method (next_promise w)) CALL_TIMEOUT_MS id
           (CallPromise (next_promise w)) (with_next_promise (S (next_promise w)) w)).
  - assumption.
  - now exists method.
  - now apply wf_with_next_promise.
  - now apply co_with_next_promise.
Qed.

Lemma co_sendConnectRequest {Q} cfg signPayload used nonce id now w :
  wf w -> correlated Q used w -> ~ In id used ->
  correlated Q (id :: used) (_sendConnectRequest cfg signPayload nonce id now w).
Proof.
  intros Hwf H Hfresh. unfold _sendConnectRequest, setTimeout. cbv beta iota zeta.
  pose proof (co_register used (ConnectTimeout id) HANDSHAKE_TIMEOUT_MS id ConnectRequest w
                Hfresh eq_refl Hwf H) as Hr.
  destruct (connectParams cfg signPayload nonce now); [apply co_send|]; exact Hr.
Qed.

Lemma co_take_get {Q} used x id e eff w :
  Q 1%nat ->
  (exists v, eff = Resolve id (cont e) v) \/ (exists err, eff = Reject id (cont e) err) ->
  pending_get x w = Some (id, e) ->
  correlated Q used w -> correlated Q used (push eff (take id e w)).
Proof. intros HQ Heff (_ & _ & Hg)%pending_get_In. now apply co_take_settle. Qed.

Lemma is_false_not_truthy v : Js.is_false v = true -> Js.truthy v = false.
Proof. destruct v as [[| [] | | | |]|]; now cbn. Qed.

(** The [Error] of a rejection is built when the message allows it; when
    it is not, the entry is dropped, which [Q 0] has to allow. *)
Lemma co_take_reject {Q} used x id e m fallback (reject : string -> effect) w :
  Q 1%nat ->
  Q 0%nat \/ error_prints m = true ->
  (forall text, exists err, reject text = Reject id (cont e) err) ->
  pending_get x w = Some (id, e) ->
  correlated Q used w ->
  correlated Q used
    match error_message (Some m) fallback with
    | Some text => push (reject text) (take id e w)
    | None => take id e w
    end.
Proof.
  intros HQ1 HQ0 Hrej Hget H.
  destruct (error_message (Some m) fallback) as [text|] eqn:E.
  - eapply co_take_get; [assumption | right; apply Hrej | eassumption | assumption].
  - destruct HQ0 as [HQ0|Hp].
    + apply pending_get_In in Hget as (_ & _ & Hg). now apply co_take_dropped.
    + destruct (error_prints_message m fallback Hp) as (text & Ht). congruence.
Qed.

Lemma co_route {Q} cfg signPayload used k m uuid now w :
  Q 1%nat ->
  Q 0%nat \/ rejects_cleanly (WsMessage k (Some m) uuid now) = true ->
  wf w -> correlated Q used w -> ~ In uuid used ->
  correlated Q (uuid :: used) (route cfg signPayload k m uuid now w).
Proof.
  intros HQ1 HQ0 Hwf H Hfresh. unfold route. cbv zeta.
  destruct (is_challenge m); [now apply co_sendConnectRequest|].
  apply (co_weaken used); [intros x Hx; now right|].
  destruct (is_response m) eqn:Hres.
  - assert (Hclean : Js.truthy (Js.prop (Some m) "ok") = false ->
                     Q 0%nat \/ error_prints m = true).
    { intros Hok. destruct HQ0 as [HQ0|Hc]; [now left|]. right.
      cbn [rejects_cleanly] in Hc. now rewrite Hres, Hok in Hc. }
    destruct (negb (_handshakeComplete w) && _).
    + assert (Hs0 : correlated Q used
                      (with_serverInfo
                         (or_undefined (Js.prop (Js.prop (Some m) "payload") "server"))
                         (with_connectedAt (Some now)
                            (with_handshakeComplete true (clear_handshakeTimer k w)))))
        by (apply co_with_serverInfo, co_with_connectedAt, co_with_handshakeComplete,
              co_clear_handshakeTimer; assumption).
      destruct (connected_log _ _); [|exact Hs0].
      match goal with |- correlated _ _ match pending_get ?x ?s with _ => _ end =>
        assert (Hs : correlated Q used s) by (apply co_push; [reflexivity | exact Hs0]);
        destruct (pending_get x s) as [[id e]|] eqn:E; [|assumption]
      end.
      eapply co_take_get; [assumption | left; eauto | eassumption | assumption].
    + destruct (negb (_handshakeComplete w) && Js.is_false _) eqn:Hfail.
      * apply andb_true_iff in Hfail as [_ Hok%is_false_not_truthy].
        pose proof (co_clear_handshakeTimer used k w Hwf H) as Hs.
        destruct (pending_get _ _) as [[id e]|] eqn:E; [|now apply co_close_current].
        pose proof (co_take_reject used _ id e m "Handshake failed"
                      (fun text => Reject id (cont e) (Error text)) _
                      HQ1 (Hclean Hok) (fun text => ex_intro _ _ eq_refl) E Hs) as Ht.
        destruct (error_message _ _); [now apply co_close_current | exact Ht].
      * destruct (pending_get _ _) as [[id e]|] eqn:E; [|assumption].
        cbv zeta. destruct (Js.truthy _) eqn:Hok.
        -- eapply co_take_get; [assumption | left; eexists; reflexivity
                               | eassumption | assumption].
        -- apply (co_take_reject used _ id e m "RPC error"
                    (fun text => Reject id (cont e)
                                   {| message := text;
                                      code := Js.prop (Js.prop (Some m) "error") "code";
                                      details := Js.prop (Js.prop (Some m) "error")
                                                   "details" |}) w
                    HQ1 (Hclean eq_refl) (fun text => ex_intro _ _ eq_refl) E H).
  - destruct (Js.is_str _ _); [now apply co_push|]; assumption.
Qed.

Lemma co_step {Q} cfg signPayload used e w :
  Q 1%nat ->
  Q 0%nat \/ rejects_cleanly e = true ->
  wf w -> correlated Q used w ->
  (forall u, In u (uuid_of e) -> ~ In u used) ->
  correlated Q (uuid_of e ++ used) (step cfg signPayload e w).
Proof.
  intros HQ1 HQ0 Hwf H Hfresh.
  destruct e as [ok| |method params uuid|k|k data uuid now|k|k|t ok]; cbn [step uuid_of app].
  - now apply co_doConnect.
  - now apply co_disconnect.
  - apply co_call; auto. apply Hfresh. now left.
  - destruct (readyState_of k w) as [[]|]; try assumption.
    now apply co_onopen, co_set_readyState.
  - assert (Hw : correlated Q (uuid :: used) w)
      by (revert H; apply co_weaken; intros x Hx; now right).
    assert (Hr : forall m, data = Some m ->
                   correlated Q (uuid :: used) (route cfg signPayload k m uuid now w))
      by (intros m ->; apply co_route; auto; apply Hfresh; now left).
    destruct (readyState_of k w) as [[]|]; try assumption;
      unfold onmessage; destruct data as [[]|]; auto.
  - assumption.
  - destruct (readyState_of k w) as [[]|]; try assumption;
      (apply co_onclose; [assumption | now apply wf_set_readyState
                         | now apply co_set_readyState]).
  - destruct (timers w !! t) as [cb|] eqn:E; [|assumption].
    destruct cb as [id method p|id| |]; cbn [fire].
    + pose proof (co_call_timer Q used w H t id method p E) as Hg.
      match goal with |- correlated _ _ (push ?eff _) =>
        change (correlated Q used
                  (push eff (take id {| cont := CallPromise p; timer := t |} w)))
      end.
      apply co_take_settle; eauto.
    + pose proof (co_connect_timer Q used w H t id E) as Hg.
      apply co_close_current.
      change (correlated Q used (take id {| cont := ConnectRequest; timer := t |} w)).
      apply co_take_silent; auto.
    + assert (correlated Q used (clearTimeout t w)).
      { apply co_clear; [|assumption]. intros cb Hcb. rewrite E in Hcb. now injection Hcb as <-. }
      destruct (negb _); [apply co_close_current|]; assumption.
    + apply co_doConnect; [now apply wf_drop_reconnect|].
      apply co_with_reconnectTimer, co_clear; [|assumption].
      intros cb Hcb. rewrite E in Hcb. now injection Hcb as <-.
Qed.

Lemma co_run {Q} cfg signPayload es : forall used w,
  Q 1%nat ->
  Q 0%nat \/ forallb rejects_cleanly es = true ->
  wf w -> correlated Q used w ->
  NoDup (uuids es) -> (forall u, In u (uuids es) -> ~ In u used) ->
  exists used', correlated Q used' (run cfg signPayload es w).
Proof.
  induction es as [|e es IH]; intros used w HQ1 HQ0 Hwf H Hnd Hfresh.
  - now exists used.
  - change (uuids (e :: es)) with (uuid_of e ++ uuids es) in Hnd, Hfresh.
    apply NoDup_app in Hnd as (Hnd1 & Hdisj & Hnd2).
    assert (HQe : Q 0%nat \/ rejects_cleanly e = true)
      by (destruct HQ0 as [|[He _]%andb_true_iff]; auto).
    assert (HQes : Q 0%nat \/ forallb rejects_cleanly es = true)
      by (destruct HQ0 as [|[_ He]%andb_true_iff]; auto).
    apply (IH (uuid_of e ++ used) (step cfg signPayload e w)).
    + assumption.
    + assumption.
    + now apply wf_step.
    + apply co_step; auto. intros u Hu. apply Hfresh, in_or_app. now left.
    + assumption.
    + intros u Hu [Hin|Hin]%in_app_or.
      * apply (Hdisj u); now apply list_elem_of_In.
      * apply (Hfresh u); [apply in_or_app; now right | assumption].
Qed.

Lemma run_app cfg signPayload es1 es2 w :
  run cfg signPayload (es1 ++ es2) w = run cfg signPayload es2 (run cfg signPayload es1 w).
Proof. apply fold_left_app. Qed.

Lemma run_cons cfg signPayload e es w :
  run cfg signPayload (e :: es) w = run cfg signPayload es (step cfg signPayload e w).
Proof. reflexivity. Qed.

Lemma run_extends cfg signPayload es : forall w,
  exists l, trace (run cfg signPayload es w) = trace w ++ l.
Proof.
  induction es as [|e es IH]; intros w.
  - exists []. now rewrite app_nil_r.
  - destruct (ext_step cfg signPayload e w) as (l1 & H1 & _).
    destruct (IH (step cfg signPayload e w)) as (l2 & H2).
    exists (l1 ++ l2). rewrite run_cons, H2, H1, <- app_assoc. reflexivity.
Qed.

Lemma run_resolves cfg signPayload es : forall w id c payload,
  In (Resolve id c payload) (trace (run cfg signPayload es w)) ->
  In (Resolve id c payload) (trace w)
  \/ exists es1 k m uuid now es2,
       es = es1 ++ WsMessage k (Some m) uuid now :: es2
       /\ Js.prop (Some m) "id" = Some (JStr id)
       /\ Js.prop (Some m) "payload" = payload.
Proof.
  induction es as [|e es IH]; intros w id c payload Hin; [now left|].
  rewrite run_cons in Hin.
  apply IH in Hin as [Hin|(es1 & k & m & uuid & now & es2 & -> & Hid & Hp)].
  - destruct (ext_step cfg signPayload e w) as (l & H & Hl).
    rewrite H in Hin. apply in_app_or in Hin as [Hin|Hin]; [now left|].
    apply Hl in Hin as (k & m & uuid & now & -> & Hid & Hp).
    right. now exists [], k, m, uuid, now, es.
  - right. now exists (e :: es1), k, m, uuid, now, es2.
Qed.

Section Correlation.

Variable cfg : config.
Variable signPayload : string -> string -> option string.

(** X12.  In a run that draws each identifier once, take a call that
    registers [id]: [call] is invoked while the client is ready.  At the
    end of the run, either the id is still in the table, no continuation
    of it was invoked, and its deadline timer is armed, so that the
    timeout, when it fires, is the one invocation; or the id has left the
    table and at most one continuation of it was invoked, exactly one
    when the run has no response whose rejection throws while its
    [Error] is built.  And whenever a continuation is resolved, the
    payload is that of a response frame of the run whose [id] is the id
    of the entry. *)
Theorem calls_settle_at_most_once es1 method params id es2 :
  let es := es1 ++ ApiCall method params id :: es2 in
  NoDup (uuids es) ->
  isConnected (run cfg signPayload es1 init) = true ->
  let p := next_promise (run cfg signPayload es1 init) in
  let w := run cfg signPayload es init in
  match JsMap.get id (_pending w) with
  | Some e =>
      settled id (trace w) = 0%nat
      /\ e = {| cont := CallPromise p; timer := timer e |}
      /\ timers w !! timer e = Some (CallTimeout id method p)
      /\ forall ok,
           let w' := step cfg signPayload (TimerFires (timer e) ok) w in
           settled id (trace w') = 1%nat /\ JsMap.get id (_pending w') = None
  | None =>
      (settled id (trace w) <= 1)%nat
      /\ (forallb rejects_cleanly es = true -> settled id (trace w) = 1%nat)
  end
  /\ forall id' c payload,
       In (Resolve id' c payload) (trace w) ->
       exists esa k m uuid now esb,
         es = esa ++ WsMessage k (Some m) uuid now :: esb
         /\ Js.prop (Some m) "id" = Some (JStr id')
         /\ Js.prop (Some m) "payload" = payload.
Proof.
  intros es Hnd Hready p w. subst p. split.
  - set (w0 := run cfg signPayload es1 init) in *.
    assert (Hreg : In (SetTimeout (next_timer w0) (CallTimeout id method (next_promise w0))
                         CALL_TIMEOUT_MS) (trace w)).
    { unfold w, es. rewrite run_app, run_cons. fold w0.
      destruct (run_extends cfg signPayload es2
                  (step cfg signPayload (ApiCall method params id) w0)) as (l & ->).
      apply in_or_app. left. cbn [step].
      apply (call_arms_timer method params id w0 Hready). }
    destruct (co_run (Q := fun n => (n <= 1)%nat) cfg signPayload es [] init
                (le_n 1) (or_introl (le_S 0 0 (le_n 0))) wf_init co_init Hnd)
      as (used & Hco); [intros u _ []|].
    fold w in Hco.
    pose proof (co_registered _ used w Hco _ _ _ _ _ Hreg) as Hr.
    destruct (JsMap.get id (_pending w)) as [e|] eqn:Hg.
    + destruct Hr as [-> Ht]. cbn [timer].
      destruct (co_pending _ used w Hco id _ Hg) as [_ Hs].
      split; [exact Hs|]. split; [reflexivity|]. split; [exact Ht|].
      intros ok.
      pose proof (call_timer_fires cfg signPayload _ _ _ _ ok w Ht) as Hfire.
      cbv zeta in Hfire. destruct Hfire as (Htr & Hnone & _).
      cbv zeta. split; [|exact Hnone].
      rewrite Htr, settled_snoc, Hs. cbn. now rewrite String.eqb_refl.
    + split; [exact Hr|]. intros Hclean.
      destruct (co_run (Q := fun n => n = 1%nat) cfg signPayload es [] init
                  eq_refl (or_intror Hclean) wf_init co_init Hnd)
        as (used' & Hco'); [intros u _ []|].
      fold w in Hco'.
      pose proof (co_registered _ used' w Hco' _ _ _ _ _ Hreg) as Hr'.
      now rewrite Hg in Hr'.
  - intros id' c payload Hin.
    apply run_resolves in Hin as [[]|H]. exact H.
Qed.

End Correlation.

Lemma sample_handshake_ready :
  isConnected (run Sample.token_cfg Sample.sign Sample.handshake init) = true.
Proof. vm_compute. reflexivity. Qed.

Lemma sample_uuids_distinct :
  NoDup (uuids (Sample.handshake
                ++ ApiCall "sessions.list" (JObj []) "c1"
                   :: [WsMessage 0 (Some (Sample.response "c1" true [])) "u2" 3000])).
Proof. refine (bool_decide_unpack _ _). vm_compute. exact I. Qed.

(** A call on a ready client is answered by a response under its id. *)
Lemma calls_settle_at_most_once_witness :
  settled "c1"
    (trace (run Sample.token_cfg Sample.sign
              (Sample.handshake
               ++ ApiCall "sessions.list" (JObj []) "c1"
                  :: [WsMessage 0 (Some (Sample.response "c1" true [])) "u2" 3000]) init))
  = 1%nat.
Proof.
  destruct (calls_settle_at_most_once Sample.token_cfg Sample.sign
              Sample.handshake "sessions.list" (JObj []) "c1"
              [WsMessage 0 (Some (Sample.response "c1" true [])) "u2" 3000]
              sample_uuids_distinct sample_handshake_ready) as [H _].
  assert (E : JsMap.get "c1"
                (_pending
                   (run Sample.token_cfg Sample.sign
                      (Sample.handshake
                       ++ ApiCall "sessions.list" (JObj []) "c1"
                          :: [WsMessage 0 (Some (Sample.response "c1" true [])) "u2" 3000])
                      init)) = None)
    by (vm_compute; reflexivity).
  rewrite E in H. apply (proj2 H). vm_compute. reflexivity.
Defined.

(** C1, at the failing input.  A call is pending on the ready client and
    the gateway answers it with [ok: false] and an error whose [message]
    is an object with a key [toString]:
    [{"type":"res","id":"c1","ok":false,"error":{"message":{"toString":1}}}].
    The handler clears the deadline of the call and deletes its entry, and
    then [new Error] throws: no continuation of the call is invoked, by
    this response or by anything after it, the close of the socket
    included. *)
Theorem unprintable_error_orphans_the_call :
  let run := run Sample.token_cfg Sample.sign in
  let m := JObj [("type", JStr "res"); ("id", JStr "c1"); ("ok", JBool false);
                 ("error", JObj [("message", JObj [("toString", JNum 1)])])] in
  let w0 := run (Sample.handshake ++ [ApiCall "sessions.list" (JObj []) "c1"]) init in
  let w := run [WsMessage 0 (Some m) "u2" 3000] w0 in
  isConnected (run Sample.handshake init) = true
  /\ JsMap.get "c1" (_pending w0) = Some {| cont := CallPromise 0; timer := 2 |}
  /\ timers w0 !! 2%nat = Some (CallTimeout "c1" "sessions.list" 0)
  /\ error_message (Some m) "RPC error" = None
  /\ JsMap.get "c1" (_pending w) = None
  /\ timers w = ∅
  /\ trace w = trace w0
  /\ settled "c1" (trace w) = 0%nat
  /\ settled "c1" (trace (run [WsClose 0; TimerFires 2 true] w)) = 0%nat.
Proof. vm_compute. repeat split. Qed.

(** * Further properties *)

(** ** The invariant [steady] *)

Lemma lifecycle_app up a b :
  lifecycle up (a ++ b)
  = match lifecycle up a with
    | Some u => lifecycle u b
    | None => None
    end.
Proof.
  revert up. induction a as [|e a IH]; intros up; [reflexivity|].
  cbn [app lifecycle]. destruct (lifecycle_event e) as [[]|]; [apply IH | | apply IH].
  destruct up; [apply IH | reflexivity].
Qed.

Lemma lifecycle_plain up l : Forall (fun e => plain e = true) l -> lifecycle up l = Some up.
Proof.
  induction 1 as [|e l He _ IH]; [reflexivity|]. cbn [lifecycle].
  unfold plain in He.
  destruct e as [| | |t cb d|name arg| |]; try exact IH.
  destruct (lifecycle_event (Emit name arg)); [discriminate He | exact IH].
Qed.

Lemma reconnect_delays_plain l :
  Forall (fun e => plain e = true) l -> reconnect_delays l = [].
Proof.
  induction 1 as [|e l He _ IH]; [reflexivity|].
  destruct e as [| | |t cb d|name arg| |]; try exact IH.
  destruct cb; try exact IH. discriminate He.
Qed.

Lemma in_backoff_range_next d :
  in_backoff_range d -> in_backoff_range (Z.min (d * 2) RECONNECT_MAX_MS).
Proof. unfold in_backoff_range, RECONNECT_BASE_MS, RECONNECT_MAX_MS. lia. Qed.

Lemma steady_init {strict} : steady strict init.
Proof.
  constructor; unfold init; fields.
  - unfold in_backoff_range, RECONNECT_BASE_MS, RECONNECT_MAX_MS. lia.
  - constructor.
  - discriminate.
  - intros k s. now rewrite lookup_nil.
  - intros _. exists false. split; [reflexivity | discriminate].
  - discriminate.
Qed.

(** [steady] reads the reconnect delay, the current socket, the sockets,
    the flag, the timestamp, and two projections of the trace. *)
Lemma steady_ext {strict} w w' :
  _reconnectDelay w' = _reconnectDelay w ->
  reconnect_delays (trace w') = reconnect_delays (trace w) ->
  lifecycle false (trace w') = lifecycle false (trace w) ->
  _ws w' = _ws w -> sockets w' = sockets w ->
  _handshakeComplete w' = _handshakeComplete w ->
  _connectedAt w' = _connectedAt w ->
  steady strict w -> steady strict w'.
Proof.
  intros Hd Hds Hl Hw Hs Hh Hc [H1 H2 H3 H4 H5 H6].
  constructor; rewrite ?Hd, ?Hds, ?Hl, ?Hw, ?Hs, ?Hh, ?Hc; auto.
Qed.

(** Effects that are [plain] are added to the trace. *)
Lemma steady_more {strict} l w :
  Forall (fun e => plain e = true) l -> steady strict w -> steady strict (with_trace (trace w ++ l) w).
Proof.
  intros Hl. apply steady_ext; fields; try reflexivity.
  - now rewrite reconnect_delays_app, (reconnect_delays_plain l Hl), app_nil_r.
  - rewrite lifecycle_app. destruct (lifecycle false (trace w)); [|reflexivity].
    now apply lifecycle_plain.
Qed.

Lemma steady_push {strict} e w : plain e = true -> steady strict w -> steady strict (push e w).
Proof. intros He. apply (steady_more [e]). now constructor. Qed.

Lemma steady_with_connected {strict} b w : steady strict w -> steady strict (with_connected b w).
Proof. now apply steady_ext. Qed.

Lemma steady_with_pending {strict} v w : steady strict w -> steady strict (with_pending v w).
Proof. now apply steady_ext. Qed.

Lemma steady_with_reconnectTimer {strict} v w : steady strict w -> steady strict (with_reconnectTimer v w).
Proof. now apply steady_ext. Qed.

Lemma steady_with_serverInfo {strict} v w : steady strict w -> steady strict (with_serverInfo v w).
Proof. now apply steady_ext. Qed.

Lemma steady_with_next_promise {strict} v w : steady strict w -> steady strict (with_next_promise v w).
Proof. now apply steady_ext. Qed.

Lemma steady_with_timers {strict} v w : steady strict w -> steady strict (with_timers v w).
Proof. now apply steady_ext. Qed.

Lemma steady_with_next_timer {strict} v w : steady strict w -> steady strict (with_next_timer v w).
Proof. now apply steady_ext. Qed.

Lemma steady_clearTimeout {strict} t w : steady strict w -> steady strict (clearTimeout t w).
Proof. now apply steady_ext. Qed.

Lemma steady_take {strict} id e w : steady strict w -> steady strict (take id e w).
Proof. now apply steady_ext. Qed.

Lemma steady_clear_handshakeTimer {strict} k w : steady strict w -> steady strict (clear_handshakeTimer k w).
Proof.
  unfold clear_handshakeTimer. destruct (sockets w !! k); [apply steady_clearTimeout | auto].
Qed.

Lemma steady_send {strict} f w : steady strict w -> steady strict (_send f w).
Proof.
  intros H. destruct (send_same f w) as (l & -> & [->|(k & _ & ->)]).
  - rewrite app_nil_r, with_trace_same. assumption.
  - now apply (steady_push (Send k f)).
Qed.

Lemma steady_with_handshakeComplete_false {strict} w :
  steady strict w -> steady strict (with_handshakeComplete false w).
Proof.
  intros [H1 H2 H3 H4 H5 H6]. constructor; fields; auto; try discriminate.
  intros Hb. destruct (H5 Hb) as (up & Hup & _). exists up.
  split; [assumption | discriminate].
Qed.

Lemma steady_with_reconnectDelay_base {strict} w :
  steady strict w -> steady strict (with_reconnectDelay RECONNECT_BASE_MS w).
Proof.
  intros [H1 H2 H3 H4 H5 H6]. constructor; fields; auto.
  unfold in_backoff_range, RECONNECT_BASE_MS, RECONNECT_MAX_MS. lia.
Qed.

(** A socket changes its [readyState]: it is the current one, or it stops
    being live. *)
Lemma steady_set_readyState {strict} k r w :
  live r = false \/ _ws w = Some k -> steady strict w -> steady strict (set_readyState k r w).
Proof.
  intros Hr [H1 H2 H3 H4 H5 H6]. unfold set_readyState.
  destruct (sockets w !! k) as [s0|] eqn:E; [|now constructor].
  constructor; fields; auto.
  - intros j Hj. rewrite length_insert. auto.
  - intros j s [(-> & <- & _)|[Hne Hj]]%list_lookup_insert_Some Hcur; [|eauto].
    cbn [readyState]. destruct Hr as [Hr|Hr]; [assumption | congruence].
Qed.

Lemma steady_ws_close {strict} k w : steady strict w -> steady strict (ws_close k w).
Proof.
  intros H. rewrite ws_close_shape.
  apply (steady_push (Close k)) in H; [|reflexivity].
  destruct H as [H1 H2 H3 H4 H5 H6]. constructor; fields; fields in H3; fields in H4; auto.
  - intros j Hj. rewrite close_socket_length. auto.
  - intros j s Hj Hcur. rewrite close_socket_lookup in Hj.
    destruct (sockets w !! j) as [s0|] eqn:E; [|discriminate]. cbn in Hj.
    injection Hj as <-. destruct (decide (j = k)).
    + cbn [readyState]. now destruct (readyState s0).
    + eauto.
Qed.

Lemma steady_close_current {strict} w : steady strict w -> steady strict (close_current w).
Proof. unfold close_current. destruct (_ws w); [apply steady_ws_close | auto]. Qed.

(** Once the current socket is told to close, no socket is live. *)
Lemma closed_current_not_live {strict} w j s :
  steady strict w -> closed_current w !! j = Some s -> live (readyState s) = false.
Proof.
  intros H. unfold closed_current. destruct (_ws w) as [k|] eqn:E.
  - rewrite close_socket_lookup. destruct (sockets w !! j) as [s0|] eqn:Ej; [|discriminate].
    cbn. intros [= <-]. destruct (decide (j = k)) as [->|Hne].
    + cbn [readyState]. now destruct (readyState s0).
    + apply (st_others _ w H j s0 Ej). congruence.
  - intros Hj. apply (st_others _ w H j s Hj). congruence.
Qed.

(** [if (this._ws) { this._ws.close(); this._ws = null; }]. *)
Lemma close_and_forget_shape w :
  match _ws w with
  | Some k => with_ws None (ws_close k w)
  | None => w
  end
  = with_ws None (with_sockets (closed_current w) (with_trace (trace w ++ closes w) w)).
Proof.
  unfold closed_current, closes. destruct (_ws w) as [k|] eqn:E.
  - now rewrite ws_close_shape.
  - rewrite app_nil_r. destruct w; cbn in *. now subst.
Qed.

Lemma steady_close_and_forget {strict} w :
  steady strict w ->
  steady strict (with_ws None (with_sockets (closed_current w) (with_trace (trace w ++ closes w) w))).
Proof.
  intros H.
  assert (Hp : Forall (fun e => plain e = true) (closes w))
    by (unfold closes; destruct (_ws w); repeat constructor).
  pose proof (steady_more _ w Hp H) as [H1 H2 H3 H4 H5 H6].
  constructor; fields; fields in H5; fields in H6; auto.
  - discriminate.
  - intros j s Hj _. eapply closed_current_not_live; eauto.
Qed.

Lemma steady_scheduleReconnect {strict} w : steady strict w -> steady strict (_scheduleReconnect w).
Proof.
  intros H. rewrite scheduleReconnect_shape. destruct (_reconnectTimer w); [assumption|].
  destruct H as [H1 H2 H3 H4 H5 H6]. constructor; fields; auto.
  - now apply in_backoff_range_next.
  - rewrite reconnect_delays_app. apply Forall_app. split; [assumption|].
    cbn. now constructor.
  - intros Hb. destruct (H5 Hb) as (up & Hup & Hh). exists up.
    rewrite lifecycle_app, Hup. now split.
Qed.

Lemma steady_doConnect {strict} ok w : steady strict w -> steady strict (_doConnect ok w).
Proof.
  intros H. pose proof (steady_close_and_forget w H) as Hc. destruct ok.
  - rewrite doConnect_true_shape.
    assert (Hp : Forall (fun e => plain e = true)
                   (closes w ++ [NewWebSocket (length (sockets w));
                                 SetTimeout (next_timer w) HandshakeTimeout
                                   HANDSHAKE_TIMEOUT_MS])).
    { apply Forall_app. split; [|repeat constructor].
      unfold closes. destruct (_ws w); repeat constructor. }
    pose proof (steady_more _ w Hp H) as [H1 H2 H3 H4 H5 H6].
    constructor; fields; fields in H5; fields in H6; auto.
    + intros k [= <-]. rewrite length_app, closed_current_length. cbn. lia.
    + intros j s [[_ Hj]|[-> _]]%lookup_snoc_Some Hcur.
      * eapply closed_current_not_live; eauto.
      * rewrite closed_current_length in Hcur. congruence.
  - rewrite doConnect_false_shape. now apply steady_scheduleReconnect.
Qed.

Lemma steady_disconnect {strict} w : steady strict w -> steady strict (disconnect w).
Proof.
  intros H. unfold disconnect.
  apply steady_with_handshakeComplete_false, steady_with_connected.
  assert (H' : steady strict match _reconnectTimer w with
                      | Some t => with_reconnectTimer None (clearTimeout t w)
                      | None => w
                      end).
  { destruct (_reconnectTimer w); [|assumption].
    now apply steady_with_reconnectTimer, steady_clearTimeout. }
  revert H'. generalize (match _reconnectTimer w with
                         | Some t => with_reconnectTimer None (clearTimeout t w)
                         | None => w
                         end). intros w1 H1.
  rewrite close_and_forget_shape. now apply steady_close_and_forget.
Qed.

Lemma steady_call {strict} method params id w : steady strict w -> steady strict (snd (call method params id w)).
Proof.
  intros H. unfold call, setTimeout. destruct (negb (isConnected w)); [assumption|].
  cbv beta iota zeta. cbn [snd]. apply steady_send, steady_with_pending.
  apply steady_push; [reflexivity|].
  now apply steady_with_next_timer, steady_with_timers, steady_with_next_promise.
Qed.

Lemma steady_sendConnectRequest {strict} cfg signPayload nonce id now w :
  steady strict w -> steady strict (_sendConnectRequest cfg signPayload nonce id now w).
Proof.
  intros H. unfold _sendConnectRequest, setTimeout. cbv beta iota zeta.
  assert (H' : steady strict
                 (with_pending
                    (JsMap.set id {| cont := ConnectRequest; timer := next_timer w |}
                       (_pending w))
                    (push (SetTimeout (next_timer w) (ConnectTimeout id) HANDSHAKE_TIMEOUT_MS)
                       (with_next_timer (S (next_timer w))
                          (with_timers (<[next_timer w:=ConnectTimeout id]> (timers w)) w))))).
  { apply steady_with_pending, steady_push; [reflexivity|].
    now apply steady_with_next_timer, steady_with_timers. }
  destruct (connectParams cfg signPayload nonce now); [apply steady_send|]; exact H'.
Qed.

(** The fields the [hello-ok] branch sets before it logs. *)
Lemma steady_hello {strict} v now w :
  steady false w -> strict = false ->
  steady strict
    (with_serverInfo v (with_connectedAt (Some now) (with_handshakeComplete true w))).
Proof.
  intros [H1 H2 H3 H4 H5 H6] ->. constructor; fields; auto; discriminate.
Qed.

(** The [hello-ok] branch up to its notification. *)
Lemma steady_connected {strict} payload v now w :
  steady strict w ->
  steady strict
    (push (Emit "connected" payload)
       (with_serverInfo v
          (with_connectedAt (Some now) (with_handshakeComplete true w)))).
Proof.
  intros [H1 H2 H3 H4 H5 H6]. constructor; fields; auto.
  - rewrite reconnect_delays_app. cbn. now rewrite app_nil_r.
  - intros Hb. destruct (H5 Hb) as (up & Hup & _). exists true.
    rewrite lifecycle_app, Hup. split; reflexivity.
Qed.

Lemma steady_relax {strict} w : steady strict w -> steady false w.
Proof. intros [H1 H2 H3 H4 H5 H6]. constructor; auto. discriminate. Qed.

Lemma steady_route {strict} cfg signPayload k m uuid now w :
  (strict = true -> announces_cleanly (WsMessage k (Some m) uuid now) = true) ->
  steady strict w -> steady strict (route cfg signPayload k m uuid now w).
Proof.
  intros Hclean H. unfold route. cbv zeta.
  destruct (is_challenge m); [now apply steady_sendConnectRequest|].
  destruct (is_response m) eqn:Hres.
  - destruct (negb (_handshakeComplete w) && Js.is_str _ _) eqn:Hhello.
    + fields.
      destruct (connected_log _ _) eqn:Hlog.
      * match goal with |- steady _ match pending_get ?x ?s with _ => _ end =>
          assert (Hs : steady strict s)
            by (apply steady_connected, steady_clear_handshakeTimer, H);
          destruct (pending_get x s) as [[id e]|]; [|assumption]
        end.
        apply steady_push; [reflexivity|]. now apply steady_take.
      * apply steady_hello; [eapply steady_relax, steady_clear_handshakeTimer, H|].
        destruct strict; [|reflexivity]. specialize (Hclean eq_refl).
        apply andb_true_iff in Hhello as [_ Hhello].
        cbn [announces_cleanly] in Hclean. rewrite Hres, Hhello in Hclean.
        unfold logs_cleanly in Hclean. cbn [andb negb orb] in Hclean.
        now rewrite Hlog in Hclean.
    + destruct (negb (_handshakeComplete w) && Js.is_false _).
      * pose proof (steady_clear_handshakeTimer k w H) as Hs.
        destruct (pending_get _ _) as [[id e]|]; [|now apply steady_close_current].
        destruct (error_message _ _); [|now apply steady_take].
        apply steady_close_current, steady_push; [reflexivity|]. now apply steady_take.
      * destruct (pending_get _ _) as [[id e]|]; [|assumption].
        cbv zeta. destruct (Js.truthy _);
          [|destruct (error_message _ _); [|now apply steady_take]];
          (apply steady_push; [reflexivity|]); now apply steady_take.
  - destruct (Js.is_str _ _); [|assumption].
    apply steady_push; [|assumption].
    unfold plain, lifecycle_event. reflexivity.
Qed.

Lemma steady_onmessage {strict} cfg signPayload k data uuid now w :
  (strict = true -> announces_cleanly (WsMessage k data uuid now) = true) ->
  steady strict w -> steady strict (onmessage cfg signPayload k data uuid now w).
Proof.
  intros Hclean H. unfold onmessage.
  destruct data as [[]|]; try assumption; now apply steady_route.
Qed.

Lemma rejections_plain l : Forall (fun e => plain e = true) (map closed_rejection l).
Proof. induction l; constructor; auto. Qed.

Lemma reject_each_flags (l : list (string * entry)) w :
  let w' :=
    fold_left
      (fun w (ie : string * entry) =>
         push (Reject (fst ie) (cont (snd ie)) (Error "Gateway connection closed"))
           (clearTimeout (timer (snd ie)) w)) l w in
  _handshakeComplete w' = _handshakeComplete w /\ _connectedAt w' = _connectedAt w
  /\ _connected w' = _connected w /\ _serverInfo w' = _serverInfo w.
Proof.
  revert w. induction l as [|ie l IH]; intros w; cbn; [tauto|].
  apply (IH (push (Reject (fst ie) (cont (snd ie)) (Error "Gateway connection closed"))
               (clearTimeout (timer (snd ie)) w))).
Qed.

Lemma reject_all_flags w :
  _handshakeComplete (reject_all w) = _handshakeComplete w
  /\ _connectedAt (reject_all w) = _connectedAt w
  /\ _connected (reject_all w) = _connected w
  /\ _serverInfo (reject_all w) = _serverInfo w.
Proof. apply (reject_each_flags (_pending w) w). Qed.

Lemma steady_onclose {strict} k w : steady strict w -> steady strict (onclose k w).
Proof.
  intros H. unfold onclose. apply steady_scheduleReconnect.
  pose proof (steady_clear_handshakeTimer k w H) as H0.
  set (w0 := clear_handshakeTimer k w) in *.
  set (w1 := with_serverInfo None
               (with_connectedAt None
                  (with_handshakeComplete false (with_connected false w0)))).
  destruct (reject_all_fields w1) as (Htr & _ & _ & Hd & _ & Hs & Hw).
  destruct (reject_all_flags w1) as (Hh & Hc & _).
  destruct H0 as [H1 H2 H3 H4 H5 H6].
  assert (Hds : reconnect_delays (trace (reject_all w1)) = reconnect_delays (trace w0)).
  { rewrite Htr, reconnect_delays_app, (reconnect_delays_plain _ (rejections_plain _)).
    now rewrite app_nil_r. }
  assert (Hl : lifecycle false (trace (reject_all w1)) = lifecycle false (trace w0)).
  { rewrite Htr, lifecycle_app. unfold w1 at 1. fields.
    destruct (lifecycle false (trace w0)); [|reflexivity].
    apply lifecycle_plain, rejections_plain. }
  destruct (_handshakeComplete w0) eqn:Eh; constructor; fields;
    rewrite ?Hd, ?Hs, ?Hw, ?Hh, ?Hc, ?reconnect_delays_app, ?Hds, ?lifecycle_app, ?Hl;
    unfold w1; fields;
    auto; try discriminate.
  - cbn. now rewrite app_nil_r.
  - intros Hb. destruct (H5 Hb) as (up & Hup & Hu). rewrite Hup, (Hu eq_refl).
    exists false. split; [reflexivity | discriminate].
Qed.

Lemma steady_fire {strict} cb ok w : steady strict w -> steady strict (fire cb ok w).
Proof.
  intros H. destruct cb; cbn [fire].
  - apply steady_push; [reflexivity|]. now apply steady_with_pending.
  - now apply steady_close_current, steady_with_pending.
  - destruct (negb _); [apply steady_close_current|]; assumption.
  - now apply steady_doConnect, steady_with_reconnectTimer.
Qed.

Lemma steady_step {strict} cfg signPayload e w :
  (strict = true -> announces_cleanly e = true) ->
  steady strict w -> steady strict (step cfg signPayload e w).
Proof.
  intros Hclean H. destruct e as [ok| |method params uuid|k|k data uuid now|k|k|t ok]; cbn [step].
  - now apply steady_doConnect.
  - now apply steady_disconnect.
  - now apply steady_call.
  - destruct (readyState_of k w) as [[]|] eqn:E; try assumption.
    unfold onopen. apply steady_with_reconnectDelay_base, steady_with_connected.
    apply steady_set_readyState; [|assumption]. right.
    unfold readyState_of in E. destruct (sockets w !! k) as [s|] eqn:Ek; [|discriminate].
    cbn in E. injection E as E.
    destruct (decide (_ws w = Some k)) as [|Hne]; [assumption|].
    pose proof (st_others _ w H k s Ek Hne) as Hl. rewrite E in Hl. discriminate.
  - destruct (readyState_of k w) as [[]|]; try assumption; now apply steady_onmessage.
  - assumption.
  - destruct (readyState_of k w) as [[]|]; try assumption;
      (apply steady_onclose, steady_set_readyState; [now left | assumption]).
  - destruct (timers w !! t); [|assumption]. now apply steady_fire, steady_clearTimeout.
Qed.

Lemma steady_run {strict} cfg signPayload es : forall w,
  (strict = true -> forallb announces_cleanly es = true) ->
  steady strict w -> steady strict (run cfg signPayload es w).
Proof.
  induction es as [|e es IH]; intros w Hclean H; [assumption|].
  rewrite run_cons. apply IH.
  - intros Hb. now apply Hclean, andb_true_iff in Hb.
  - apply steady_step; [|assumption].
    intros Hb. now apply Hclean, andb_true_iff in Hb.
Qed.

(** What holds in every run. *)
Lemma steady_reached cfg signPayload es : steady false (run cfg signPayload es init).
Proof. apply steady_run; [discriminate | apply steady_init]. Qed.

(** ** Reconnect delays *)

(** X1.  In every run of the client, the delay kept for the next reconnect
    and every delay a reconnect timer was armed with lie between
    [RECONNECT_BASE_MS] (1000 ms) and [RECONNECT_MAX_MS] (30000 ms). *)
Theorem reconnect_delays_stay_in_range cfg signPayload es :
  let w := run cfg signPayload es init in
  in_backoff_range (_reconnectDelay w)
  /\ Forall in_backoff_range (reconnect_delays (trace w)).
Proof.
  intros w. pose proof (steady_reached cfg signPayload es) as H.
  split; [apply (st_delay _ _ H) | apply (st_delays _ _ H)].
Qed.

(** ** Sockets *)

Lemma steady_live_current {strict} w k r :
  steady strict w -> readyState_of k w = Some r -> live r = true -> _ws w = Some k.
Proof.
  intros H. unfold readyState_of. destruct (sockets w !! k) as [s|] eqn:E; [|discriminate].
  cbn. intros [= <-] Hl. destruct (decide (_ws w = Some k)) as [|Hne]; [assumption|].
  rewrite (st_others _ w H k s E Hne) in Hl. discriminate.
Qed.

(** X2.  In every run, a socket that is connecting or open is the one the
    client holds in [_ws]: every socket the client has replaced or dropped
    is closing or closed, so no two sockets are live at once. *)
Theorem live_socket_is_current cfg signPayload es k r :
  let w := run cfg signPayload es init in
  readyState_of k w = Some r -> live r = true -> _ws w = Some k.
Proof.
  intros w. apply (steady_live_current (strict := false)), steady_reached.
Qed.

(** After the handshake socket 0 is open, and it is the current one. *)
Lemma live_socket_is_current_witness : _ws Sample.ready = Some 0%nat.
Proof.
  apply (live_socket_is_current Sample.token_cfg Sample.sign Sample.handshake 0%nat OPEN);
    vm_compute; reflexivity.
Defined.

(** ** Lifecycle notifications *)

(** X3.  In a run whose [hello-ok] responses all have a log line that
    can be built, the "connected" and "disconnected" notifications are
    well ordered: a "disconnected" always follows a "connected" with no
    other "disconnected" between them, and while the handshake is complete
    the last notification is "connected". *)
Theorem lifecycle_notifications_are_ordered cfg signPayload es :
  forallb announces_cleanly es = true ->
  let w := run cfg signPayload es init in
  lifecycle false (trace w) = Some true
  \/ (lifecycle false (trace w) = Some false /\ _handshakeComplete w = false).
Proof.
  intros Hclean w.
  assert (H : steady true w) by (apply steady_run; [auto | apply steady_init]).
  destruct (st_lifecycle _ _ H eq_refl) as ([] & Hup & Hh); [now left|].
  right. split; [assumption|].
  destruct (_handshakeComplete w); [now specialize (Hh eq_refl) | reflexivity].
Qed.

(** The sample: connected, then the socket closes. *)
Lemma lifecycle_notifications_are_ordered_witness :
  let w := run Sample.token_cfg Sample.sign (Sample.handshake ++ [WsClose 0]) init in
  lifecycle false (trace w) = Some true
  \/ (lifecycle false (trace w) = Some false /\ _handshakeComplete w = false).
Proof.
  apply (lifecycle_notifications_are_ordered Sample.token_cfg Sample.sign
           (Sample.handshake ++ [WsClose 0])).
  vm_compute. reflexivity.
Defined.

(** ** [status()] *)

(** X4.  In every run, when [status()] reports [connected: true] it also
    reports the time of the handshake in [connectedAt], and [uptime] is the
    time elapsed since then. *)
Theorem status_connected_has_timestamp cfg signPayload es now :
  let w := run cfg signPayload es init in
  connected (status now w) = true ->
  exists t, connectedAt (status now w) = Some t
            /\ uptime (status now w) = if Z.eqb t 0 then 0 else now - t.
Proof.
  intros w Hc. pose proof (steady_reached cfg signPayload es) as H.
  fold w in H. unfold status in *. cbn [connected connectedAt uptime] in *.
  unfold isConnected in Hc. apply andb_true_iff in Hc as [_ Hh].
  pose proof (st_connectedAt _ w H Hh) as Hat.
  destruct (_connectedAt w) as [t|]; [|congruence]. now exists t.
Qed.

(** The handshake of the sample ended at time 2000. *)
Lemma status_connected_has_timestamp_witness :
  exists t, connectedAt (status 5000 Sample.ready) = Some t
            /\ uptime (status 5000 Sample.ready) = if Z.eqb t 0 then 0 else 5000 - t.
Proof.
  apply (status_connected_has_timestamp Sample.token_cfg Sample.sign Sample.handshake 5000).
  vm_compute. reflexivity.
Defined.

Lemma status_scheduleReconnect now w : status now (_scheduleReconnect w) = status now w.
Proof. rewrite scheduleReconnect_shape. now destruct (_reconnectTimer w). Qed.

(** What the close handler leaves in the fields it resets, and the
    sockets, which it does not touch. *)
Lemma onclose_flags k w :
  _connected (onclose k w) = false /\ _handshakeComplete (onclose k w) = false
  /\ _connectedAt (onclose k w) = None /\ _serverInfo (onclose k w) = None
  /\ _pending (onclose k w) = []
  /\ sockets (onclose k w) = sockets w /\ _ws (onclose k w) = _ws w.
Proof.
  unfold onclose. rewrite scheduleReconnect_shape.
  destruct (clear_handshakeTimer_fields k w) as (_ & _ & _ & _ & _ & _ & Hs0 & Hw0).
  set (w0 := clear_handshakeTimer k w) in *.
  set (w1 := with_serverInfo None
               (with_connectedAt None
                  (with_handshakeComplete false (with_connected false w0)))).
  destruct (reject_all_flags w1) as (Hh & Hc & Hn & Hs).
  destruct (reject_all_fields w1) as (_ & _ & Hr & _ & _ & Hso & Hw).
  assert (Hr' : _reconnectTimer (reject_all w1) = _reconnectTimer w0) by now rewrite Hr.
  destruct (_handshakeComplete w0); fields; rewrite Hr';
    destruct (_reconnectTimer w0); fields; rewrite Hh, Hc, Hn, Hs, Hso, Hw; unfold w1; fields;
    rewrite Hs0, Hw0; repeat split.
Qed.

(** X5.  Whatever the state, right after the close handler of a socket
    has run, [status()] reports [connected: false], no [connectedAt], an
    [uptime] of 0, no [server] and no pending call. *)
Theorem status_after_close k w now :
  status now (onclose k w)
  = {| connected := false; connectedAt := None; uptime := 0; server := None;
       pendingCalls := 0 |}.
Proof.
  destruct (onclose_flags k w) as (Hc & Hh & Hat & Hs & Hp & _).
  unfold status, isConnected. now rewrite Hc, Hh, Hat, Hs, Hp.
Qed.

(** X6.  [disconnect()] settles no call: the table of pending calls is
    left as it is and the one effect is the [close()] of the current
    socket, if there is one.  Afterwards the client holds no socket and no
    reconnect timer, and [status()] reports [connected: false] with
    [connectedAt], [uptime], [server] and [pendingCalls] as before. *)
Theorem disconnect_settles_nothing w now :
  let w' := disconnect w in
  _pending w' = _pending w
  /\ trace w' = trace w ++ closes w
  /\ _ws w' = None /\ _reconnectTimer w' = None
  /\ status now w'
     = {| connected := false; connectedAt := connectedAt (status now w);
          uptime := uptime (status now w); server := server (status now w);
          pendingCalls := pendingCalls (status now w) |}.
Proof.
  intros w'. subst w'. unfold disconnect, closes, status, isConnected.
  destruct (_reconnectTimer w) as [t|] eqn:Et; destruct (_ws w) as [k|] eqn:Ek;
    fields; rewrite ?Ek, ?Et, ?ws_close_shape; fields; rewrite ?app_nil_r, ?Et;
    repeat split; assumption.
Qed.

(** ** Round trips through the table of pending calls *)

Lemma delete_set_eq {V} id (v : V) m :
  JsMap.delete id (JsMap.set id v m) = JsMap.delete id m.
Proof.
  induction m as [|[k v'] m IH]; cbn.
  - now rewrite String.eqb_refl.
  - destruct (String.eqb k id) eqn:E; cbn; rewrite E; [reflexivity | now rewrite IH].
Qed.

Lemma delete_fresh {V} id (m : list (string * V)) :
  JsMap.get id m = None -> JsMap.delete id m = m.
Proof.
  induction m as [|[k v'] m IH]; cbn; [reflexivity|].
  destruct (String.eqb k id); [discriminate|]. intros H. now rewrite IH.
Qed.

Lemma send_open f k w :
  _ws w = Some k -> readyState_of k w = Some OPEN -> _send f w = push (Send k f) w.
Proof. intros Hw Hr. unfold _send. now rewrite Hw, Hr. Qed.

Lemma timer_fresh w : wf w -> timers w !! next_timer w = None.
Proof.
  intros H. destruct (timers w !! next_timer w) as [cb|] eqn:E; [|reflexivity].
  apply (wf_handles w H) in E. lia.
Qed.

Lemma is_challenge_not_null m : is_challenge m = true -> m <> JNull.
Proof. intros H ->. discriminate H. Qed.

Section RoundTrips.

Variable cfg : config.
Variable signPayload : string -> string -> option string.

(** X7.  The handshake, from any state a run reaches in which socket [k]
    is open and the handshake is not complete: the challenge followed by
    the [hello-ok] response to the connect request completes it.  The
    client records the time and the server and clears the handshake
    timer of the socket.  When the log line of the response can be
    built, the entry of the connect request is removed from the table
    with its timer, and the effects are, in order: the arming of the
    connect timer, the connect request if its parameters could be
    built, the "connected" notification, and the resolution of the
    connect request.  When building the log line throws, the handler
    stops there: the entry and its timer stay, and there is no
    notification and no resolution. *)
Theorem handshake_completes es k s ch res id uuid now1 now2 :
  let w := run cfg signPayload es init in
  let payload := Js.prop (Some res) "payload" in
  sockets w !! k = Some s ->
  readyState s = OPEN ->
  _handshakeComplete w = false ->
  is_challenge ch = true ->
  is_response res = true ->
  Js.is_str (Js.prop payload "type") "hello-ok" = true ->
  Js.prop (Some res) "id" = Some (JStr id) ->
  let w' :=
    run cfg signPayload
      [WsMessage k (Some ch) id now1; WsMessage k (Some res) uuid now2] w in
  let entry := {| cont := ConnectRequest; timer := next_timer w |} in
  let request :=
    SetTimeout (next_timer w) (ConnectTimeout id) HANDSHAKE_TIMEOUT_MS
    :: match connectParams cfg signPayload
               (Js.prop (Js.prop (Some ch) "payload") "nonce") now1 with
       | Some params =>
           [Send k {| frame_id := id; frame_method := "connect";
                      frame_params := params |}]
       | None => []
       end in
  _handshakeComplete w' = true
  /\ isConnected w' = _connected w
  /\ _connectedAt w' = Some now2
  /\ _serverInfo w' = or_undefined (Js.prop payload "server")
  /\ match connected_log payload (or_undefined (Js.prop payload "server")) with
     | Some _ =>
         _pending w' = JsMap.delete id (_pending w)
         /\ timers w' = delete (handshakeTimer s) (timers w)
         /\ trace w'
            = trace w ++ request
              ++ [Emit "connected" payload; Resolve id ConnectRequest payload]
     | None =>
         _pending w' = JsMap.set id entry (_pending w)
         /\ timers w'
            = delete (handshakeTimer s) (<[next_timer w:=ConnectTimeout id]> (timers w))
         /\ trace w' = trace w ++ request
     end.
Proof.
  intros w payload Hs Hopen Hhs Hch Hres Hhello Hid w' entry request.
  assert (Hst : steady false w) by apply steady_reached.
  assert (Hwf : wf w) by apply wf_run, wf_init.
  assert (Hr : readyState_of k w = Some OPEN)
    by (unfold readyState_of; rewrite Hs; cbn; now rewrite Hopen).
  assert (Hw : _ws w = Some k) by (apply (steady_live_current w k OPEN Hst); auto).
  pose proof (timer_fresh w Hwf) as Hfresh.
  subst w'. rewrite !run_cons. change (run cfg signPayload [] ?x) with x.
  set (w1 := step cfg signPayload (WsMessage k (Some ch) id now1) w).
  assert (E1 : w1 = with_trace (trace w ++ request)
                      (with_pending (JsMap.set id entry (_pending w))
                         (with_next_timer (S (next_timer w))
                            (with_timers (<[next_timer w:=ConnectTimeout id]> (timers w))
                               w)))).
  { subst w1 request entry. cbn [step].
    rewrite Hr, (onmessage_route _ _ _ _ _ _ _ (is_challenge_not_null _ Hch)).
    unfold route. cbv zeta. rewrite Hch. unfold _sendConnectRequest, setTimeout.
    cbv beta iota zeta.
    destruct (connectParams _ _ _ _) as [params|].
    - rewrite (send_open _ k) by (unfold readyState_of in *; fields; assumption).
      records; try reflexivity. now rewrite <- app_assoc.
    - records; reflexivity. }
  clearbody w1 request. subst w1.
  match goal with |- context [step _ _ _ ?x] =>
    assert (Hr1 : readyState_of k x = Some OPEN) by exact Hr
  end.
  cbn [step]. rewrite Hr1.
  rewrite (onmessage_route _ _ _ _ _ _ _ (response_is_not_null _ Hres)).
  unfold route. cbv zeta. rewrite (response_is_not_challenge _ Hres), Hres. fields.
  fold payload. rewrite Hhs, Hhello, Hid. cbn [negb andb].
  unfold clear_handshakeTimer. fields. rewrite Hs.
  destruct (connected_log payload (or_undefined (Js.prop payload "server"))).
  - unfold pending_get. fields. rewrite JsMapFacts.get_set_eq.
    unfold take, isConnected, entry. fields. cbn [timer cont].
    rewrite delete_set_eq, andb_true_r. repeat split.
    + now rewrite delete_delete, (delete_insert_id _ _ _ Hfresh).
    + rewrite <- !app_assoc. reflexivity.
  - unfold isConnected. fields. rewrite andb_true_r. repeat split.
Qed.

(** X8.  A call and its response, from any state a run reaches in which
    the client is ready on the open socket [k] and [id] is not in the
    table: after the response the table and the armed timers are what they
    were before the call, and the effects are, in order, the arming of the
    deadline, the request frame, and the settlement of the call's
    promise, which resolves with the payload when [ok] is truthy and
    rejects with the error of the frame otherwise; there is no
    settlement when building that error throws. *)
Theorem call_response_round_trip es k method params id res uuid now :
  let w := run cfg signPayload es init in
  isConnected w = true ->
  readyState_of k w = Some OPEN ->
  JsMap.get id (_pending w) = None ->
  is_response res = true ->
  Js.prop (Some res) "id" = Some (JStr id) ->
  let w' :=
    run cfg signPayload [ApiCall method params id; WsMessage k (Some res) uuid now] w in
  w' = with_trace
         (trace w
          ++ [SetTimeout (next_timer w) (CallTimeout id method (next_promise w))
                CALL_TIMEOUT_MS;
              Send k {| frame_id := id; frame_method := method; frame_params := params |}]
          ++ match response_effect id (CallPromise (next_promise w)) res with
             | Some settlement => [settlement]
             | None => []
             end)
         (with_next_timer (S (next_timer w)) (with_next_promise (S (next_promise w)) w)).
Proof.
  intros w Hc Hr Hnew Hres Hid w'.
  assert (Hst : steady false w) by apply steady_reached.
  assert (Hwf : wf w) by apply wf_run, wf_init.
  assert (Hw : _ws w = Some k) by (apply (steady_live_current w k OPEN Hst); auto).
  pose proof (timer_fresh w Hwf) as Hfresh.
  assert (Hhs : _handshakeComplete w = true)
    by (unfold isConnected in Hc; now apply andb_true_iff in Hc).
  subst w'. rewrite !run_cons. change (run cfg signPayload [] ?x) with x.
  cbn [step]. unfold call at 2. unfold call. rewrite Hc. cbn [negb]. unfold setTimeout.
  cbv beta iota zeta. cbn [snd].
  rewrite (send_open _ k) by (unfold readyState_of in *; fields; assumption).
  match goal with |- context [readyState_of k ?x] =>
    assert (Hr1 : readyState_of k x = Some OPEN) by exact Hr
  end.
  rewrite Hr1.
  rewrite (onmessage_route _ _ _ _ _ _ _ (response_is_not_null _ Hres)).
  unfold route. cbv zeta. rewrite (response_is_not_challenge _ Hres), Hres. fields.
  rewrite Hhs, Hid. cbn [negb andb].
  unfold pending_get. fields. rewrite JsMapFacts.get_set_eq. unfold take, response_effect.
  cbn [timer cont].
  destruct (Js.truthy (Js.prop (Some res) "ok"));
    [|destruct (error_message (Some res) "RPC error")]; records;
    rewrite ?delete_set_eq, ?(delete_fresh _ _ Hnew), ?(delete_insert_id _ _ _ Hfresh),
      ?app_nil_r, <- ?app_assoc; reflexivity.
Qed.

End RoundTrips.

(** The sample handshake, from the open socket on. *)
Lemma handshake_completes_witness :
  let w := run Sample.token_cfg Sample.sign [ApiConnect true; WsOpen 0] init in
  let w' :=
    run Sample.token_cfg Sample.sign
      [WsMessage 0 (Some (Sample.challenge [("nonce", JStr "n1")])) "h" 1000;
       WsMessage 0 (Some (Sample.response "h" true Sample.hello_ok)) "u1" 2000] w in
  _handshakeComplete w' = true /\ _connectedAt w' = Some 2000.
Proof.
  intros w w'.
  destruct (handshake_completes Sample.token_cfg Sample.sign [ApiConnect true; WsOpen 0]
              0%nat {| readyState := OPEN; handshakeTimer := 0 |}
              (Sample.challenge [("nonce", JStr "n1")])
              (Sample.response "h" true Sample.hello_ok) "h" "u1" 1000 2000)
    as (H1 & _ & H3 & _); try (vm_compute; reflexivity).
  split; [exact H1 | exact H3].
Defined.

(** A call on the ready client of the sample, answered at once. *)
Lemma call_response_round_trip_witness :
  let w := run Sample.token_cfg Sample.sign Sample.handshake init in
  run Sample.token_cfg Sample.sign
    [ApiCall "sessions.list" (JObj []) "c1";
     WsMessage 0 (Some (Sample.response "c1" true [])) "u2" 3000] w
  = with_trace
      (trace w
       ++ [SetTimeout (next_timer w) (CallTimeout "c1" "sessions.list" (next_promise w))
             CALL_TIMEOUT_MS;
           Send 0 {| frame_id := "c1"; frame_method := "sessions.list";
                     frame_params := JObj [] |}]
       ++ match response_effect "c1" (CallPromise (next_promise w))
                  (Sample.response "c1" true []) with
          | Some settlement => [settlement]
          | None => []
          end)
      (with_next_timer (S (next_timer w)) (with_next_promise (S (next_promise w)) w)).
Proof.
  apply (call_response_round_trip Sample.token_cfg Sample.sign Sample.handshake 0%nat
           "sessions.list" (JObj []) "c1" (Sample.response "c1" true []) "u2" 3000);
    vm_compute; reflexivity.
Defined.

(** ** The signature of the connect request *)

(** X9.  With device authentication, the signature in the [device] block
    of a connect request is the signature of the payload that
    [buildDeviceAuthPayload] gives for the fields the request itself
    carries: the id, signing time and nonce of its [device] block, the id
    and mode of its [client] block, its [role] and [scopes], and the token
    of its [auth] block.  The gateway can thus check the signature from
    the request alone. *)
Theorem signature_covers_request_fields cfg signPayload nonce now params :
  useDeviceAuth cfg = true ->
  connectParams cfg signPayload nonce now = Some params ->
  exists payload signature,
    buildDeviceAuthPayload (signed_fields params) = Some payload
    /\ signPayload (GATEWAY_DEVICE_PRIVKEY cfg) payload = Some signature
    /\ Js.prop (Js.prop (Some params) "device") "signature" = Some (JStr signature).
Proof.
  intros Hdev. unfold connectParams. rewrite Hdev.
  destruct (signed_payload cfg nonce now) as [payload|] eqn:Ep; [|discriminate].
  destruct (signPayload _ _) as [signature|] eqn:Es; [|discriminate].
  intros [= <-]. exists payload, signature. unfold signed_payload in Ep.
  unfold signed_fields, device_block.
  destruct (or_undefined nonce) as [n|]; cbn; (split; [exact Ep | split; [exact Es | reflexivity]]).
Qed.

Lemma signature_covers_request_fields_witness :
  match connectParams Sample.device_cfg Sample.sign (Some (JStr "n1")) 1000 with
  | Some params =>
      exists payload signature,
        buildDeviceAuthPayload (signed_fields params) = Some payload
        /\ Sample.sign "priv" payload = Some signature
        /\ Js.prop (Js.prop (Some params) "device") "signature" = Some (JStr signature)
  | None => False
  end.
Proof.
  destruct (connectParams Sample.device_cfg Sample.sign (Some (JStr "n1")) 1000)
    as [params|] eqn:E.
  - apply (signature_covers_request_fields Sample.device_cfg Sample.sign
             (Some (JStr "n1")) 1000 params); [reflexivity | exact E].
  - vm_compute in E. discriminate E.
Defined.

(** ** Reconnection *)

Section Reconnection.

Variable cfg : config.
Variable signPayload : string -> string -> option string.

(** X10.  Every close event is followed by a reconnect attempt.  In any
    state a run reaches, when the close event of a socket that is not yet
    closed is delivered, the client is no longer connected, no call is
    pending, and a reconnect timer is armed; when that timer fires and the
    [WebSocket] constructor succeeds, the client holds a new socket that
    is connecting, and no reconnect timer. *)
Theorem close_event_leads_to_reconnect es k r :
  let w := run cfg signPayload es init in
  readyState_of k w = Some r ->
  r <> CLOSED ->
  let w1 := step cfg signPayload (WsClose k) w in
  isConnected w1 = false
  /\ _pending w1 = []
  /\ exists t,
       _reconnectTimer w1 = Some t
       /\ timers w1 !! t = Some ReconnectTimer
       /\ let w2 := step cfg signPayload (TimerFires t true) w1 in
          _reconnectTimer w2 = None
          /\ _ws w2 = Some (length (sockets w))
          /\ readyState_of (length (sockets w)) w2 = Some CONNECTING.
Proof.
  intros w Hr Hne w1.
  assert (Hwf1 : wf w1) by (apply wf_step, wf_run, wf_init).
  assert (E1 : w1 = onclose k (set_readyState k CLOSED w))
    by (subst w1; cbn [step]; rewrite Hr; now destruct r).
  destruct (onclose_flags k (set_readyState k CLOSED w))
    as (Hc & Hh & _ & _ & Hp & Hs & _).
  rewrite <- E1 in Hc, Hh, Hp, Hs.
  assert (Hlen : length (sockets w1) = length (sockets w)).
  { rewrite Hs. unfold set_readyState. destruct (sockets w !! k); [|reflexivity].
    fields. apply length_insert. }
  assert (Ht : exists t, _reconnectTimer w1 = Some t).
  { rewrite E1. destruct (_reconnectTimer (set_readyState k CLOSED w)) as [t|] eqn:Et.
    - exists t. now apply onclose_reconnect_pending.
    - eexists. now apply onclose_reconnect. }
  destruct Ht as (t & Ht). pose proof (wf_reconnect_armed w1 Hwf1 t Ht) as Harmed.
  split; [unfold isConnected; now rewrite Hc|]. split; [assumption|].
  exists t. split; [assumption|]. split; [assumption|].
  cbn [step]. rewrite Harmed. cbn [fire]. rewrite doConnect_true_shape. fields.
  rewrite Hlen. repeat split.
  unfold readyState_of. fields.
  rewrite lookup_app_r by (rewrite closed_current_length; fields; lia).
  rewrite closed_current_length. fields. rewrite Hlen, Nat.sub_diag. reflexivity.
Qed.

End Reconnection.

(** The ready client of the sample loses its socket: timer 2 is armed, and
    its firing opens socket 1. *)
Lemma close_event_leads_to_reconnect_witness :
  let w := run Sample.token_cfg Sample.sign Sample.handshake init in
  let w1 := step Sample.token_cfg Sample.sign (WsClose 0) w in
  isConnected w1 = false
  /\ _pending w1 = []
  /\ exists t,
       _reconnectTimer w1 = Some t
       /\ timers w1 !! t = Some ReconnectTimer
       /\ let w2 := step Sample.token_cfg Sample.sign (TimerFires t true) w1 in
          _reconnectTimer w2 = None
          /\ _ws w2 = Some (length (sockets w))
          /\ readyState_of (length (sockets w)) w2 = Some CONNECTING.
Proof.
  apply (close_event_leads_to_reconnect Sample.token_cfg Sample.sign Sample.handshake
           0%nat OPEN); [vm_compute; reflexivity | discriminate].
Defined.

(** ** A response that comes too late *)

Section LateResponse.

Variable cfg : config.
Variable signPayload : string -> string -> option string.

(** X11.  A response that arrives after the deadline of its call is
    dropped.  From any state a run reaches in which the client is ready on
    the open socket [k] and [id] is not in the table: a call, the firing
    of its deadline timer, then a response under its id leave the table
    and the armed timers as they were before the call, and the effects
    are the arming of the deadline, the request frame and the rejection
    with the timeout error; the response adds none. *)
Theorem late_response_is_dropped es k method params id res uuid now ctor_ok :
  let w := run cfg signPayload es init in
  isConnected w = true ->
  readyState_of k w = Some OPEN ->
  JsMap.get id (_pending w) = None ->
  is_response res = true ->
  Js.prop (Some res) "id" = Some (JStr id) ->
  let w' :=
    run cfg signPayload
      [ApiCall method params id; TimerFires (next_timer w) ctor_ok;
       WsMessage k (Some res) uuid now] w in
  w' = with_trace
         (trace w
          ++ [SetTimeout (next_timer w) (CallTimeout id method (next_promise w))
                CALL_TIMEOUT_MS;
              Send k {| frame_id := id; frame_method := method; frame_params := params |};
              Reject id (CallPromise (next_promise w))
                (Error ("Gateway RPC timeout: " +:+ method +:+ " (15000ms)"))])
         (with_next_timer (S (next_timer w)) (with_next_promise (S (next_promise w)) w)).
Proof.
  intros w Hc Hr Hnew Hres Hid w'.
  assert (Hst : steady false w) by apply steady_reached.
  assert (Hwf : wf w) by apply wf_run, wf_init.
  assert (Hw : _ws w = Some k) by (apply (steady_live_current w k OPEN Hst); auto).
  pose proof (timer_fresh w Hwf) as Hfresh.
  assert (Hhs : _handshakeComplete w = true)
    by (unfold isConnected in Hc; now apply andb_true_iff in Hc).
  subst w'. rewrite !run_cons. change (run cfg signPayload [] ?x) with x.
  cbn [step]. unfold call at 2. unfold call. unfold call. rewrite Hc. cbn [negb].
  unfold setTimeout. cbv beta iota zeta. cbn [snd].
  rewrite (send_open _ k) by (unfold readyState_of in *; fields; assumption).
  fields. rewrite lookup_insert_eq. cbn [fire].
  match goal with |- context [readyState_of k ?x] =>
    assert (Hr1 : readyState_of k x = Some OPEN) by exact Hr
  end.
  rewrite Hr1.
  rewrite (onmessage_route _ _ _ _ _ _ _ (response_is_not_null _ Hres)).
  unfold route. cbv zeta. rewrite (response_is_not_challenge _ Hres), Hres. fields.
  rewrite Hhs, Hid. cbn [negb andb].
  unfold pending_get. fields. rewrite JsMapFacts.get_delete_eq.
  records;
    rewrite ?delete_set_eq, ?(delete_fresh _ _ Hnew), ?(delete_insert_id _ _ _ Hfresh),
      <- ?app_assoc; reflexivity.
Qed.

End LateResponse.

(** A call on the ready client of the sample: its deadline, then the
    response. *)
Lemma late_response_is_dropped_witness :
  let w := run Sample.token_cfg Sample.sign Sample.handshake init in
  run Sample.token_cfg Sample.sign
    [ApiCall "sessions.list" (JObj []) "c1"; TimerFires (next_timer w) true;
     WsMessage 0 (Some (Sample.response "c1" true [])) "u2" 20000] w
  = with_trace
      (trace w
       ++ [SetTimeout (next_timer w) (CallTimeout "c1" "sessions.list" (next_promise w))
             CALL_TIMEOUT_MS;
           Send 0 {| frame_id := "c1"; frame_method := "sessions.list";
                     frame_params := JObj [] |};
           Reject "c1" (CallPromise (next_promise w))
             (Error ("Gateway RPC timeout: " +:+ "sessions.list" +:+ " (15000ms)"))])
      (with_next_timer (S (next_timer w)) (with_next_promise (S (next_promise w)) w)).
Proof.
  apply (late_response_is_dropped Sample.token_cfg Sample.sign Sample.handshake 0%nat
           "sessions.list" (JObj []) "c1" (Sample.response "c1" true []) "u2" 20000 true);
    vm_compute; reflexivity.
Defined.
